(** * Kokkos default relaxation kernels

    A shallow embedding of [Kokkos_DefaultRelaxationKernelOps.hpp]: the two
    diagonal extractors, the two Jacobi kernels and the two fine-grain hybrid
    Gauss-Seidel kernels, for the offset/index/value storage ("type 1") and
    the row-pointer storage ("type 2").

    Modelling conventions.
    - [Scalar] is the template parameter of the kernels.  Its arithmetic is an
      interface ([ScalarOps]); the algebraic laws ([ScalarField]) are only
      assumed where a property needs them.  A quotient whose divisor is zero
      has no defined value: the kernels then have no result ([None]).
    - [size_t] and [Ordinal] values are array positions and array lengths;
      they are natural numbers, and their sums and products are taken without
      wrap-around: each one the kernels form ([row + 1], [rhs * xstride],
      [c++]) is a position in an array the caller provides.
      [i % numRows] has no result for [numRows = 0].
    - A [Scalar*] is an address in one flat scalar memory [Mem], so that two
      pointers may alias; [p + n] is address arithmetic and [p[n]] a load or a
      store at [p + n].  The kernels never check a bound, and neither does
      the memory: every address has a cell.
    - The read-only integer arrays ([offsets], [inds], [numEntries]) and the
      arrays of row pointers are indexed views [nat -> _].
    - A [for] loop over [lo <= c < hi] is a fold over [range lo hi]. *)

From Stdlib Require Import Arith Bool List Lia Field QArith Qcanon.
Import ListNotations.

Set Implicit Arguments.
Close Scope Qc_scope.
Close Scope Q_scope.
Open Scope nat_scope.

(** ** Scalars *)

Class ScalarOps (Scalar : Type) : Type := {
  szero : Scalar;
  sone : Scalar;
  sadd : Scalar -> Scalar -> Scalar;
  smul : Scalar -> Scalar -> Scalar;
  ssub : Scalar -> Scalar -> Scalar;
  sopp : Scalar -> Scalar;
  sdiv : Scalar -> Scalar -> Scalar;
  sinv : Scalar -> Scalar;
  (* not an operation of the kernels: tells whether a quotient is defined *)
  sis_zero : Scalar -> bool
}.

Class ScalarField (Scalar : Type) {O : ScalarOps Scalar} : Prop := {
  scalar_field :
    field_theory szero sone sadd smul ssub sopp sdiv sinv (@eq Scalar);
  sis_zero_spec : forall a : Scalar, sis_zero a = true <-> a = szero
}.
Arguments ScalarField Scalar {O}.

Declare Scope scalar_scope.
Delimit Scope scalar_scope with S.
Infix "+" := sadd : scalar_scope.
Infix "*" := smul : scalar_scope.
Infix "-" := ssub : scalar_scope.
Infix "/" := sdiv : scalar_scope.

(** The option monad carries "no defined result". *)
Definition obind {A B : Type} (o : option A) (f : A -> option B) : option B :=
  match o with
  | Some a => f a
  | None => None
  end.

Notation "x <- e ;; k" := (obind e (fun x => k))
  (at level 61, e at next level, right associativity).

(** The scalar memory. *)
Definition Mem (Scalar : Type) : Type := nat -> Scalar.

Section Memory.
Context {Scalar : Type} {O : ScalarOps Scalar}.
Local Abbreviation mem := (Mem Scalar).

Definition store (m : mem) (a : nat) (v : Scalar) : mem :=
  fun a' => if Nat.eqb a' a then v else m a'.

(** [a / d] as the kernels use it. *)
Definition quot (a d : Scalar) : option Scalar :=
  if sis_zero d then None else Some (a / d)%S.

(** The positions a loop [for (c = lo; c < hi; c++)] visits, in order. *)
Definition range (lo hi : nat) : list nat := seq lo (hi - lo).

(** Modelled from the spec: the external parallel-for engine, which is not
    part of the kernels' source.  On one sequential execution unit it runs
    the kernel once for every index of [idx], in that order; a sweep has a
    result when every update has one. *)
Fixpoint sweep (f : mem -> nat -> option mem) (idx : list nat) (m : mem)
  : option mem :=
  match idx with
  | [] => Some m
  | i :: idx' => m' <- f m i ;; sweep f idx' m'
  end.

(** Modelled from the spec: the same engine called once per right-hand
    side, for the kernels [f j], [j] in [cols], one after the other. *)
Fixpoint sweep_columns (f : nat -> mem -> nat -> option mem) (idx : list nat)
         (cols : list nat) (m : mem) : option mem :=
  match cols with
  | [] => Some m
  | j :: cols' => m' <- sweep (f j) idx m ;; sweep_columns f idx cols' m'
  end.

(** Modelled from the spec: the same engine for a kernel that always has a
    result (the diagonal extractors). *)
Fixpoint sweep_total (f : mem -> nat -> mem) (idx : list nat) (m : mem)
  : mem :=
  match idx with
  | [] => m
  | i :: idx' => sweep_total f idx' (f m i)
  end.

(** A memory holding the given arrays at the given addresses, zero
    elsewhere; earlier arrays win where two overlap. *)
Fixpoint mem_of (arrays : list (nat * list Scalar)) : mem :=
  match arrays with
  | [] => fun _ => szero
  | (base, l) :: rest =>
      fun a => if (base <=? a) && (a <? base + length l)
               then nth (a - base) l szero
               else mem_of rest a
  end.

(** The [n] cells from address [p] on. *)
Definition read_array (m : mem) (p n : nat) : list Scalar :=
  map (fun j => m (p + j)) (seq 0 n).
End Memory.

(** ** Rows and sums, as the specification words them *)

Section Specification.
Context {Scalar : Type} {O : ScalarOps Scalar}.
Local Abbreviation mem := (Mem Scalar).

(** The sum of a sequence of scalars. *)
Definition ssum (l : list Scalar) : Scalar := fold_right sadd szero l.

(** The sum of [v * y[c]] over the entries [(c, v)] of a row, for the column
    [y] of a multivector that starts at address [col]. *)
Definition row_dot (es : list (nat * Scalar)) (m : mem) (col : nat) : Scalar :=
  ssum (map (fun e => (snd e * m (col + fst e)%nat)%S) es).

(** The entries of a row that are, and that are not, on the diagonal. *)
Definition on_diagonal (r : nat) (es : list (nat * Scalar))
  : list (nat * Scalar) :=
  filter (fun e => Nat.eqb (fst e) r) es.

Definition off_diagonal (r : nat) (es : list (nat * Scalar))
  : list (nat * Scalar) :=
  filter (fun e => negb (Nat.eqb (fst e) r)) es.

(** Address [a] is one of the [n] cells from address [p] on. *)
Definition cells (p n : nat) (a : nat) : Prop := p <= a < p + n.

(** One relaxation update on a row given by its entries [es]: the residual
    is taken against the column at [col], scaled by [omega] and divided by
    the cell [dslot]; the cell [wslot] receives the cell [rslot] plus that
    quotient. *)
Definition relax (es : list (nat * Scalar)) (omega : Scalar) (m : mem)
           (bslot dslot col rslot wslot : nat) : option mem :=
  q <- quot (omega * (m bslot - row_dot es m col))%S (m dslot) ;;
  Some (store m wslot (m rslot + q)%S).

(** Modelled from the spec: [n] sweeps of a kernel over the same indices,
    one after the other. *)
Fixpoint sweeps (f : mem -> nat -> option mem) (idx : list nat) (n : nat)
         (m : mem) : option mem :=
  match n with
  | 0 => Some m
  | S n' => m' <- sweep f idx m ;; sweeps f idx n' m'
  end.

(** The first entry of a row on the diagonal, if there is one. *)
Definition first_diagonal (r : nat) (es : list (nat * Scalar))
  : option Scalar :=
  match on_diagonal r es with
  | [] => None
  | e :: _ => Some (snd e)
  end.
End Specification.

(** An integer array given by its elements. *)
Definition arr (l : list nat) : nat -> nat := fun i => nth i l 0.

(** ** Extract Matrix Diagonal for Type 1 storage *)
Module ExtractDiagonalOp1.
Section Defs.
Context {Scalar : Type} {O : ScalarOps Scalar}.
Local Abbreviation mem := (Mem Scalar).

Record t : Type := {
  offsets : nat -> nat;
  inds : nat -> nat;
  vals : nat;
  diag : nat;
  numRows : nat
}.

(** The loop of [execute] over the entry positions [cs] still to visit.
    The first component is a ghost log of the positions whose column index
    was inspected; the second is the memory the loop leaves. *)
Fixpoint scan (k : t) (row : nat) (cs : list nat) (m : mem)
  : list nat * mem :=
  match cs with
  | [] => ([], m)
  | c :: cs' =>
      if Nat.eqb row (inds k c)
      then ([c], store m (diag k + row) (m (vals k + c)))
      else let (log, m') := scan k row cs' m in (c :: log, m')
  end.

Definition execute_log (k : t) (m : mem) (row : nat) : list nat * mem :=
  scan k row (range (offsets k row) (offsets k (row + 1))) m.

Definition execute (k : t) (m : mem) (row : nat) : mem :=
  snd (execute_log k m row).

(** Row [r] as a sequence of (column, value) entries. *)
Definition row_entries (k : t) (m : mem) (r : nat) : list (nat * Scalar) :=
  map (fun c => (inds k c, m (vals k + c)))
      (range (offsets k r) (offsets k (r + 1))).

(** The addresses of the values of row [r]. *)
Definition value_cells (k : t) (r : nat) : list nat :=
  map (fun c => vals k + c) (range (offsets k r) (offsets k (r + 1))).

(** The first [n] cells of [diag] are no cells of the values of the first
    [n] rows. *)
Definition diag_apart (k : t) (n : nat) : Prop :=
  forall a r, cells (diag k) n a -> r < n -> ~ In a (value_cells k r).

(** Each of the first [n] rows has an entry on the diagonal. *)
Definition has_diagonal (k : t) (m : mem) (n : nat) : Prop :=
  forall r, r < n -> In r (map fst (row_entries k m r)).
End Defs.
End ExtractDiagonalOp1.

(** ** Extract Matrix Diagonal for Type 2 storage *)
Module ExtractDiagonalOp2.
Section Defs.
Context {Scalar : Type} {O : ScalarOps Scalar}.
Local Abbreviation mem := (Mem Scalar).

Record t : Type := {
  inds_beg : nat -> nat -> nat;
  vals_beg : nat -> nat;
  numEntries : nat -> nat;
  diag : nat;
  numRows : nat
}.

Fixpoint scan (k : t) (row : nat) (js : list nat) (m : mem)
  : list nat * mem :=
  let curval := vals_beg k row in
  let curind := inds_beg k row in
  match js with
  | [] => ([], m)
  | j :: js' =>
      if Nat.eqb row (curind j)
      then ([j], store m (diag k + row) (m (curval + j)))
      else let (log, m') := scan k row js' m in (j :: log, m')
  end.

Definition execute_log (k : t) (m : mem) (row : nat) : list nat * mem :=
  scan k row (range 0 (numEntries k row)) m.

Definition execute (k : t) (m : mem) (row : nat) : mem :=
  snd (execute_log k m row).

Definition row_entries (k : t) (m : mem) (r : nat) : list (nat * Scalar) :=
  map (fun j => (inds_beg k r j, m (vals_beg k r + j)))
      (range 0 (numEntries k r)).

(** The addresses of the values of row [r]. *)
Definition value_cells (k : t) (r : nat) : list nat :=
  map (fun j => vals_beg k r + j) (range 0 (numEntries k r)).

(** The first [n] cells of [diag] are no cells of the values of the first
    [n] rows. *)
Definition diag_apart (k : t) (n : nat) : Prop :=
  forall a r, cells (diag k) n a -> r < n -> ~ In a (value_cells k r).

(** Each of the first [n] rows has an entry on the diagonal. *)
Definition has_diagonal (k : t) (m : mem) (n : nat) : Prop :=
  forall r, r < n -> In r (map fst (row_entries k m r)).
End Defs.
End ExtractDiagonalOp2.

(** ** Jacobi for Type 1 storage *)
Module DefaultJacobiOp1.
Section Defs.
Context {Scalar : Type} {O : ScalarOps Scalar}.
Local Abbreviation mem := (Mem Scalar).

Record t : Type := {
  offsets : nat -> nat;
  inds : nat -> nat;
  vals : nat;
  diag : nat;
  numRows : nat;
  x : nat;
  x0 : nat;
  b : nat;
  damping_factor : Scalar;
  xstride : nat;
  bstride : nat
}.

Definition execute (k : t) (m : mem) (i : nat) : option mem :=
  if Nat.eqb (numRows k) 0 then None else
  let row := i mod numRows k in
  let rhs := (i - row) / numRows k in
  let xj := x k + rhs * xstride k in
  let x0j := x0 k + rhs * xstride k in
  let bj := b k + rhs * bstride k in
  let tmp :=
    fold_left
      (fun tmp c => (tmp - m (vals k + c)%nat * m (x0j + inds k c)%nat)%S)
      (range (offsets k row) (offsets k (row + 1)))
      (m (bj + row)) in
  q <- quot (damping_factor k * tmp)%S (m (diag k + row)) ;;
  Some (store m (xj + row) (m (x0j + row)%nat + q)%S).

Definition row_entries (k : t) (m : mem) (r : nat) : list (nat * Scalar) :=
  map (fun c => (inds k c, m (vals k + c)))
      (range (offsets k r) (offsets k (r + 1))).

(** The specified update of flat index [i]: its row, its right-hand side,
    the cells it addresses, and the value
    [x0[r,rhs] + omega * (b[r,rhs] - sum of v * x0[c,rhs]) / diag[r]],
    the sum over all entries [(c, v)] of the row. *)
Definition row_of (k : t) (i : nat) : nat := i mod numRows k.
Definition rhs_of (k : t) (i : nat) : nat := i / numRows k.
Definition x_slot (k : t) (i : nat) : nat :=
  x k + rhs_of k i * xstride k + row_of k i.
Definition x0_column (k : t) (i : nat) : nat := x0 k + rhs_of k i * xstride k.
Definition b_slot (k : t) (i : nat) : nat :=
  b k + rhs_of k i * bstride k + row_of k i.
Definition diag_slot (k : t) (i : nat) : nat := diag k + row_of k i.

Definition residual (k : t) (m : mem) (i : nat) : Scalar :=
  (m (b_slot k i) - row_dot (row_entries k m (row_of k i)) m (x0_column k i))%S.

Definition update_value (k : t) (m : mem) (i : nat) : Scalar :=
  (m (x0_column k i + row_of k i)%nat
   + damping_factor k * residual k m i / m (diag_slot k i))%S.

(** The addresses of the values of row [r]. *)
Definition value_cells (k : t) (r : nat) : list nat :=
  map (fun c => vals k + c) (range (offsets k r) (offsets k (r + 1))).

(** The kernel of one right-hand side: column [j] of [x], [x0] and [b]. *)
Definition single_rhs (k : t) (j : nat) : t :=
  {| offsets := offsets k; inds := inds k; vals := vals k; diag := diag k;
     numRows := numRows k;
     x := x k + j * xstride k;
     x0 := x0 k + j * xstride k;
     b := b k + j * bstride k;
     damping_factor := damping_factor k;
     xstride := xstride k; bstride := bstride k |}.

(** The kernel with another stride for [b]. *)
Definition with_bstride (k : t) (s : nat) : t :=
  {| offsets := offsets k; inds := inds k; vals := vals k; diag := diag k;
     numRows := numRows k; x := x k; x0 := x0 k; b := b k;
     damping_factor := damping_factor k;
     xstride := xstride k; bstride := s |}.

(** The cell of [x0] that belongs to flat index [i]. *)
Definition x0_slot (k : t) (i : nat) : nat := x0_column k i + row_of k i.

(** No cell of [x] written for an index of [idx] is a cell of [diag] or of
    [x0] read for an index of [idx]. *)
Definition output_apart (k : t) (idx : list nat) : Prop :=
  forall i j, In i idx -> In j idx ->
              x_slot k i <> diag_slot k j /\ x_slot k i <> x0_slot k j.
(** The cells the update of flat index [i] reads: its cells of [diag], [b]
    and [x0], the values of its row, and the cells of [x0] at the columns of
    the entries of its row. *)
Definition read_cells (k : t) (m : mem) (i : nat) : list nat :=
  diag_slot k i :: b_slot k i :: x0_slot k i
  :: value_cells k (row_of k i)
  ++ map (fun e => x0_column k i + fst e) (row_entries k m (row_of k i)).

(** No cell written for an index of [idx] is read for an index of [idx]. *)
Definition sweep_apart (k : t) (m : mem) (idx : list nat) : Prop :=
  forall i j, In i idx -> In j idx -> ~ In (x_slot k i) (read_cells k m j).

(** The damped update in its textbook form:
    [(1 - omega) * x0[r,rhs]
     + omega * (b[r,rhs] - sum of v * x0[c,rhs] over c <> r) / diag[r]]. *)
Definition classical_value (k : t) (m : mem) (i : nat) : Scalar :=
  ((sone - damping_factor k) * m (x0_slot k i)
   + damping_factor k
     * (m (b_slot k i)
        - row_dot (off_diagonal (row_of k i) (row_entries k m (row_of k i)))
                  m (x0_column k i))
     / m (diag_slot k i))%S.
End Defs.
Arguments t : clear implicits.
End DefaultJacobiOp1.

(** ** Jacobi for Type 2 storage *)
Module DefaultJacobiOp2.
Section Defs.
Context {Scalar : Type} {O : ScalarOps Scalar}.
Local Abbreviation mem := (Mem Scalar).

Record t : Type := {
  inds_beg : nat -> nat -> nat;
  vals_beg : nat -> nat;
  numEntries : nat -> nat;
  diag : nat;
  numRows : nat;
  x : nat;
  x0 : nat;
  b : nat;
  damping_factor : Scalar;
  xstride : nat;
  bstride : nat
}.

Definition execute (k : t) (m : mem) (i : nat) : option mem :=
  if Nat.eqb (numRows k) 0 then None else
  let row := i mod numRows k in
  let rhs := (i - row) / numRows k in
  let xj := x k + rhs * xstride k in
  let x0j := x0 k + rhs * xstride k in
  let bj := b k + rhs * bstride k in
  let curval := vals_beg k row in
  let curind := inds_beg k row in
  let tmp :=
    fold_left
      (fun tmp j => (tmp - m (curval + j)%nat * m (x0j + curind j)%nat)%S)
      (range 0 (numEntries k row))
      (m (bj + row)) in
  q <- quot (damping_factor k * tmp)%S (m (diag k + row)) ;;
  Some (store m (xj + row) (m (x0j + row)%nat + q)%S).

Definition row_entries (k : t) (m : mem) (r : nat) : list (nat * Scalar) :=
  map (fun j => (inds_beg k r j, m (vals_beg k r + j)))
      (range 0 (numEntries k r)).

(** The specified update of flat index [i]: its row, its right-hand side,
    the cells it addresses, and the value
    [x0[r,rhs] + omega * (b[r,rhs] - sum of v * x0[c,rhs]) / diag[r]],
    the sum over all entries [(c, v)] of the row. *)
Definition row_of (k : t) (i : nat) : nat := i mod numRows k.
Definition rhs_of (k : t) (i : nat) : nat := i / numRows k.
Definition x_slot (k : t) (i : nat) : nat :=
  x k + rhs_of k i * xstride k + row_of k i.
Definition x0_column (k : t) (i : nat) : nat := x0 k + rhs_of k i * xstride k.
Definition b_slot (k : t) (i : nat) : nat :=
  b k + rhs_of k i * bstride k + row_of k i.
Definition diag_slot (k : t) (i : nat) : nat := diag k + row_of k i.

Definition residual (k : t) (m : mem) (i : nat) : Scalar :=
  (m (b_slot k i) - row_dot (row_entries k m (row_of k i)) m (x0_column k i))%S.

Definition update_value (k : t) (m : mem) (i : nat) : Scalar :=
  (m (x0_column k i + row_of k i)%nat
   + damping_factor k * residual k m i / m (diag_slot k i))%S.

(** The addresses of the values of row [r]. *)
Definition value_cells (k : t) (r : nat) : list nat :=
  map (fun j => vals_beg k r + j) (range 0 (numEntries k r)).

(** The kernel of one right-hand side: column [j] of [x], [x0] and [b]. *)
Definition single_rhs (k : t) (j : nat) : t :=
  {| inds_beg := inds_beg k; vals_beg := vals_beg k;
     numEntries := numEntries k; diag := diag k;
     numRows := numRows k;
     x := x k + j * xstride k;
     x0 := x0 k + j * xstride k;
     b := b k + j * bstride k;
     damping_factor := damping_factor k;
     xstride := xstride k; bstride := bstride k |}.

(** The kernel with another stride for [b]. *)
Definition with_bstride (k : t) (s : nat) : t :=
  {| inds_beg := inds_beg k; vals_beg := vals_beg k;
     numEntries := numEntries k; diag := diag k;
     numRows := numRows k; x := x k; x0 := x0 k; b := b k;
     damping_factor := damping_factor k;
     xstride := xstride k; bstride := s |}.

(** The cell of [x0] that belongs to flat index [i]. *)
Definition x0_slot (k : t) (i : nat) : nat := x0_column k i + row_of k i.

(** No cell of [x] written for an index of [idx] is a cell of [diag] or of
    [x0] read for an index of [idx]. *)
Definition output_apart (k : t) (idx : list nat) : Prop :=
  forall i j, In i idx -> In j idx ->
              x_slot k i <> diag_slot k j /\ x_slot k i <> x0_slot k j.
(** The cells the update of flat index [i] reads: its cells of [diag], [b]
    and [x0], the values of its row, and the cells of [x0] at the columns of
    the entries of its row. *)
Definition read_cells (k : t) (m : mem) (i : nat) : list nat :=
  diag_slot k i :: b_slot k i :: x0_slot k i
  :: value_cells k (row_of k i)
  ++ map (fun e => x0_column k i + fst e) (row_entries k m (row_of k i)).

(** No cell written for an index of [idx] is read for an index of [idx]. *)
Definition sweep_apart (k : t) (m : mem) (idx : list nat) : Prop :=
  forall i j, In i idx -> In j idx -> ~ In (x_slot k i) (read_cells k m j).

(** The damped update in its textbook form:
    [(1 - omega) * x0[r,rhs]
     + omega * (b[r,rhs] - sum of v * x0[c,rhs] over c <> r) / diag[r]]. *)
Definition classical_value (k : t) (m : mem) (i : nat) : Scalar :=
  ((sone - damping_factor k) * m (x0_slot k i)
   + damping_factor k
     * (m (b_slot k i)
        - row_dot (off_diagonal (row_of k i) (row_entries k m (row_of k i)))
                  m (x0_column k i))
     / m (diag_slot k i))%S.

(** The kernel [k2] has the vectors, strides, damping factor and number of
    rows of the kernel [k1] of the other storage. *)
Definition same_vectors (k1 : DefaultJacobiOp1.t Scalar) (k2 : t) : Prop :=
  numRows k2 = DefaultJacobiOp1.numRows k1
  /\ diag k2 = DefaultJacobiOp1.diag k1
  /\ x k2 = DefaultJacobiOp1.x k1
  /\ x0 k2 = DefaultJacobiOp1.x0 k1
  /\ b k2 = DefaultJacobiOp1.b k1
  /\ damping_factor k2 = DefaultJacobiOp1.damping_factor k1
  /\ xstride k2 = DefaultJacobiOp1.xstride k1
  /\ bstride k2 = DefaultJacobiOp1.bstride k1.
End Defs.
Arguments t : clear implicits.
End DefaultJacobiOp2.

(** ** Fine-grain "hybrid" Gauss-Seidel for Type 1 storage *)
Module DefaultFineGrainHybridGaussSeidelOp1.
Section Defs.
Context {Scalar : Type} {O : ScalarOps Scalar}.
Local Abbreviation mem := (Mem Scalar).

Record t : Type := {
  offsets : nat -> nat;
  inds : nat -> nat;
  vals : nat;
  diag : nat;
  numRows : nat;
  x : nat;
  b : nat;
  damping_factor : Scalar;
  xstride : nat;
  bstride : nat
}.

Definition execute (k : t) (m : mem) (i : nat) : option mem :=
  if Nat.eqb (numRows k) 0 then None else
  let row := i mod numRows k in
  let rhs := (i - row) / numRows k in
  let xj := x k + rhs * xstride k in
  let bj := b k + rhs * bstride k in
  let tmp :=
    fold_left
      (fun tmp c => (tmp - m (vals k + c)%nat * m (xj + inds k c)%nat)%S)
      (range (offsets k row) (offsets k (row + 1)))
      (m (bj + row)) in
  q <- quot (damping_factor k * tmp)%S (m (diag k + row)) ;;
  Some (store m (xj + row) (m (xj + row)%nat + q)%S).

Definition row_entries (k : t) (m : mem) (r : nat) : list (nat * Scalar) :=
  map (fun c => (inds k c, m (vals k + c)))
      (range (offsets k r) (offsets k (r + 1))).

(** The update of flat index [i]: its row, its right-hand side and the cells
    it addresses. *)
Definition row_of (k : t) (i : nat) : nat := i mod numRows k.
Definition rhs_of (k : t) (i : nat) : nat := i / numRows k.
Definition x_column (k : t) (i : nat) : nat := x k + rhs_of k i * xstride k.
Definition x_slot (k : t) (i : nat) : nat := x_column k i + row_of k i.
Definition b_slot (k : t) (i : nat) : nat :=
  b k + rhs_of k i * bstride k + row_of k i.
Definition diag_slot (k : t) (i : nat) : nat := diag k + row_of k i.

(** [b[r,rhs]] minus the sum of [v * x[c,rhs]] over all entries [(c, v)] of
    the row, the diagonal entry included. *)
Definition residual (k : t) (m : mem) (i : nat) : Scalar :=
  (m (b_slot k i) - row_dot (row_entries k m (row_of k i)) m (x_column k i))%S.

Definition update_value (k : t) (m : mem) (i : nat) : Scalar :=
  (m (x_slot k i) + damping_factor k * residual k m i / m (diag_slot k i))%S.

(** The same with the sum restricted to the entries with [c <> r], as the
    specification words the update. *)
Definition residual_off_diagonal (k : t) (m : mem) (i : nat) : Scalar :=
  (m (b_slot k i)
   - row_dot (off_diagonal (row_of k i) (row_entries k m (row_of k i))) m
             (x_column k i))%S.

Definition update_value_off_diagonal (k : t) (m : mem) (i : nat) : Scalar :=
  (m (x_slot k i)
   + damping_factor k * residual_off_diagonal k m i / m (diag_slot k i))%S.

(** The addresses of the values of row [r]. *)
Definition value_cells (k : t) (r : nat) : list nat :=
  map (fun c => vals k + c) (range (offsets k r) (offsets k (r + 1))).

(** Every entry of the first [n] rows is on or below the diagonal. *)
Definition lower_triangular (k : t) (m : mem) (n : nat) : Prop :=
  forall r e, r < n -> In e (row_entries k m r) -> fst e <= r.

(** Each of the first [n] rows has exactly one entry on the diagonal, it is
    not zero, and [diag] holds it. *)
Definition diagonal_held (k : t) (m : mem) (n : nat) : Prop :=
  forall r, r < n ->
            on_diagonal r (row_entries k m r) = [(r, m (diag k + r))]
            /\ m (diag k + r) <> szero.

(** The first [n] cells of [x] are no cells of [b], of [diag] or of the
    values of the first [n] rows. *)
Definition x_apart (k : t) (n : nat) : Prop :=
  forall a, cells (x k) n a ->
            ~ cells (b k) n a
            /\ ~ cells (diag k) n a
            /\ (forall r, r < n -> ~ In a (value_cells k r)).

(** The column [y] of [n] cells at address [col] solves the system of the
    first [n] rows against the right-hand side [b]: row by row, the sum of
    [v * y[c]] over the entries [(c, v)] is [b[r]]. *)
Definition solves (k : t) (m : mem) (n : nat) (col : nat) : Prop :=
  forall r, r < n -> row_dot (row_entries k m r) m col = m (b k + r).
(** The damped update in its textbook form:
    [(1 - omega) * x[r,rhs]
     + omega * (b[r,rhs] - sum of v * x[c,rhs] over c <> r) / diag[r]]. *)
Definition classical_value (k : t) (m : mem) (i : nat) : Scalar :=
  ((sone - damping_factor k) * m (x_slot k i)
   + damping_factor k * residual_off_diagonal k m i / m (diag_slot k i))%S.

(** Every entry of the first [n] rows is on or above the diagonal, in one of
    the first [n] columns. *)
Definition upper_triangular (k : t) (m : mem) (n : nat) : Prop :=
  forall r e, r < n -> In e (row_entries k m r) -> r <= fst e < n.

(** The kernel of one right-hand side: column [j] of [x] and [b]. *)
Definition single_rhs (k : t) (j : nat) : t :=
  {| offsets := offsets k; inds := inds k; vals := vals k; diag := diag k;
     numRows := numRows k;
     x := x k + j * xstride k;
     b := b k + j * bstride k;
     damping_factor := damping_factor k;
     xstride := xstride k; bstride := bstride k |}.

(** The Gauss-Seidel kernel on the matrix, [diag], [x] and [b] of a Jacobi
    kernel. *)
Definition of_jacobi (k : DefaultJacobiOp1.t Scalar) : t :=
  {| offsets := DefaultJacobiOp1.offsets k;
     inds := DefaultJacobiOp1.inds k;
     vals := DefaultJacobiOp1.vals k;
     diag := DefaultJacobiOp1.diag k;
     numRows := DefaultJacobiOp1.numRows k;
     x := DefaultJacobiOp1.x k;
     b := DefaultJacobiOp1.b k;
     damping_factor := DefaultJacobiOp1.damping_factor k;
     xstride := DefaultJacobiOp1.xstride k;
     bstride := DefaultJacobiOp1.bstride k |}.
(** The diagonal extractor on the matrix and the [diag] of the kernel. *)
Definition extractor (k : t) : ExtractDiagonalOp1.t :=
  {| ExtractDiagonalOp1.offsets := offsets k;
     ExtractDiagonalOp1.inds := inds k;
     ExtractDiagonalOp1.vals := vals k;
     ExtractDiagonalOp1.diag := diag k;
     ExtractDiagonalOp1.numRows := numRows k |}.

(** Each of the first [n] rows has exactly one entry on the diagonal, and it
    is not zero. *)
Definition one_diagonal (k : t) (m : mem) (n : nat) : Prop :=
  forall r, r < n ->
            exists d, on_diagonal r (row_entries k m r) = [(r, d)]
                      /\ d <> szero.
End Defs.
Arguments t : clear implicits.
End DefaultFineGrainHybridGaussSeidelOp1.

(** ** Fine-grain "hybrid" Gauss-Seidel for Type 2 storage *)
Module DefaultFineGrainHybridGaussSeidelOp2.
Section Defs.
Context {Scalar : Type} {O : ScalarOps Scalar}.
Local Abbreviation mem := (Mem Scalar).

Record t : Type := {
  inds_beg : nat -> nat -> nat;
  vals_beg : nat -> nat;
  numEntries : nat -> nat;
  diag : nat;
  numRows : nat;
  x : nat;
  b : nat;
  damping_factor : Scalar;
  xstride : nat;
  bstride : nat
}.

Definition execute (k : t) (m : mem) (i : nat) : option mem :=
  if Nat.eqb (numRows k) 0 then None else
  let row := i mod numRows k in
  let rhs := (i - row) / numRows k in
  let xj := x k + rhs * xstride k in
  let bj := b k + rhs * bstride k in
  let curval := vals_beg k row in
  let curind := inds_beg k row in
  let tmp :=
    fold_left
      (fun tmp j => (tmp - m (curval + j)%nat * m (xj + curind j)%nat)%S)
      (range 0 (numEntries k row))
      (m (bj + row)) in
  q <- quot (damping_factor k * tmp)%S (m (diag k + row)) ;;
  Some (store m (xj + row) (m (xj + row)%nat + q)%S).

Definition row_entries (k : t) (m : mem) (r : nat) : list (nat * Scalar) :=
  map (fun j => (inds_beg k r j, m (vals_beg k r + j)))
      (range 0 (numEntries k r)).

(** The update of flat index [i]: its row, its right-hand side and the cells
    it addresses. *)
Definition row_of (k : t) (i : nat) : nat := i mod numRows k.
Definition rhs_of (k : t) (i : nat) : nat := i / numRows k.
Definition x_column (k : t) (i : nat) : nat := x k + rhs_of k i * xstride k.
Definition x_slot (k : t) (i : nat) : nat := x_column k i + row_of k i.
Definition b_slot (k : t) (i : nat) : nat :=
  b k + rhs_of k i * bstride k + row_of k i.
Definition diag_slot (k : t) (i : nat) : nat := diag k + row_of k i.

(** [b[r,rhs]] minus the sum of [v * x[c,rhs]] over all entries [(c, v)] of
    the row, the diagonal entry included. *)
Definition residual (k : t) (m : mem) (i : nat) : Scalar :=
  (m (b_slot k i) - row_dot (row_entries k m (row_of k i)) m (x_column k i))%S.

Definition update_value (k : t) (m : mem) (i : nat) : Scalar :=
  (m (x_slot k i) + damping_factor k * residual k m i / m (diag_slot k i))%S.

(** The same with the sum restricted to the entries with [c <> r], as the
    specification words the update. *)
Definition residual_off_diagonal (k : t) (m : mem) (i : nat) : Scalar :=
  (m (b_slot k i)
   - row_dot (off_diagonal (row_of k i) (row_entries k m (row_of k i))) m
             (x_column k i))%S.

Definition update_value_off_diagonal (k : t) (m : mem) (i : nat) : Scalar :=
  (m (x_slot k i)
   + damping_factor k * residual_off_diagonal k m i / m (diag_slot k i))%S.

(** The addresses of the values of row [r]. *)
Definition value_cells (k : t) (r : nat) : list nat :=
  map (fun j => vals_beg k r + j) (range 0 (numEntries k r)).

(** Every entry of the first [n] rows is on or below the diagonal. *)
Definition lower_triangular (k : t) (m : mem) (n : nat) : Prop :=
  forall r e, r < n -> In e (row_entries k m r) -> fst e <= r.

(** Each of the first [n] rows has exactly one entry on the diagonal, it is
    not zero, and [diag] holds it. *)
Definition diagonal_held (k : t) (m : mem) (n : nat) : Prop :=
  forall r, r < n ->
            on_diagonal r (row_entries k m r) = [(r, m (diag k + r))]
            /\ m (diag k + r) <> szero.

(** The first [n] cells of [x] are no cells of [b], of [diag] or of the
    values of the first [n] rows. *)
Definition x_apart (k : t) (n : nat) : Prop :=
  forall a, cells (x k) n a ->
            ~ cells (b k) n a
            /\ ~ cells (diag k) n a
            /\ (forall r, r < n -> ~ In a (value_cells k r)).

(** The column [y] of [n] cells at address [col] solves the system of the
    first [n] rows against the right-hand side [b]: row by row, the sum of
    [v * y[c]] over the entries [(c, v)] is [b[r]]. *)
Definition solves (k : t) (m : mem) (n : nat) (col : nat) : Prop :=
  forall r, r < n -> row_dot (row_entries k m r) m col = m (b k + r).
(** The damped update in its textbook form:
    [(1 - omega) * x[r,rhs]
     + omega * (b[r,rhs] - sum of v * x[c,rhs] over c <> r) / diag[r]]. *)
Definition classical_value (k : t) (m : mem) (i : nat) : Scalar :=
  ((sone - damping_factor k) * m (x_slot k i)
   + damping_factor k * residual_off_diagonal k m i / m (diag_slot k i))%S.

(** Every entry of the first [n] rows is on or above the diagonal, in one of
    the first [n] columns. *)
Definition upper_triangular (k : t) (m : mem) (n : nat) : Prop :=
  forall r e, r < n -> In e (row_entries k m r) -> r <= fst e < n.

(** The kernel of one right-hand side: column [j] of [x] and [b]. *)
Definition single_rhs (k : t) (j : nat) : t :=
  {| inds_beg := inds_beg k; vals_beg := vals_beg k;
     numEntries := numEntries k; diag := diag k;
     numRows := numRows k;
     x := x k + j * xstride k;
     b := b k + j * bstride k;
     damping_factor := damping_factor k;
     xstride := xstride k; bstride := bstride k |}.

(** The Gauss-Seidel kernel on the matrix, [diag], [x] and [b] of a Jacobi
    kernel. *)
Definition of_jacobi (k : DefaultJacobiOp2.t Scalar) : t :=
  {| inds_beg := DefaultJacobiOp2.inds_beg k;
     vals_beg := DefaultJacobiOp2.vals_beg k;
     numEntries := DefaultJacobiOp2.numEntries k;
     diag := DefaultJacobiOp2.diag k;
     numRows := DefaultJacobiOp2.numRows k;
     x := DefaultJacobiOp2.x k;
     b := DefaultJacobiOp2.b k;
     damping_factor := DefaultJacobiOp2.damping_factor k;
     xstride := DefaultJacobiOp2.xstride k;
     bstride := DefaultJacobiOp2.bstride k |}.

(** The kernel [k2] has the vectors, strides, damping factor and number of
    rows of the kernel [k1] of the other storage. *)
Definition same_vectors (k1 : DefaultFineGrainHybridGaussSeidelOp1.t Scalar)
           (k2 : t) : Prop :=
  numRows k2 = DefaultFineGrainHybridGaussSeidelOp1.numRows k1
  /\ diag k2 = DefaultFineGrainHybridGaussSeidelOp1.diag k1
  /\ x k2 = DefaultFineGrainHybridGaussSeidelOp1.x k1
  /\ b k2 = DefaultFineGrainHybridGaussSeidelOp1.b k1
  /\ damping_factor k2 = DefaultFineGrainHybridGaussSeidelOp1.damping_factor k1
  /\ xstride k2 = DefaultFineGrainHybridGaussSeidelOp1.xstride k1
  /\ bstride k2 = DefaultFineGrainHybridGaussSeidelOp1.bstride k1.
(** The diagonal extractor on the matrix and the [diag] of the kernel. *)
Definition extractor (k : t) : ExtractDiagonalOp2.t :=
  {| ExtractDiagonalOp2.inds_beg := inds_beg k;
     ExtractDiagonalOp2.vals_beg := vals_beg k;
     ExtractDiagonalOp2.numEntries := numEntries k;
     ExtractDiagonalOp2.diag := diag k;
     ExtractDiagonalOp2.numRows := numRows k |}.

(** Each of the first [n] rows has exactly one entry on the diagonal, and it
    is not zero. *)
Definition one_diagonal (k : t) (m : mem) (n : nat) : Prop :=
  forall r, r < n ->
            exists d, on_diagonal r (row_entries k m r) = [(r, d)]
                      /\ d <> szero.
End Defs.
Arguments t : clear implicits.
End DefaultFineGrainHybridGaussSeidelOp2.

(** ** The rationals as scalars *)

Definition Qc_is_zero (q : Qc) : bool := Qeq_bool q 0.

#[export] Instance Qc_ops : ScalarOps Qc := {
  szero := Q2Qc 0;
  sone := Q2Qc 1;
  sadd := Qcplus;
  smul := Qcmult;
  ssub := Qcminus;
  sopp := Qcopp;
  sdiv := Qcdiv;
  sinv := Qcinv;
  sis_zero := Qc_is_zero
}.

(** ** A concrete system

    The 3x3 matrix with rows [(0,2),(1,5)], [(0,1),(1,3),(2,1)] and
    [(1,1),(2,4)], entries as (column, value), in both storages, and the
    vectors of one relaxation step, laid out in one memory:
    the values at address 0, [diag] at 10, [b] at 20, [x0] at 30, [x] at 40.
    The cells of [diag] and [x] start with arbitrary contents. *)
Module Example3x3.

Definition qc (n : Z) (d : positive) : Qc := Q2Qc (n # d).

Definition matrix_vals : list Qc :=
  [qc 2 1; qc 5 1; qc 1 1; qc 3 1; qc 1 1; qc 1 1; qc 4 1].

Definition mem0 : Mem Qc :=
  mem_of [(0, matrix_vals);
          (10, [qc 7 1; qc 7 1; qc 7 1]);
          (20, [qc 1 1; qc 1 1; qc 1 1]);
          (30, [qc 0 1; qc 0 1; qc 0 1]);
          (40, [qc 9 1; qc 8 1; qc 7 1])].

Definition offsets : nat -> nat := arr [0; 2; 5; 7].
Definition inds : nat -> nat := arr [0; 1; 0; 1; 2; 1; 2].

Definition inds_beg : nat -> nat -> nat :=
  fun r => arr (nth r [[0; 1]; [0; 1; 2]; [1; 2]] []).
Definition vals_beg : nat -> nat := arr [0; 2; 5].
Definition numEntries : nat -> nat := arr [2; 3; 2].

Definition extract1 : ExtractDiagonalOp1.t :=
  {| ExtractDiagonalOp1.offsets := offsets;
     ExtractDiagonalOp1.inds := inds;
     ExtractDiagonalOp1.vals := 0;
     ExtractDiagonalOp1.diag := 10;
     ExtractDiagonalOp1.numRows := 3 |}.

Definition extract2 : ExtractDiagonalOp2.t :=
  {| ExtractDiagonalOp2.inds_beg := inds_beg;
     ExtractDiagonalOp2.vals_beg := vals_beg;
     ExtractDiagonalOp2.numEntries := numEntries;
     ExtractDiagonalOp2.diag := 10;
     ExtractDiagonalOp2.numRows := 3 |}.

Definition jacobi1 (omega : Qc) : DefaultJacobiOp1.t Qc :=
  {| DefaultJacobiOp1.offsets := offsets;
     DefaultJacobiOp1.inds := inds;
     DefaultJacobiOp1.vals := 0;
     DefaultJacobiOp1.diag := 10;
     DefaultJacobiOp1.numRows := 3;
     DefaultJacobiOp1.x := 40;
     DefaultJacobiOp1.x0 := 30;
     DefaultJacobiOp1.b := 20;
     DefaultJacobiOp1.damping_factor := omega;
     DefaultJacobiOp1.xstride := 3;
     DefaultJacobiOp1.bstride := 3 |}.

Definition jacobi2 (omega : Qc) : DefaultJacobiOp2.t Qc :=
  {| DefaultJacobiOp2.inds_beg := inds_beg;
     DefaultJacobiOp2.vals_beg := vals_beg;
     DefaultJacobiOp2.numEntries := numEntries;
     DefaultJacobiOp2.diag := 10;
     DefaultJacobiOp2.numRows := 3;
     DefaultJacobiOp2.x := 40;
     DefaultJacobiOp2.x0 := 30;
     DefaultJacobiOp2.b := 20;
     DefaultJacobiOp2.damping_factor := omega;
     DefaultJacobiOp2.xstride := 3;
     DefaultJacobiOp2.bstride := 3 |}.

Definition gs1 (omega : Qc) : DefaultFineGrainHybridGaussSeidelOp1.t Qc :=
  {| DefaultFineGrainHybridGaussSeidelOp1.offsets := offsets;
     DefaultFineGrainHybridGaussSeidelOp1.inds := inds;
     DefaultFineGrainHybridGaussSeidelOp1.vals := 0;
     DefaultFineGrainHybridGaussSeidelOp1.diag := 10;
     DefaultFineGrainHybridGaussSeidelOp1.numRows := 3;
     DefaultFineGrainHybridGaussSeidelOp1.x := 40;
     DefaultFineGrainHybridGaussSeidelOp1.b := 20;
     DefaultFineGrainHybridGaussSeidelOp1.damping_factor := omega;
     DefaultFineGrainHybridGaussSeidelOp1.xstride := 3;
     DefaultFineGrainHybridGaussSeidelOp1.bstride := 3 |}.

Definition gs2 (omega : Qc) : DefaultFineGrainHybridGaussSeidelOp2.t Qc :=
  {| DefaultFineGrainHybridGaussSeidelOp2.inds_beg := inds_beg;
     DefaultFineGrainHybridGaussSeidelOp2.vals_beg := vals_beg;
     DefaultFineGrainHybridGaussSeidelOp2.numEntries := numEntries;
     DefaultFineGrainHybridGaussSeidelOp2.diag := 10;
     DefaultFineGrainHybridGaussSeidelOp2.numRows := 3;
     DefaultFineGrainHybridGaussSeidelOp2.x := 40;
     DefaultFineGrainHybridGaussSeidelOp2.b := 20;
     DefaultFineGrainHybridGaussSeidelOp2.damping_factor := omega;
     DefaultFineGrainHybridGaussSeidelOp2.xstride := 3;
     DefaultFineGrainHybridGaussSeidelOp2.bstride := 3 |}.

(** The memory once the diagonal has been extracted. *)
Definition mem1 : Mem Qc :=
  sweep_total (ExtractDiagonalOp1.execute extract1) (range 0 3) mem0.

End Example3x3.


(** The Jacobi kernel of the system above with a zero damping factor and a
    [diag] pointer to cells that hold zero (those of [x0]). *)
Definition jacobi_zero_diag : DefaultJacobiOp1.t Qc :=
  {| DefaultJacobiOp1.offsets := Example3x3.offsets;
     DefaultJacobiOp1.inds := Example3x3.inds;
     DefaultJacobiOp1.vals := 0;
     DefaultJacobiOp1.diag := 30;
     DefaultJacobiOp1.numRows := 3;
     DefaultJacobiOp1.x := 40;
     DefaultJacobiOp1.x0 := 30;
     DefaultJacobiOp1.b := 20;
     DefaultJacobiOp1.damping_factor := Example3x3.qc 0 1;
     DefaultJacobiOp1.xstride := 3;
     DefaultJacobiOp1.bstride := 3 |}.

(** ** A lower-triangular system

    Rows [(0,2)], [(1,3),(0,1)] and [(2,4),(1,1),(0,2)], not sorted by
    column, with [diag = [2,3,4]] at address 10, [b = [2,7,9]] at 20 and an
    arbitrary [x] at 40.  Its solution is [x = [1, 2, 5/4]]. *)
Module ExampleLower.

Definition qc := Example3x3.qc.

Definition mem0 : Mem Qc :=
  mem_of [(0, [qc 2 1; qc 3 1; qc 1 1; qc 4 1; qc 1 1; qc 2 1]);
          (10, [qc 2 1; qc 3 1; qc 4 1]);
          (20, [qc 2 1; qc 7 1; qc 9 1]);
          (40, [qc 9 1; qc 8 1; qc 7 1])].

Definition offsets : nat -> nat := arr [0; 1; 3; 6].
Definition inds : nat -> nat := arr [0; 1; 0; 2; 1; 0].

Definition inds_beg : nat -> nat -> nat :=
  fun r => arr (nth r [[0]; [1; 0]; [2; 1; 0]] []).
Definition vals_beg : nat -> nat := arr [0; 1; 3].
Definition numEntries : nat -> nat := arr [1; 2; 3].

Definition gs1 : DefaultFineGrainHybridGaussSeidelOp1.t Qc :=
  {| DefaultFineGrainHybridGaussSeidelOp1.offsets := offsets;
     DefaultFineGrainHybridGaussSeidelOp1.inds := inds;
     DefaultFineGrainHybridGaussSeidelOp1.vals := 0;
     DefaultFineGrainHybridGaussSeidelOp1.diag := 10;
     DefaultFineGrainHybridGaussSeidelOp1.numRows := 3;
     DefaultFineGrainHybridGaussSeidelOp1.x := 40;
     DefaultFineGrainHybridGaussSeidelOp1.b := 20;
     DefaultFineGrainHybridGaussSeidelOp1.damping_factor := qc 1 1;
     DefaultFineGrainHybridGaussSeidelOp1.xstride := 3;
     DefaultFineGrainHybridGaussSeidelOp1.bstride := 3 |}.

Definition gs2 : DefaultFineGrainHybridGaussSeidelOp2.t Qc :=
  {| DefaultFineGrainHybridGaussSeidelOp2.inds_beg := inds_beg;
     DefaultFineGrainHybridGaussSeidelOp2.vals_beg := vals_beg;
     DefaultFineGrainHybridGaussSeidelOp2.numEntries := numEntries;
     DefaultFineGrainHybridGaussSeidelOp2.diag := 10;
     DefaultFineGrainHybridGaussSeidelOp2.numRows := 3;
     DefaultFineGrainHybridGaussSeidelOp2.x := 40;
     DefaultFineGrainHybridGaussSeidelOp2.b := 20;
     DefaultFineGrainHybridGaussSeidelOp2.damping_factor := qc 1 1;
     DefaultFineGrainHybridGaussSeidelOp2.xstride := 3;
     DefaultFineGrainHybridGaussSeidelOp2.bstride := 3 |}.

End ExampleLower.

(** ** Further concrete systems *)
Module ExampleMore.

Definition qc := Example3x3.qc.

(** The Jacobi kernel of the 3x3 system run in place: [x0] is [x]. *)
Definition jacobi_in_place : DefaultJacobiOp1.t Qc :=
  {| DefaultJacobiOp1.offsets := Example3x3.offsets;
     DefaultJacobiOp1.inds := Example3x3.inds;
     DefaultJacobiOp1.vals := 0;
     DefaultJacobiOp1.diag := 10;
     DefaultJacobiOp1.numRows := 3;
     DefaultJacobiOp1.x := 40;
     DefaultJacobiOp1.x0 := 40;
     DefaultJacobiOp1.b := 20;
     DefaultJacobiOp1.damping_factor := qc 1 2;
     DefaultJacobiOp1.xstride := 3;
     DefaultJacobiOp1.bstride := 3 |}.

(** The lower-triangular system with its solution [1, 2, 5/4] both in [x0],
    at address 30, and in [x], at address 40. *)
Definition lower_solved : Mem Qc :=
  mem_of [(0, [qc 2 1; qc 3 1; qc 1 1; qc 4 1; qc 1 1; qc 2 1]);
          (10, [qc 2 1; qc 3 1; qc 4 1]);
          (20, [qc 2 1; qc 7 1; qc 9 1]);
          (30, [qc 1 1; qc 2 1; qc 5 4]);
          (40, [qc 1 1; qc 2 1; qc 5 4])].

Definition lower_jacobi : DefaultJacobiOp1.t Qc :=
  {| DefaultJacobiOp1.offsets := ExampleLower.offsets;
     DefaultJacobiOp1.inds := ExampleLower.inds;
     DefaultJacobiOp1.vals := 0;
     DefaultJacobiOp1.diag := 10;
     DefaultJacobiOp1.numRows := 3;
     DefaultJacobiOp1.x := 40;
     DefaultJacobiOp1.x0 := 30;
     DefaultJacobiOp1.b := 20;
     DefaultJacobiOp1.damping_factor := qc 1 2;
     DefaultJacobiOp1.xstride := 3;
     DefaultJacobiOp1.bstride := 3 |}.

(** The lower-triangular system before its diagonal is extracted: the cells
    of [diag] hold arbitrary values. *)
Definition lower_raw : Mem Qc :=
  mem_of [(0, [qc 2 1; qc 3 1; qc 1 1; qc 4 1; qc 1 1; qc 2 1]);
          (10, [qc 7 1; qc 7 1; qc 7 1]);
          (20, [qc 2 1; qc 7 1; qc 9 1]);
          (40, [qc 9 1; qc 8 1; qc 7 1])].

(** An upper-triangular system: rows [(1,1),(0,2)] and [(1,4)], with
    [diag = [2,4]] at address 10, [b = [4,8]] at 20 and an arbitrary [x] at
    40.  Its solution is [x = [1,2]]. *)
Definition upper_mem : Mem Qc :=
  mem_of [(0, [qc 1 1; qc 2 1; qc 4 1]);
          (10, [qc 2 1; qc 4 1]);
          (20, [qc 4 1; qc 8 1]);
          (40, [qc 9 1; qc 8 1])].

Definition upper_gs : DefaultFineGrainHybridGaussSeidelOp1.t Qc :=
  {| DefaultFineGrainHybridGaussSeidelOp1.offsets := arr [0; 2; 3];
     DefaultFineGrainHybridGaussSeidelOp1.inds := arr [1; 0; 1];
     DefaultFineGrainHybridGaussSeidelOp1.vals := 0;
     DefaultFineGrainHybridGaussSeidelOp1.diag := 10;
     DefaultFineGrainHybridGaussSeidelOp1.numRows := 2;
     DefaultFineGrainHybridGaussSeidelOp1.x := 40;
     DefaultFineGrainHybridGaussSeidelOp1.b := 20;
     DefaultFineGrainHybridGaussSeidelOp1.damping_factor := qc 1 1;
     DefaultFineGrainHybridGaussSeidelOp1.xstride := 2;
     DefaultFineGrainHybridGaussSeidelOp1.bstride := 2 |}.

(** A diagonal system: rows [(0,2)] and [(1,4)], [diag = [2,4]] at address
    10, [b = [4,8]] at 20, [x0 = [7,7]] at 30. *)
Definition diagonal_mem : Mem Qc :=
  mem_of [(0, [qc 2 1; qc 4 1]);
          (10, [qc 2 1; qc 4 1]);
          (20, [qc 4 1; qc 8 1]);
          (30, [qc 7 1; qc 7 1])].

Definition diagonal_jacobi : DefaultJacobiOp2.t Qc :=
  {| DefaultJacobiOp2.inds_beg := fun r => arr (nth r [[0]; [1]] []);
     DefaultJacobiOp2.vals_beg := arr [0; 1];
     DefaultJacobiOp2.numEntries := arr [1; 1];
     DefaultJacobiOp2.diag := 10;
     DefaultJacobiOp2.numRows := 2;
     DefaultJacobiOp2.x := 40;
     DefaultJacobiOp2.x0 := 30;
     DefaultJacobiOp2.b := 20;
     DefaultJacobiOp2.damping_factor := qc 1 1;
     DefaultJacobiOp2.xstride := 2;
     DefaultJacobiOp2.bstride := 2 |}.

End ExampleMore.
Unset Implicit Arguments.

(** ** Properties of the rational scalars *)

Lemma Qc_is_zero_spec (q : Qc) : Qc_is_zero q = true <-> q = Q2Qc 0.
Proof.
  unfold Qc_is_zero. rewrite Qeq_bool_iff. split.
  - intros H. apply Qc_is_canon. exact H.
  - intros ->. reflexivity.
Qed.

#[export] Instance Qc_field : ScalarField Qc.
Proof.
  split.
  - exact Qcft.
  - exact Qc_is_zero_spec.
Qed.


Lemma Qc_list_this (l l' : list Qc) : map this l = map this l' -> l = l'.
Proof.
  revert l'. induction l as [|q l IH]; intros [|q' l'] H; try discriminate.
  - reflexivity.
  - simpl in H. injection H as Hq Hl. f_equal.
    + apply Qc_is_canon. rewrite Hq. reflexivity.
    + now apply IH.
Qed.

(** ** Properties of the kernels *)

Section Laws.
Context {Scalar : Type} {O : ScalarOps Scalar} {F : ScalarField Scalar}.
Local Abbreviation mem := (Mem Scalar).

Add Field scalar_fld : scalar_field.

(** *** Memory, quotients, index arithmetic *)

Lemma store_eq (m : mem) (a : nat) (v : Scalar) : store m a v a = v.
Proof. unfold store. now rewrite Nat.eqb_refl. Qed.

Lemma store_neq (m : mem) (a a' : nat) (v : Scalar) :
  a' <> a -> store m a v a' = m a'.
Proof.
  intros H. unfold store. apply Nat.eqb_neq in H. now rewrite H.
Qed.

Lemma quot_defined (a d : Scalar) : d <> szero -> quot a d = Some (a / d)%S.
Proof.
  intros H. unfold quot. destruct (sis_zero d) eqn:E; [|reflexivity].
  apply sis_zero_spec in E. contradiction.
Qed.

Lemma quot_undefined (a : Scalar) : quot a szero = None.
Proof.
  unfold quot. destruct (sis_zero szero) eqn:E; [reflexivity|].
  assert (H : sis_zero szero = true) by now apply sis_zero_spec.
  congruence.
Qed.

(** [rhs = (i - row) / numRows] is the quotient of [i] by [numRows]. *)
Lemma rhs_quotient (i n : nat) : n <> 0 -> (i - i mod n) / n = i / n.
Proof.
  intros Hn.
  pose proof (Nat.div_mod_eq i n) as E.
  replace (i - i mod n) with (i / n * n) by lia.
  now apply Nat.div_mul.
Qed.

Lemma in_range (lo hi c : nat) : In c (range lo hi) <-> lo <= c < hi.
Proof. unfold range. rewrite in_seq. lia. Qed.

(** *** Sums over rows *)

(** A loop that subtracts one term per position subtracts their sum. *)
Lemma fold_sub_ssum (g : nat -> Scalar) (l : list nat) (a : Scalar) :
  fold_left (fun tmp c => (tmp - g c)%S) l a = (a - ssum (map g l))%S.
Proof.
  revert a. induction l as [|c l IH]; intros a; simpl.
  - ring.
  - rewrite IH. ring.
Qed.

Lemma row_dot_map (f : nat -> nat) (v : nat -> Scalar) (l : list nat)
      (m : mem) (col : nat) :
  row_dot (map (fun c => (f c, v c)) l) m col
  = ssum (map (fun c => (v c * m (col + f c)%nat)%S) l).
Proof. unfold row_dot. now rewrite map_map. Qed.

Lemma row_dot_cons (e : nat * Scalar) (es : list (nat * Scalar)) (m : mem)
      (col : nat) :
  row_dot (e :: es) m col
  = (snd e * m (col + fst e)%nat + row_dot es m col)%S.
Proof. reflexivity. Qed.

(** A row sum only reads the cells of the columns the row has entries in. *)
Lemma row_dot_ext (es : list (nat * Scalar)) (m1 m2 : mem) (col1 col2 : nat) :
  (forall e, In e es -> m1 (col1 + fst e) = m2 (col2 + fst e)) ->
  row_dot es m1 col1 = row_dot es m2 col2.
Proof.
  induction es as [|e es IH]; intros H; [reflexivity|].
  rewrite !row_dot_cons. rewrite IH.
  - rewrite (H e) by now left. reflexivity.
  - intros e' He'. apply H. now right.
Qed.

(** A row sum is the sum over its diagonal entries plus the sum over the
    others. *)
Lemma row_dot_split (r : nat) (es : list (nat * Scalar)) (m : mem) (col : nat) :
  row_dot es m col
  = (row_dot (on_diagonal r es) m col + row_dot (off_diagonal r es) m col)%S.
Proof.
  induction es as [|e es IH].
  - unfold row_dot. simpl. ring.
  - unfold on_diagonal, off_diagonal in *. simpl.
    destruct (Nat.eqb (fst e) r); simpl; rewrite !row_dot_cons, IH; ring.
Qed.

(** *** One relaxation update *)

Lemma relax_defined (es : list (nat * Scalar)) (omega : Scalar) (m : mem)
      (bslot dslot col rslot wslot : nat) :
  m dslot <> szero ->
  relax es omega m bslot dslot col rslot wslot
  = Some (store m wslot
            (m rslot + omega * (m bslot - row_dot es m col) / m dslot)%S).
Proof.
  intros H. unfold relax. now rewrite quot_defined.
Qed.

Lemma relax_undefined (es : list (nat * Scalar)) (omega : Scalar) (m : mem)
      (bslot dslot col rslot wslot : nat) :
  m dslot = szero ->
  relax es omega m bslot dslot col rslot wslot = None.
Proof.
  intros H. unfold relax. rewrite H. now rewrite quot_undefined.
Qed.

Lemma relax_some (es : list (nat * Scalar)) (omega : Scalar) (m m' : mem)
      (bslot dslot col rslot wslot : nat) :
  relax es omega m bslot dslot col rslot wslot = Some m' ->
  m dslot <> szero
  /\ m' = store m wslot
            (m rslot + omega * (m bslot - row_dot es m col) / m dslot)%S.
Proof.
  intros H.
  assert (Hd : m dslot <> szero).
  { intros E. rewrite relax_undefined in H by assumption. discriminate. }
  split; [assumption|].
  rewrite relax_defined in H by assumption. now injection H as <-.
Qed.

(** *** The four sweeps are the relaxation update on their row *)

Ltac kernel_is_relax :=
  match goal with
  | Hn : ?n <> 0 |- _ =>
      destruct (Nat.eqb_spec n 0) as [?|_]; [contradiction|];
      rewrite rhs_quotient by assumption;
      rewrite fold_sub_ssum;
      unfold relax; rewrite row_dot_map; reflexivity
  end.

Lemma jacobi1_relax (k : DefaultJacobiOp1.t Scalar) (m : mem) (i : nat) :
  DefaultJacobiOp1.numRows k <> 0 ->
  DefaultJacobiOp1.execute k m i
  = relax (DefaultJacobiOp1.row_entries k m (DefaultJacobiOp1.row_of k i))
          (DefaultJacobiOp1.damping_factor k) m
          (DefaultJacobiOp1.b_slot k i) (DefaultJacobiOp1.diag_slot k i)
          (DefaultJacobiOp1.x0_column k i)
          (DefaultJacobiOp1.x0_column k i + DefaultJacobiOp1.row_of k i)
          (DefaultJacobiOp1.x_slot k i).
Proof.
  intros Hn.
  unfold DefaultJacobiOp1.execute, DefaultJacobiOp1.row_entries,
    DefaultJacobiOp1.b_slot, DefaultJacobiOp1.diag_slot,
    DefaultJacobiOp1.x0_column, DefaultJacobiOp1.x_slot,
    DefaultJacobiOp1.row_of, DefaultJacobiOp1.rhs_of.
  kernel_is_relax.
Qed.

Lemma jacobi2_relax (k : DefaultJacobiOp2.t Scalar) (m : mem) (i : nat) :
  DefaultJacobiOp2.numRows k <> 0 ->
  DefaultJacobiOp2.execute k m i
  = relax (DefaultJacobiOp2.row_entries k m (DefaultJacobiOp2.row_of k i))
          (DefaultJacobiOp2.damping_factor k) m
          (DefaultJacobiOp2.b_slot k i) (DefaultJacobiOp2.diag_slot k i)
          (DefaultJacobiOp2.x0_column k i)
          (DefaultJacobiOp2.x0_column k i + DefaultJacobiOp2.row_of k i)
          (DefaultJacobiOp2.x_slot k i).
Proof.
  intros Hn.
  unfold DefaultJacobiOp2.execute, DefaultJacobiOp2.row_entries,
    DefaultJacobiOp2.b_slot, DefaultJacobiOp2.diag_slot,
    DefaultJacobiOp2.x0_column, DefaultJacobiOp2.x_slot,
    DefaultJacobiOp2.row_of, DefaultJacobiOp2.rhs_of.
  kernel_is_relax.
Qed.

Lemma gs1_relax (k : DefaultFineGrainHybridGaussSeidelOp1.t Scalar)
      (m : mem) (i : nat) :
  DefaultFineGrainHybridGaussSeidelOp1.numRows k <> 0 ->
  DefaultFineGrainHybridGaussSeidelOp1.execute k m i
  = relax (DefaultFineGrainHybridGaussSeidelOp1.row_entries k m
             (DefaultFineGrainHybridGaussSeidelOp1.row_of k i))
          (DefaultFineGrainHybridGaussSeidelOp1.damping_factor k) m
          (DefaultFineGrainHybridGaussSeidelOp1.b_slot k i)
          (DefaultFineGrainHybridGaussSeidelOp1.diag_slot k i)
          (DefaultFineGrainHybridGaussSeidelOp1.x_column k i)
          (DefaultFineGrainHybridGaussSeidelOp1.x_slot k i)
          (DefaultFineGrainHybridGaussSeidelOp1.x_slot k i).
Proof.
  intros Hn.
  unfold DefaultFineGrainHybridGaussSeidelOp1.execute,
    DefaultFineGrainHybridGaussSeidelOp1.row_entries,
    DefaultFineGrainHybridGaussSeidelOp1.b_slot,
    DefaultFineGrainHybridGaussSeidelOp1.diag_slot,
    DefaultFineGrainHybridGaussSeidelOp1.x_slot,
    DefaultFineGrainHybridGaussSeidelOp1.x_column,
    DefaultFineGrainHybridGaussSeidelOp1.row_of,
    DefaultFineGrainHybridGaussSeidelOp1.rhs_of.
  kernel_is_relax.
Qed.

Lemma gs2_relax (k : DefaultFineGrainHybridGaussSeidelOp2.t Scalar)
      (m : mem) (i : nat) :
  DefaultFineGrainHybridGaussSeidelOp2.numRows k <> 0 ->
  DefaultFineGrainHybridGaussSeidelOp2.execute k m i
  = relax (DefaultFineGrainHybridGaussSeidelOp2.row_entries k m
             (DefaultFineGrainHybridGaussSeidelOp2.row_of k i))
          (DefaultFineGrainHybridGaussSeidelOp2.damping_factor k) m
          (DefaultFineGrainHybridGaussSeidelOp2.b_slot k i)
          (DefaultFineGrainHybridGaussSeidelOp2.diag_slot k i)
          (DefaultFineGrainHybridGaussSeidelOp2.x_column k i)
          (DefaultFineGrainHybridGaussSeidelOp2.x_slot k i)
          (DefaultFineGrainHybridGaussSeidelOp2.x_slot k i).
Proof.
  intros Hn.
  unfold DefaultFineGrainHybridGaussSeidelOp2.execute,
    DefaultFineGrainHybridGaussSeidelOp2.row_entries,
    DefaultFineGrainHybridGaussSeidelOp2.b_slot,
    DefaultFineGrainHybridGaussSeidelOp2.diag_slot,
    DefaultFineGrainHybridGaussSeidelOp2.x_slot,
    DefaultFineGrainHybridGaussSeidelOp2.x_column,
    DefaultFineGrainHybridGaussSeidelOp2.row_of,
    DefaultFineGrainHybridGaussSeidelOp2.rhs_of.
  kernel_is_relax.
Qed.

(** C1, as amended. For a matrix in either storage, a flat index [i] with row
    [r] and right-hand side [rhs], and a diagonal with [diag[r] <> 0], one
    Gauss-Seidel update computes [tmp] as [b[r,rhs]] minus the sum of
    [v * x[c,rhs]] over all entries [(c, v)] of row [r], the diagonal entry
    included, and then performs [x[r,rhs] += omega * tmp / diag[r]]. *)
Theorem gauss_seidel_update (m : mem) (i : nat) :
  (forall k : DefaultFineGrainHybridGaussSeidelOp1.t Scalar,
      DefaultFineGrainHybridGaussSeidelOp1.numRows k <> 0 ->
      m (DefaultFineGrainHybridGaussSeidelOp1.diag_slot k i) <> szero ->
      DefaultFineGrainHybridGaussSeidelOp1.execute k m i
      = Some (store m (DefaultFineGrainHybridGaussSeidelOp1.x_slot k i)
                (DefaultFineGrainHybridGaussSeidelOp1.update_value k m i)))
  /\ (forall k : DefaultFineGrainHybridGaussSeidelOp2.t Scalar,
      DefaultFineGrainHybridGaussSeidelOp2.numRows k <> 0 ->
      m (DefaultFineGrainHybridGaussSeidelOp2.diag_slot k i) <> szero ->
      DefaultFineGrainHybridGaussSeidelOp2.execute k m i
      = Some (store m (DefaultFineGrainHybridGaussSeidelOp2.x_slot k i)
                (DefaultFineGrainHybridGaussSeidelOp2.update_value k m i))).
Proof.
  split; intros k Hn Hd.
  - rewrite gs1_relax by assumption. now rewrite relax_defined.
  - rewrite gs2_relax by assumption. now rewrite relax_defined.
Qed.

(** C2. For a matrix in either storage, a flat index [i] with row
    [r = i mod numRows] and right-hand side [rhs = i / numRows], and a
    diagonal with [diag[r] <> 0], one Jacobi update stores into [x[r,rhs]]
    the value [x0[r,rhs] + omega * tmp / diag[r]], where [tmp] is [b[r,rhs]]
    minus the sum of [v * x0[c,rhs]] over all entries [(c, v)] of row [r],
    the diagonal entry included; the iterate is read in [x0] only. *)
Theorem jacobi_update (m : mem) (i : nat) :
  (forall k : DefaultJacobiOp1.t Scalar,
      DefaultJacobiOp1.numRows k <> 0 ->
      m (DefaultJacobiOp1.diag_slot k i) <> szero ->
      DefaultJacobiOp1.execute k m i
      = Some (store m (DefaultJacobiOp1.x_slot k i)
                (DefaultJacobiOp1.update_value k m i)))
  /\ (forall k : DefaultJacobiOp2.t Scalar,
      DefaultJacobiOp2.numRows k <> 0 ->
      m (DefaultJacobiOp2.diag_slot k i) <> szero ->
      DefaultJacobiOp2.execute k m i
      = Some (store m (DefaultJacobiOp2.x_slot k i)
                (DefaultJacobiOp2.update_value k m i))).
Proof.
  split; intros k Hn Hd.
  - rewrite jacobi1_relax by assumption. now rewrite relax_defined.
  - rewrite jacobi2_relax by assumption. now rewrite relax_defined.
Qed.

(** *** The diagonal extractors *)

(** A list with an element on which [p] holds splits at the first one. *)
Lemma split_at_first (p : nat -> bool) (cs : list nat) :
  (exists c, In c cs /\ p c = true) ->
  exists before c after,
    cs = before ++ c :: after
    /\ p c = true
    /\ (forall c', In c' before -> p c' = false).
Proof.
  induction cs as [|c0 cs IH]; intros [c [Hin Hp]]; [contradiction|].
  destruct (p c0) eqn:E.
  - exists [], c0, cs. repeat split; [assumption | intros c' []].
  - destruct IH as (before & c1 & after & -> & Hp1 & Hb).
    + exists c. split; [|assumption].
      destruct Hin as [->|Hin]; [congruence | assumption].
    + exists (c0 :: before), c1, after. repeat split; [assumption|].
      intros c' [<-|Hc']; [assumption | now apply Hb].
Qed.

Lemma first_diagonal_split (r : nat) (e : nat -> nat * Scalar)
      (before after : list nat) (c : nat) :
  (forall c', In c' before -> Nat.eqb (fst (e c')) r = false) ->
  Nat.eqb (fst (e c)) r = true ->
  first_diagonal r (map e (before ++ c :: after)) = Some (snd (e c)).
Proof.
  intros Hb Hc. unfold first_diagonal, on_diagonal.
  induction before as [|c0 before IH]; simpl.
  - now rewrite Hc.
  - rewrite (Hb c0) by now left. apply IH.
    intros c' Hc'. apply Hb. now right.
Qed.

Lemma first_diagonal_none (r : nat) (es : list (nat * Scalar)) :
  ~ In r (map fst es) -> first_diagonal r es = None.
Proof.
  intros H. unfold first_diagonal, on_diagonal.
  induction es as [|e es IH]; [reflexivity|]. simpl.
  destruct (Nat.eqb_spec (fst e) r) as [E|_].
  - exfalso. apply H. now left.
  - apply IH. intros Hin. apply H. now right.
Qed.

Lemma extract1_scan_match (k : ExtractDiagonalOp1.t) (row : nat) (m : mem)
      (before after : list nat) (c : nat) :
  (forall c', In c' before -> ExtractDiagonalOp1.inds k c' <> row) ->
  ExtractDiagonalOp1.inds k c = row ->
  ExtractDiagonalOp1.scan k row (before ++ c :: after) m
  = (before ++ [c],
     store m (ExtractDiagonalOp1.diag k + row)
           (m (ExtractDiagonalOp1.vals k + c))).
Proof.
  intros Hb Hc. induction before as [|c0 before IH]; simpl.
  - rewrite Hc, Nat.eqb_refl. reflexivity.
  - destruct (Nat.eqb_spec row (ExtractDiagonalOp1.inds k c0)) as [E|_].
    + exfalso. apply (Hb c0); [now left | now symmetry].
    + rewrite IH; [reflexivity|]. intros c' Hc'. apply Hb. now right.
Qed.

Lemma extract1_scan_no_match (k : ExtractDiagonalOp1.t) (row : nat) (m : mem)
      (cs : list nat) :
  (forall c, In c cs -> ExtractDiagonalOp1.inds k c <> row) ->
  ExtractDiagonalOp1.scan k row cs m = (cs, m).
Proof.
  intros H. induction cs as [|c cs IH]; simpl; [reflexivity|].
  destruct (Nat.eqb_spec row (ExtractDiagonalOp1.inds k c)) as [E|_].
  - exfalso. apply (H c); [now left | now symmetry].
  - rewrite IH; [reflexivity|]. intros c' Hc'. apply H. now right.
Qed.

Lemma extract2_scan_match (k : ExtractDiagonalOp2.t) (row : nat) (m : mem)
      (before after : list nat) (j : nat) :
  (forall j', In j' before -> ExtractDiagonalOp2.inds_beg k row j' <> row) ->
  ExtractDiagonalOp2.inds_beg k row j = row ->
  ExtractDiagonalOp2.scan k row (before ++ j :: after) m
  = (before ++ [j],
     store m (ExtractDiagonalOp2.diag k + row)
           (m (ExtractDiagonalOp2.vals_beg k row + j))).
Proof.
  intros Hb Hc. induction before as [|c0 before IH]; simpl.
  - rewrite Hc, Nat.eqb_refl. reflexivity.
  - destruct (Nat.eqb_spec row (ExtractDiagonalOp2.inds_beg k row c0)) as [E|_].
    + exfalso. apply (Hb c0); [now left | now symmetry].
    + rewrite IH; [reflexivity|]. intros c' Hc'. apply Hb. now right.
Qed.

Lemma extract2_scan_no_match (k : ExtractDiagonalOp2.t) (row : nat) (m : mem)
      (js : list nat) :
  (forall j, In j js -> ExtractDiagonalOp2.inds_beg k row j <> row) ->
  ExtractDiagonalOp2.scan k row js m = (js, m).
Proof.
  intros H. induction js as [|c cs IH]; simpl; [reflexivity|].
  destruct (Nat.eqb_spec row (ExtractDiagonalOp2.inds_beg k row c)) as [E|_].
  - exfalso. apply (H c); [now left | now symmetry].
  - rewrite IH; [reflexivity|]. intros c' Hc'. apply H. now right.
Qed.

Lemma extract1_row_match (k : ExtractDiagonalOp1.t) (m : mem) (r : nat) :
  In r (map fst (ExtractDiagonalOp1.row_entries k m r)) ->
  exists before c after,
    range (ExtractDiagonalOp1.offsets k r)
          (ExtractDiagonalOp1.offsets k (r + 1))
    = before ++ c :: after
    /\ (forall c', In c' before -> ExtractDiagonalOp1.inds k c' <> r)
    /\ ExtractDiagonalOp1.inds k c = r
    /\ first_diagonal r (ExtractDiagonalOp1.row_entries k m r)
       = Some (m (ExtractDiagonalOp1.vals k + c))
    /\ ExtractDiagonalOp1.execute_log k m r
       = (before ++ [c],
          store m (ExtractDiagonalOp1.diag k + r)
                (m (ExtractDiagonalOp1.vals k + c))).
Proof.
  unfold ExtractDiagonalOp1.row_entries, ExtractDiagonalOp1.execute_log.
  rewrite map_map. simpl. intros Hin. apply in_map_iff in Hin.
  destruct Hin as (c0 & Hc0 & Hin).
  destruct (split_at_first (fun c => Nat.eqb (ExtractDiagonalOp1.inds k c) r)
              (range (ExtractDiagonalOp1.offsets k r)
                     (ExtractDiagonalOp1.offsets k (r + 1))))
    as (before & c & after & E & Hc & Hb).
  { exists c0. split; [assumption|]. now apply Nat.eqb_eq. }
  apply Nat.eqb_eq in Hc.
  assert (Hb' : forall c', In c' before -> ExtractDiagonalOp1.inds k c' <> r).
  { intros c' Hc'. apply Nat.eqb_neq. now apply Hb. }
  exists before, c, after. rewrite E. repeat split; try assumption.
  - apply (first_diagonal_split r
             (fun c => (ExtractDiagonalOp1.inds k c,
                        m (ExtractDiagonalOp1.vals k + c)))).
    + assumption.
    + simpl. now apply Nat.eqb_eq.
  - now apply extract1_scan_match.
Qed.

Lemma extract1_row_no_match (k : ExtractDiagonalOp1.t) (m : mem) (r : nat) :
  ~ In r (map fst (ExtractDiagonalOp1.row_entries k m r)) ->
  ExtractDiagonalOp1.execute_log k m r
  = (range (ExtractDiagonalOp1.offsets k r)
           (ExtractDiagonalOp1.offsets k (r + 1)), m).
Proof.
  unfold ExtractDiagonalOp1.row_entries, ExtractDiagonalOp1.execute_log.
  rewrite map_map. simpl. intros Hin.
  apply extract1_scan_no_match. intros c Hc E. apply Hin.
  apply in_map_iff. now exists c.
Qed.

Lemma extract2_row_match (k : ExtractDiagonalOp2.t) (m : mem) (r : nat) :
  In r (map fst (ExtractDiagonalOp2.row_entries k m r)) ->
  exists before j after,
    range 0 (ExtractDiagonalOp2.numEntries k r) = before ++ j :: after
    /\ (forall j', In j' before -> ExtractDiagonalOp2.inds_beg k r j' <> r)
    /\ ExtractDiagonalOp2.inds_beg k r j = r
    /\ first_diagonal r (ExtractDiagonalOp2.row_entries k m r)
       = Some (m (ExtractDiagonalOp2.vals_beg k r + j))
    /\ ExtractDiagonalOp2.execute_log k m r
       = (before ++ [j],
          store m (ExtractDiagonalOp2.diag k + r)
                (m (ExtractDiagonalOp2.vals_beg k r + j))).
Proof.
  unfold ExtractDiagonalOp2.row_entries, ExtractDiagonalOp2.execute_log.
  rewrite map_map. simpl. intros Hin. apply in_map_iff in Hin.
  destruct Hin as (c0 & Hc0 & Hin).
  destruct (split_at_first
              (fun j => Nat.eqb (ExtractDiagonalOp2.inds_beg k r j) r)
              (range 0 (ExtractDiagonalOp2.numEntries k r)))
    as (before & c & after & E & Hc & Hb).
  { exists c0. split; [assumption|]. now apply Nat.eqb_eq. }
  apply Nat.eqb_eq in Hc.
  assert (Hb' : forall j', In j' before ->
                           ExtractDiagonalOp2.inds_beg k r j' <> r).
  { intros c' Hc'. apply Nat.eqb_neq. now apply Hb. }
  exists before, c, after. rewrite E. repeat split; try assumption.
  - apply (first_diagonal_split r
             (fun j => (ExtractDiagonalOp2.inds_beg k r j,
                        m (ExtractDiagonalOp2.vals_beg k r + j)))).
    + assumption.
    + simpl. now apply Nat.eqb_eq.
  - now apply extract2_scan_match.
Qed.

Lemma extract2_row_no_match (k : ExtractDiagonalOp2.t) (m : mem) (r : nat) :
  ~ In r (map fst (ExtractDiagonalOp2.row_entries k m r)) ->
  ExtractDiagonalOp2.execute_log k m r
  = (range 0 (ExtractDiagonalOp2.numEntries k r), m).
Proof.
  unfold ExtractDiagonalOp2.row_entries, ExtractDiagonalOp2.execute_log.
  rewrite map_map. simpl. intros Hin.
  apply extract2_scan_no_match. intros c Hc E. apply Hin.
  apply in_map_iff. now exists c.
Qed.

(** The extractor of either storage, by the row it is run on. *)
Lemma extract1_execute (k : ExtractDiagonalOp1.t) (m : mem) (r : nat) :
  ExtractDiagonalOp1.execute k m r
  = match first_diagonal r (ExtractDiagonalOp1.row_entries k m r) with
    | Some v => store m (ExtractDiagonalOp1.diag k + r) v
    | None => m
    end.
Proof.
  unfold ExtractDiagonalOp1.execute.
  destruct (in_dec Nat.eq_dec r
              (map fst (ExtractDiagonalOp1.row_entries k m r))) as [H|H].
  - destruct (extract1_row_match k m r H) as (? & ? & ? & _ & _ & _ & -> & ->).
    reflexivity.
  - rewrite extract1_row_no_match, first_diagonal_none by assumption.
    reflexivity.
Qed.

Lemma extract2_execute (k : ExtractDiagonalOp2.t) (m : mem) (r : nat) :
  ExtractDiagonalOp2.execute k m r
  = match first_diagonal r (ExtractDiagonalOp2.row_entries k m r) with
    | Some v => store m (ExtractDiagonalOp2.diag k + r) v
    | None => m
    end.
Proof.
  unfold ExtractDiagonalOp2.execute.
  destruct (in_dec Nat.eq_dec r
              (map fst (ExtractDiagonalOp2.row_entries k m r))) as [H|H].
  - destruct (extract2_row_match k m r H) as (? & ? & ? & _ & _ & _ & -> & ->).
    reflexivity.
  - rewrite extract2_row_no_match, first_diagonal_none by assumption.
    reflexivity.
Qed.

(** C3. For a row [r] of a matrix in either storage: if the row has an entry
    whose column index is [r], the extractor stores the value of the first
    such entry, in storage order, into [diag[r]], and inspects the entries up
    to and including that one and none after it; if the row has no such entry
    (an empty row included), the memory, and so [diag[r]], is left as it
    was. *)
Theorem extract_diagonal_row (m : mem) (r : nat) :
  (forall k : ExtractDiagonalOp1.t,
      (In r (map fst (ExtractDiagonalOp1.row_entries k m r)) ->
       exists before c after,
         range (ExtractDiagonalOp1.offsets k r)
               (ExtractDiagonalOp1.offsets k (r + 1))
         = before ++ c :: after
         /\ (forall c', In c' before -> ExtractDiagonalOp1.inds k c' <> r)
         /\ ExtractDiagonalOp1.inds k c = r
         /\ first_diagonal r (ExtractDiagonalOp1.row_entries k m r)
            = Some (m (ExtractDiagonalOp1.vals k + c))
         /\ fst (ExtractDiagonalOp1.execute_log k m r) = before ++ [c]
         /\ ExtractDiagonalOp1.execute k m r
            = store m (ExtractDiagonalOp1.diag k + r)
                    (m (ExtractDiagonalOp1.vals k + c)))
      /\ (~ In r (map fst (ExtractDiagonalOp1.row_entries k m r)) ->
          ExtractDiagonalOp1.execute k m r = m))
  /\ (forall k : ExtractDiagonalOp2.t,
      (In r (map fst (ExtractDiagonalOp2.row_entries k m r)) ->
       exists before j after,
         range 0 (ExtractDiagonalOp2.numEntries k r) = before ++ j :: after
         /\ (forall j', In j' before ->
                        ExtractDiagonalOp2.inds_beg k r j' <> r)
         /\ ExtractDiagonalOp2.inds_beg k r j = r
         /\ first_diagonal r (ExtractDiagonalOp2.row_entries k m r)
            = Some (m (ExtractDiagonalOp2.vals_beg k r + j))
         /\ fst (ExtractDiagonalOp2.execute_log k m r) = before ++ [j]
         /\ ExtractDiagonalOp2.execute k m r
            = store m (ExtractDiagonalOp2.diag k + r)
                    (m (ExtractDiagonalOp2.vals_beg k r + j)))
      /\ (~ In r (map fst (ExtractDiagonalOp2.row_entries k m r)) ->
          ExtractDiagonalOp2.execute k m r = m)).
Proof.
  split; intros k; split; intros H.
  - destruct (extract1_row_match k m r H)
      as (before & c & after & E & Hb & Hc & Hv & Hx).
    exists before, c, after. unfold ExtractDiagonalOp1.execute.
    rewrite Hx. now repeat split.
  - unfold ExtractDiagonalOp1.execute.
    now rewrite extract1_row_no_match.
  - destruct (extract2_row_match k m r H)
      as (before & c & after & E & Hb & Hc & Hv & Hx).
    exists before, c, after. unfold ExtractDiagonalOp2.execute.
    rewrite Hx. now repeat split.
  - unfold ExtractDiagonalOp2.execute.
    now rewrite extract2_row_no_match.
Qed.

(** *** Sweeps *)

Lemma sweep_app (f : mem -> nat -> option mem) (l1 l2 : list nat) (m : mem) :
  sweep f (l1 ++ l2) m = (m' <- sweep f l1 m ;; sweep f l2 m').
Proof.
  revert m. induction l1 as [|i l1 IH]; intros m; simpl; [reflexivity|].
  destruct (f m i) as [m1|]; simpl; [apply IH | reflexivity].
Qed.

Lemma sweep_ext (f g : mem -> nat -> option mem) (l : list nat) (m : mem) :
  (forall m' i, In i l -> f m' i = g m' i) -> sweep f l m = sweep g l m.
Proof.
  revert m. induction l as [|i l IH]; intros m H; simpl; [reflexivity|].
  rewrite (H m i) by now left.
  destruct (g m i) as [m1|]; simpl; [|reflexivity].
  apply IH. intros m' i' Hi'. apply H. now right.
Qed.

Lemma sweep_map (f : mem -> nat -> option mem) (h : nat -> nat)
      (l : list nat) (m : mem) :
  sweep f (map h l) m = sweep (fun m' i => f m' (h i)) l m.
Proof.
  revert m. induction l as [|i l IH]; intros m; simpl; [reflexivity|].
  destruct (f m (h i)) as [m1|]; simpl; [apply IH | reflexivity].
Qed.

Lemma sweep_columns_snoc (f : nat -> mem -> nat -> option mem)
      (idx cols : list nat) (j : nat) (m : mem) :
  sweep_columns f idx (cols ++ [j]) m
  = (m' <- sweep_columns f idx cols m ;; sweep (f j) idx m').
Proof.
  revert m. induction cols as [|j0 cols IH]; intros m; simpl.
  - destruct (sweep (f j) idx m); reflexivity.
  - destruct (sweep (f j0) idx m) as [m1|]; simpl; [apply IH | reflexivity].
Qed.

Lemma seq_offset (a n : nat) : seq a n = map (fun r => a + r) (seq 0 n).
Proof.
  revert a. induction n as [|n IH]; intros a; simpl; [reflexivity|].
  rewrite Nat.add_0_r. f_equal.
  rewrite (IH (S a)), (IH 1), map_map.
  apply map_ext. intros r. lia.
Qed.

(** The flat range of [S j] columns of [n] rows is that of [j] columns
    followed by the rows of column [j]. *)
Lemma range_columns (n j : nat) :
  range 0 (n * S j) = range 0 (n * j) ++ map (fun r => j * n + r) (range 0 n).
Proof.
  unfold range. rewrite !Nat.sub_0_r.
  replace (n * S j) with (n * j + n) by lia.
  rewrite seq_app. simpl. f_equal.
  rewrite (seq_offset (n * j)). apply map_ext. intros r. lia.
Qed.

Lemma range_snoc (j : nat) : range 0 (S j) = range 0 j ++ [j].
Proof. unfold range. rewrite !Nat.sub_0_r. apply seq_S. Qed.

Lemma flat_index_row (n j r : nat) : r < n -> (j * n + r) mod n = r.
Proof.
  intros H. rewrite Nat.add_comm, Nat.Div0.mod_add. now apply Nat.mod_small.
Qed.

Lemma flat_index_rhs (n j r : nat) : r < n -> (j * n + r) / n = j.
Proof.
  intros H. rewrite Nat.add_comm, Nat.div_add by lia.
  rewrite Nat.div_small by assumption. reflexivity.
Qed.

(** The update of flat index [j * numRows + r] is the update of row [r] by
    the kernel of column [j]. *)
Lemma jacobi1_column (k : DefaultJacobiOp1.t Scalar) (m : mem) (j r : nat) :
  r < DefaultJacobiOp1.numRows k ->
  DefaultJacobiOp1.execute k m (j * DefaultJacobiOp1.numRows k + r)
  = DefaultJacobiOp1.execute (DefaultJacobiOp1.single_rhs k j) m r.
Proof.
  intros Hr. unfold DefaultJacobiOp1.execute. simpl.
  destruct (Nat.eqb_spec (DefaultJacobiOp1.numRows k) 0) as [E|Hn];
    [reflexivity|].
  rewrite !rhs_quotient by assumption.
  rewrite flat_index_row, flat_index_rhs by assumption.
  rewrite (Nat.mod_small r), (Nat.div_small r) by assumption.
  rewrite !Nat.add_0_r. reflexivity.
Qed.

Lemma jacobi2_column (k : DefaultJacobiOp2.t Scalar) (m : mem) (j r : nat) :
  r < DefaultJacobiOp2.numRows k ->
  DefaultJacobiOp2.execute k m (j * DefaultJacobiOp2.numRows k + r)
  = DefaultJacobiOp2.execute (DefaultJacobiOp2.single_rhs k j) m r.
Proof.
  intros Hr. unfold DefaultJacobiOp2.execute. simpl.
  destruct (Nat.eqb_spec (DefaultJacobiOp2.numRows k) 0) as [E|Hn];
    [reflexivity|].
  rewrite !rhs_quotient by assumption.
  rewrite flat_index_row, flat_index_rhs by assumption.
  rewrite (Nat.mod_small r), (Nat.div_small r) by assumption.
  rewrite !Nat.add_0_r. reflexivity.
Qed.

(** A sweep over the flat range is the sweeps of its columns in turn, for any
    kernel whose update of [j * n + r] is the update of [r] by its column
    kernel. *)
Lemma sweep_by_columns (f : mem -> nat -> option mem)
      (g : nat -> mem -> nat -> option mem) (n : nat) :
  (forall m j r, r < n -> f m (j * n + r) = g j m r) ->
  forall numRHS m,
    sweep f (range 0 (n * numRHS)) m
    = sweep_columns g (range 0 n) (range 0 numRHS) m.
Proof.
  intros H numRHS. induction numRHS as [|j IH]; intros m.
  - rewrite Nat.mul_0_r. reflexivity.
  - rewrite range_columns, sweep_app, IH.
    rewrite (range_snoc j), sweep_columns_snoc.
    destruct (sweep_columns g (range 0 n) (range 0 j) m) as [m1|]; simpl;
      [|reflexivity].
    rewrite sweep_map. apply sweep_ext.
    intros m' r Hr. apply H. apply in_range in Hr. lia.
Qed.

(** C8. For either storage, one Jacobi sweep over the flat range
    [0 <= i < numRows * numRHS] is the [numRHS] sweeps over [0 <= r < numRows]
    of the single-right-hand-side kernels whose [x], [x0] and [b] start at
    column [j], for [j = 0, ..., numRHS - 1]: both leave the same memory, or
    neither has a result. *)
Theorem jacobi_multivector (m : mem) (numRHS : nat) :
  (forall k : DefaultJacobiOp1.t Scalar,
      sweep (DefaultJacobiOp1.execute k)
            (range 0 (DefaultJacobiOp1.numRows k * numRHS)) m
      = sweep_columns
          (fun j => DefaultJacobiOp1.execute (DefaultJacobiOp1.single_rhs k j))
          (range 0 (DefaultJacobiOp1.numRows k)) (range 0 numRHS) m)
  /\ (forall k : DefaultJacobiOp2.t Scalar,
      sweep (DefaultJacobiOp2.execute k)
            (range 0 (DefaultJacobiOp2.numRows k * numRHS)) m
      = sweep_columns
          (fun j => DefaultJacobiOp2.execute (DefaultJacobiOp2.single_rhs k j))
          (range 0 (DefaultJacobiOp2.numRows k)) (range 0 numRHS) m).
Proof.
  split; intros k; apply sweep_by_columns; intros m' j r Hr.
  - now apply jacobi1_column.
  - now apply jacobi2_column.
Qed.

(** *** What one update writes *)

Lemma relax_frame (es : list (nat * Scalar)) (omega : Scalar) (m m' : mem)
      (bslot dslot col rslot wslot : nat) :
  relax es omega m bslot dslot col rslot wslot = Some m' ->
  forall a, a <> wslot -> m' a = m a.
Proof.
  intros H a Ha. apply relax_some in H. destruct H as [_ ->].
  now apply store_neq.
Qed.

Lemma extract1_frame (k : ExtractDiagonalOp1.t) (m : mem) (r a : nat) :
  a <> ExtractDiagonalOp1.diag k + r ->
  ExtractDiagonalOp1.execute k m r a = m a.
Proof.
  intros Ha. rewrite extract1_execute.
  destruct (first_diagonal r (ExtractDiagonalOp1.row_entries k m r));
    [now apply store_neq | reflexivity].
Qed.

Lemma extract2_frame (k : ExtractDiagonalOp2.t) (m : mem) (r a : nat) :
  a <> ExtractDiagonalOp2.diag k + r ->
  ExtractDiagonalOp2.execute k m r a = m a.
Proof.
  intros Ha. rewrite extract2_execute.
  destruct (first_diagonal r (ExtractDiagonalOp2.row_entries k m r));
    [now apply store_neq | reflexivity].
Qed.

(** Distinct flat indices differ in their row or in their right-hand side. *)
Lemma flat_index_inj (n i j : nat) :
  n <> 0 -> i mod n = j mod n -> i / n = j / n -> i = j.
Proof.
  intros Hn Hm Hd.
  rewrite (Nat.div_mod_eq i n), (Nat.div_mod_eq j n). congruence.
Qed.

(** With columns at least [numRows] apart, they also differ in their cell. *)
Lemma slot_inj (n s i j : nat) :
  n <> 0 -> n <= s ->
  i / n * s + i mod n = j / n * s + j mod n -> i = j.
Proof.
  intros Hn Hs E.
  assert (Hi : i mod n < n) by now apply Nat.mod_upper_bound.
  assert (Hj : j mod n < n) by now apply Nat.mod_upper_bound.
  assert (Hq : i / n = j / n) by nia.
  apply (flat_index_inj n); [assumption | | assumption].
  rewrite Hq in E. lia.
Qed.

(** C9. One Jacobi update of flat index [i], in either storage, changes no
    cell of the memory but [x] at offset
    [(i / numRows) * xstride + i mod numRows]: the cells of [x0], [b], [diag]
    and of the matrix values and every other cell of [x] keep their contents
    (the index arrays of the matrix are not in the writable memory at all).
    One call of a diagonal extractor on row [r] changes no cell but
    [diag[r]].  Distinct flat indices address distinct (row, right-hand side)
    pairs, and distinct cells of [x] when the columns of [x] are at least
    [numRows] apart. *)
Theorem update_writes_one_slot (m : mem) (i : nat) :
  (forall (k : DefaultJacobiOp1.t Scalar) (m' : mem),
      DefaultJacobiOp1.execute k m i = Some m' ->
      (exists v,
          m' = store m
                 (DefaultJacobiOp1.x k
                  + i / DefaultJacobiOp1.numRows k * DefaultJacobiOp1.xstride k
                  + i mod DefaultJacobiOp1.numRows k) v)
      /\ (forall a,
             a <> DefaultJacobiOp1.x k
                  + i / DefaultJacobiOp1.numRows k * DefaultJacobiOp1.xstride k
                  + i mod DefaultJacobiOp1.numRows k ->
             m' a = m a))
  /\ (forall (k : DefaultJacobiOp2.t Scalar) (m' : mem),
      DefaultJacobiOp2.execute k m i = Some m' ->
      (exists v,
          m' = store m
                 (DefaultJacobiOp2.x k
                  + i / DefaultJacobiOp2.numRows k * DefaultJacobiOp2.xstride k
                  + i mod DefaultJacobiOp2.numRows k) v)
      /\ (forall a,
             a <> DefaultJacobiOp2.x k
                  + i / DefaultJacobiOp2.numRows k * DefaultJacobiOp2.xstride k
                  + i mod DefaultJacobiOp2.numRows k ->
             m' a = m a))
  /\ (forall (k : ExtractDiagonalOp1.t) (a : nat),
      a <> ExtractDiagonalOp1.diag k + i ->
      ExtractDiagonalOp1.execute k m i a = m a)
  /\ (forall (k : ExtractDiagonalOp2.t) (a : nat),
      a <> ExtractDiagonalOp2.diag k + i ->
      ExtractDiagonalOp2.execute k m i a = m a)
  /\ (forall (k : DefaultJacobiOp1.t Scalar) (j : nat),
      DefaultJacobiOp1.numRows k <> 0 -> i <> j ->
      (DefaultJacobiOp1.row_of k i, DefaultJacobiOp1.rhs_of k i)
      <> (DefaultJacobiOp1.row_of k j, DefaultJacobiOp1.rhs_of k j)
      /\ (DefaultJacobiOp1.numRows k <= DefaultJacobiOp1.xstride k ->
          DefaultJacobiOp1.x_slot k i <> DefaultJacobiOp1.x_slot k j))
  /\ (forall (k : DefaultJacobiOp2.t Scalar) (j : nat),
      DefaultJacobiOp2.numRows k <> 0 -> i <> j ->
      (DefaultJacobiOp2.row_of k i, DefaultJacobiOp2.rhs_of k i)
      <> (DefaultJacobiOp2.row_of k j, DefaultJacobiOp2.rhs_of k j)
      /\ (DefaultJacobiOp2.numRows k <= DefaultJacobiOp2.xstride k ->
          DefaultJacobiOp2.x_slot k i <> DefaultJacobiOp2.x_slot k j)).
Proof.
  split; [|split; [|split; [|split; [|split]]]].
  - intros k m' H.
    destruct (Nat.eq_dec (DefaultJacobiOp1.numRows k) 0) as [E|Hn].
    + unfold DefaultJacobiOp1.execute in H. rewrite E in H. discriminate.
    + rewrite jacobi1_relax in H by assumption.
      split; [|now apply (relax_frame _ _ _ _ _ _ _ _ _ H)].
      apply relax_some in H. destruct H as [_ ->]. now eexists.
  - intros k m' H.
    destruct (Nat.eq_dec (DefaultJacobiOp2.numRows k) 0) as [E|Hn].
    + unfold DefaultJacobiOp2.execute in H. rewrite E in H. discriminate.
    + rewrite jacobi2_relax in H by assumption.
      split; [|now apply (relax_frame _ _ _ _ _ _ _ _ _ H)].
      apply relax_some in H. destruct H as [_ ->]. now eexists.
  - intros k a Ha. now apply extract1_frame.
  - intros k a Ha. now apply extract2_frame.
  - intros k j Hn Hij. split.
    + intros E. injection E as Hr Hq.
      now apply Hij, (flat_index_inj (DefaultJacobiOp1.numRows k)).
    + intros Hs E. apply Hij.
      apply (slot_inj (DefaultJacobiOp1.numRows k)
                      (DefaultJacobiOp1.xstride k)); try assumption.
      unfold DefaultJacobiOp1.x_slot, DefaultJacobiOp1.row_of,
        DefaultJacobiOp1.rhs_of in E. lia.
  - intros k j Hn Hij. split.
    + intros E. injection E as Hr Hq.
      now apply Hij, (flat_index_inj (DefaultJacobiOp2.numRows k)).
    + intros Hs E. apply Hij.
      apply (slot_inj (DefaultJacobiOp2.numRows k)
                      (DefaultJacobiOp2.xstride k)); try assumption.
      unfold DefaultJacobiOp2.x_slot, DefaultJacobiOp2.row_of,
        DefaultJacobiOp2.rhs_of in E. lia.
Qed.

(** *** Jacobi with a zero damping factor *)

Lemma relax_zero (es : list (nat * Scalar)) (m : mem)
      (bslot dslot col rslot wslot : nat) :
  m dslot <> szero ->
  relax es szero m bslot dslot col rslot wslot
  = Some (store m wslot (m rslot)).
Proof.
  intros Hd. rewrite relax_defined by assumption.
  do 2 f_equal. field. assumption.
Qed.

(** A sweep of a kernel that copies the cell [src i] to the cell [dst i]
    whenever the cell [dg i] is not zero. *)
Lemma copy_sweep (f : mem -> nat -> option mem) (dst src dg : nat -> nat)
      (idx : list nat) :
  (forall m i, In i idx -> m (dg i) <> szero ->
               f m i = Some (store m (dst i) (m (src i)))) ->
  (forall i j, In i idx -> In j idx -> dst i <> dg j /\ dst i <> src j) ->
  (forall i j, dst i = dst j -> src i = src j) ->
  forall m,
    (forall i, In i idx -> m (dg i) <> szero) ->
    exists m',
      sweep f idx m = Some m'
      /\ (forall i, In i idx -> m' (dst i) = m (src i))
      /\ (forall a, (forall i, In i idx -> a <> dst i) -> m' a = m a).
Proof.
  induction idx as [|i idx IH]; intros Hf Hapart Hsame m Hd.
  - exists m. repeat split; intros i [].
  - simpl. rewrite Hf by (try apply Hd; now left). simpl.
    set (m1 := store m (dst i) (m (src i))).
    assert (Hm1 : forall j, In j (i :: idx) ->
                            m1 (dg j) = m (dg j) /\ m1 (src j) = m (src j)).
    { intros j Hj. unfold m1.
      destruct (Hapart i j) as [H1 H2]; [now left | assumption |].
      rewrite !store_neq by congruence. now split. }
    destruct (IH) with (m := m1) as (m' & Hs & Hv & Hfr).
    + intros m0 j Hj. apply Hf. now right.
    + intros j j' Hj Hj'. apply Hapart; now right.
    + assumption.
    + intros j Hj. destruct (Hm1 j) as [-> _]; [now right|].
      apply Hd. now right.
    + exists m'. split; [assumption|]. split.
      * intros j [<-|Hj].
        -- destruct (in_dec Nat.eq_dec (dst i) (map dst idx)) as [Hin|Hin].
           ++ apply in_map_iff in Hin. destruct Hin as (j & Ej & Hj).
              rewrite <- Ej, (Hv j Hj).
              destruct (Hm1 j) as [_ ->]; [now right|].
              f_equal. now apply Hsame.
           ++ rewrite Hfr.
              ** unfold m1. apply store_eq.
              ** intros j Hj E. apply Hin. rewrite E. now apply in_map.
        -- rewrite (Hv j Hj). destruct (Hm1 j) as [_ ->]; [now right|].
           reflexivity.
      * intros a Ha. rewrite Hfr.
        -- unfold m1. apply store_neq. apply Ha. now left.
        -- intros j Hj. apply Ha. now right.
Qed.

(** Any number of such sweeps, at least one. *)
Lemma copy_sweeps (f : mem -> nat -> option mem) (dst src dg : nat -> nat)
      (idx : list nat) :
  (forall m i, In i idx -> m (dg i) <> szero ->
               f m i = Some (store m (dst i) (m (src i)))) ->
  (forall i j, In i idx -> In j idx -> dst i <> dg j /\ dst i <> src j) ->
  (forall i j, dst i = dst j -> src i = src j) ->
  forall n m,
    (forall i, In i idx -> m (dg i) <> szero) ->
    exists m',
      sweeps f idx (S n) m = Some m'
      /\ (forall i, In i idx -> m' (dst i) = m' (src i))
      /\ (forall i, In i idx -> m' (src i) = m (src i)).
Proof.
  intros Hf Hapart Hsame n.
  assert (Hkeep : forall (m m' : mem) i,
             (forall a, (forall j, In j idx -> a <> dst j) -> m' a = m a) ->
             In i idx -> m' (dg i) = m (dg i) /\ m' (src i) = m (src i)).
  { intros m m' i Hfr Hi. split; apply Hfr; intros j Hj E;
      destruct (Hapart j i Hj Hi) as [H1 H2]; congruence. }
  induction n as [|n IH]; intros m Hd.
  - destruct (copy_sweep f dst src dg idx Hf Hapart Hsame m Hd)
      as (m' & Hs & Hv & Hfr).
    exists m'. simpl. rewrite Hs. simpl. split; [reflexivity|].
    split; intros i Hi; destruct (Hkeep m m' i Hfr Hi) as [_ E].
    + rewrite E. now apply Hv.
    + assumption.
  - destruct (copy_sweep f dst src dg idx Hf Hapart Hsame m Hd)
      as (m1 & Hs & Hv & Hfr).
    destruct (IH m1) as (m' & Hs' & Hv' & Hk').
    + intros i Hi. destruct (Hkeep m m1 i Hfr Hi) as [-> _]. now apply Hd.
    + exists m'. split.
      * change (sweeps f idx (S (S n)) m)
          with (m0 <- sweep f idx m ;; sweeps f idx (S n) m0).
        rewrite Hs. exact Hs'.
      * split; [assumption|].
        intros i Hi. rewrite (Hk' i Hi).
        now destruct (Hkeep m m1 i Hfr Hi) as [_ ->].
Qed.

Lemma jacobi1_zero (k : DefaultJacobiOp1.t Scalar) (m : mem) (i : nat) :
  DefaultJacobiOp1.numRows k <> 0 ->
  DefaultJacobiOp1.damping_factor k = szero ->
  m (DefaultJacobiOp1.diag_slot k i) <> szero ->
  DefaultJacobiOp1.execute k m i
  = Some (store m (DefaultJacobiOp1.x_slot k i)
            (m (DefaultJacobiOp1.x0_slot k i))).
Proof.
  intros Hn Hw Hd. rewrite jacobi1_relax, Hw by assumption.
  now apply relax_zero.
Qed.

Lemma jacobi2_zero (k : DefaultJacobiOp2.t Scalar) (m : mem) (i : nat) :
  DefaultJacobiOp2.numRows k <> 0 ->
  DefaultJacobiOp2.damping_factor k = szero ->
  m (DefaultJacobiOp2.diag_slot k i) <> szero ->
  DefaultJacobiOp2.execute k m i
  = Some (store m (DefaultJacobiOp2.x_slot k i)
            (m (DefaultJacobiOp2.x0_slot k i))).
Proof.
  intros Hn Hw Hd. rewrite jacobi2_relax, Hw by assumption.
  now apply relax_zero.
Qed.

(** C7, as amended. For a matrix in either storage, any [b], [x0], strides
    and flat index [i], and a diagonal with [diag[r] <> 0] for the row [r]
    of [i]: the Jacobi update with damping factor zero stores into
    [x[r,rhs]] the value of [x0[r,rhs]].  So any number of sweeps, at least
    one, over indices whose diagonal cells are not zero and whose cells of
    [x] are no cells of [diag] or [x0], leave [x] equal to [x0] at these
    indices, and [x0] as it was.  (For [diag[r] = 0] the update has no defined
    result.) *)
Theorem jacobi_zero_damping (m : mem) :
  (forall (k : DefaultJacobiOp1.t Scalar) (i : nat),
      DefaultJacobiOp1.numRows k <> 0 ->
      DefaultJacobiOp1.damping_factor k = szero ->
      m (DefaultJacobiOp1.diag_slot k i) <> szero ->
      DefaultJacobiOp1.execute k m i
      = Some (store m (DefaultJacobiOp1.x_slot k i)
                (m (DefaultJacobiOp1.x0_slot k i))))
  /\ (forall (k : DefaultJacobiOp2.t Scalar) (i : nat),
      DefaultJacobiOp2.numRows k <> 0 ->
      DefaultJacobiOp2.damping_factor k = szero ->
      m (DefaultJacobiOp2.diag_slot k i) <> szero ->
      DefaultJacobiOp2.execute k m i
      = Some (store m (DefaultJacobiOp2.x_slot k i)
                (m (DefaultJacobiOp2.x0_slot k i))))
  /\ (forall (k : DefaultJacobiOp1.t Scalar) (idx : list nat) (n : nat),
      DefaultJacobiOp1.numRows k <> 0 ->
      DefaultJacobiOp1.damping_factor k = szero ->
      (forall i, In i idx -> m (DefaultJacobiOp1.diag_slot k i) <> szero) ->
      DefaultJacobiOp1.output_apart k idx ->
      exists m',
        sweeps (DefaultJacobiOp1.execute k) idx (S n) m = Some m'
        /\ (forall i, In i idx ->
                      m' (DefaultJacobiOp1.x_slot k i)
                      = m' (DefaultJacobiOp1.x0_slot k i))
        /\ (forall i, In i idx ->
                      m' (DefaultJacobiOp1.x0_slot k i)
                      = m (DefaultJacobiOp1.x0_slot k i)))
  /\ (forall (k : DefaultJacobiOp2.t Scalar) (idx : list nat) (n : nat),
      DefaultJacobiOp2.numRows k <> 0 ->
      DefaultJacobiOp2.damping_factor k = szero ->
      (forall i, In i idx -> m (DefaultJacobiOp2.diag_slot k i) <> szero) ->
      DefaultJacobiOp2.output_apart k idx ->
      exists m',
        sweeps (DefaultJacobiOp2.execute k) idx (S n) m = Some m'
        /\ (forall i, In i idx ->
                      m' (DefaultJacobiOp2.x_slot k i)
                      = m' (DefaultJacobiOp2.x0_slot k i))
        /\ (forall i, In i idx ->
                      m' (DefaultJacobiOp2.x0_slot k i)
                      = m (DefaultJacobiOp2.x0_slot k i))).
Proof.
  split; [|split; [|split]].
  - intros k i. apply jacobi1_zero.
  - intros k i. apply jacobi2_zero.
  - intros k idx n Hn Hw Hd Hapart.
    apply (copy_sweeps (DefaultJacobiOp1.execute k)
             (DefaultJacobiOp1.x_slot k) (DefaultJacobiOp1.x0_slot k)
             (DefaultJacobiOp1.diag_slot k) idx).
    + intros m0 i _ Hi. now apply jacobi1_zero.
    + exact Hapart.
    + intros i j. unfold DefaultJacobiOp1.x_slot, DefaultJacobiOp1.x0_slot,
        DefaultJacobiOp1.x0_column. lia.
    + exact Hd.
  - intros k idx n Hn Hw Hd Hapart.
    apply (copy_sweeps (DefaultJacobiOp2.execute k)
             (DefaultJacobiOp2.x_slot k) (DefaultJacobiOp2.x0_slot k)
             (DefaultJacobiOp2.diag_slot k) idx).
    + intros m0 i _ Hi. now apply jacobi2_zero.
    + exact Hapart.
    + intros i j. unfold DefaultJacobiOp2.x_slot, DefaultJacobiOp2.x0_slot,
        DefaultJacobiOp2.x0_column. lia.
    + exact Hd.
Qed.

(** *** The cells a Jacobi update reads *)

Lemma jacobi1_row_entries_ext (k : DefaultJacobiOp1.t Scalar) (m1 m2 : mem)
      (r : nat) :
  (forall a, In a (DefaultJacobiOp1.value_cells k r) -> m2 a = m1 a) ->
  DefaultJacobiOp1.row_entries k m2 r = DefaultJacobiOp1.row_entries k m1 r.
Proof.
  intros H. unfold DefaultJacobiOp1.row_entries. apply map_ext_in.
  intros c Hc. f_equal. apply H.
  unfold DefaultJacobiOp1.value_cells.
  apply (in_map (fun c => DefaultJacobiOp1.vals k + c)). exact Hc.
Qed.

Lemma jacobi2_row_entries_ext (k : DefaultJacobiOp2.t Scalar) (m1 m2 : mem)
      (r : nat) :
  (forall a, In a (DefaultJacobiOp2.value_cells k r) -> m2 a = m1 a) ->
  DefaultJacobiOp2.row_entries k m2 r = DefaultJacobiOp2.row_entries k m1 r.
Proof.
  intros H. unfold DefaultJacobiOp2.row_entries. apply map_ext_in.
  intros c Hc. f_equal. apply H.
  unfold DefaultJacobiOp2.value_cells.
  apply (in_map (fun j => DefaultJacobiOp2.vals_beg k r + j)). exact Hc.
Qed.

(** The value a relaxation update stores is fixed by the cells it names. *)
Lemma relax_ext (es : list (nat * Scalar)) (omega : Scalar) (m1 m2 : mem)
      (bslot1 bslot2 dslot col rslot wslot : nat) :
  m2 bslot2 = m1 bslot1 ->
  m2 dslot = m1 dslot ->
  m2 rslot = m1 rslot ->
  (forall e, In e es -> m2 (col + fst e) = m1 (col + fst e)) ->
  option_map (fun m' : mem => m' wslot)
             (relax es omega m2 bslot2 dslot col rslot wslot)
  = option_map (fun m' : mem => m' wslot)
               (relax es omega m1 bslot1 dslot col rslot wslot).
Proof.
  intros Hb Hd Hr Hes. unfold relax.
  rewrite Hb, Hd, (row_dot_ext es m2 m1 col col Hes).
  destruct (quot _ _) as [q|]; simpl; [|reflexivity].
  rewrite !store_eq, Hr. reflexivity.
Qed.

(** Only the cell read in [b] tells two relaxation updates apart that differ
    in the address of that cell. *)
Lemma relax_bslot (es : list (nat * Scalar)) (omega : Scalar) (m : mem)
      (bslot1 bslot2 dslot col rslot wslot : nat) :
  m bslot2 = m bslot1 ->
  relax es omega m bslot2 dslot col rslot wslot
  = relax es omega m bslot1 dslot col rslot wslot.
Proof. intros Hb. unfold relax. now rewrite Hb. Qed.

(** C10. Both Jacobi kernels address the previous iterate with the stride of
    the output: for a flat index [i] with [r = i mod numRows] and
    [rhs = i / numRows] the value stored into [x + rhs * xstride + r] is
    [x0[..]] read at [x0 + rhs * xstride + r], plus the damped residual whose
    row sum reads [x0] at [x0 + rhs * xstride + c] for the columns [c] of the
    row; these are the only cells of the iterate the stored value depends on;
    and [bstride] only selects the cell read in [b], at
    [b + rhs * bstride + r]. *)
Theorem jacobi_x0_has_xstride (m : mem) (i : nat) :
  (forall k : DefaultJacobiOp1.t Scalar,
      let r := i mod DefaultJacobiOp1.numRows k in
      let rhs := i / DefaultJacobiOp1.numRows k in
      let x0j := DefaultJacobiOp1.x0 k + rhs * DefaultJacobiOp1.xstride k in
      let bj := DefaultJacobiOp1.b k + rhs * DefaultJacobiOp1.bstride k in
      DefaultJacobiOp1.numRows k <> 0 ->
      m (DefaultJacobiOp1.diag k + r) <> szero ->
      DefaultJacobiOp1.execute k m i
      = Some (store m
                (DefaultJacobiOp1.x k + rhs * DefaultJacobiOp1.xstride k + r)
                (m (x0j + r)%nat
                 + DefaultJacobiOp1.damping_factor k
                   * (m (bj + r)%nat
                      - ssum (map (fun e => snd e * m (x0j + fst e)%nat)
                                  (DefaultJacobiOp1.row_entries k m r)))
                   / m (DefaultJacobiOp1.diag k + r)%nat)%S)
      /\ (forall m2 : mem,
             (forall a, In a (DefaultJacobiOp1.value_cells k r) ->
                        m2 a = m a) ->
             m2 (DefaultJacobiOp1.diag k + r)
             = m (DefaultJacobiOp1.diag k + r) ->
             m2 (bj + r) = m (bj + r) ->
             (forall c,
                 c = r \/ In c (map fst (DefaultJacobiOp1.row_entries k m r)) ->
                 m2 (x0j + c) = m (x0j + c)) ->
             option_map (fun m' : mem => m' (DefaultJacobiOp1.x_slot k i))
                        (DefaultJacobiOp1.execute k m2 i)
             = option_map (fun m' : mem => m' (DefaultJacobiOp1.x_slot k i))
                          (DefaultJacobiOp1.execute k m i))
      /\ (forall s : nat,
             m (DefaultJacobiOp1.b k + rhs * s + r) = m (bj + r) ->
             DefaultJacobiOp1.execute (DefaultJacobiOp1.with_bstride k s) m i
             = DefaultJacobiOp1.execute k m i))
  /\ (forall k : DefaultJacobiOp2.t Scalar,
      let r := i mod DefaultJacobiOp2.numRows k in
      let rhs := i / DefaultJacobiOp2.numRows k in
      let x0j := DefaultJacobiOp2.x0 k + rhs * DefaultJacobiOp2.xstride k in
      let bj := DefaultJacobiOp2.b k + rhs * DefaultJacobiOp2.bstride k in
      DefaultJacobiOp2.numRows k <> 0 ->
      m (DefaultJacobiOp2.diag k + r) <> szero ->
      DefaultJacobiOp2.execute k m i
      = Some (store m
                (DefaultJacobiOp2.x k + rhs * DefaultJacobiOp2.xstride k + r)
                (m (x0j + r)%nat
                 + DefaultJacobiOp2.damping_factor k
                   * (m (bj + r)%nat
                      - ssum (map (fun e => snd e * m (x0j + fst e)%nat)
                                  (DefaultJacobiOp2.row_entries k m r)))
                   / m (DefaultJacobiOp2.diag k + r)%nat)%S)
      /\ (forall m2 : mem,
             (forall a, In a (DefaultJacobiOp2.value_cells k r) ->
                        m2 a = m a) ->
             m2 (DefaultJacobiOp2.diag k + r)
             = m (DefaultJacobiOp2.diag k + r) ->
             m2 (bj + r) = m (bj + r) ->
             (forall c,
                 c = r \/ In c (map fst (DefaultJacobiOp2.row_entries k m r)) ->
                 m2 (x0j + c) = m (x0j + c)) ->
             option_map (fun m' : mem => m' (DefaultJacobiOp2.x_slot k i))
                        (DefaultJacobiOp2.execute k m2 i)
             = option_map (fun m' : mem => m' (DefaultJacobiOp2.x_slot k i))
                          (DefaultJacobiOp2.execute k m i))
      /\ (forall s : nat,
             m (DefaultJacobiOp2.b k + rhs * s + r) = m (bj + r) ->
             DefaultJacobiOp2.execute (DefaultJacobiOp2.with_bstride k s) m i
             = DefaultJacobiOp2.execute k m i)).
Proof.
  split; intros k r rhs x0j bj Hn Hd; (split; [|split]).
  - rewrite jacobi1_relax by assumption. now rewrite relax_defined.
  - intros m2 Hv Hd2 Hb2 Hx.
    rewrite !jacobi1_relax by assumption.
    rewrite (jacobi1_row_entries_ext k m m2 (DefaultJacobiOp1.row_of k i) Hv).
    apply relax_ext; try assumption.
    + apply Hx. now left.
    + intros e He. apply Hx. right. now apply in_map.
  - intros s Hs.
    rewrite (jacobi1_relax (DefaultJacobiOp1.with_bstride k s)),
      (jacobi1_relax k) by assumption.
    now apply relax_bslot.
  - rewrite jacobi2_relax by assumption. now rewrite relax_defined.
  - intros m2 Hv Hd2 Hb2 Hx.
    rewrite !jacobi2_relax by assumption.
    rewrite (jacobi2_row_entries_ext k m m2 (DefaultJacobiOp2.row_of k i) Hv).
    apply relax_ext; try assumption.
    + apply Hx. now left.
    + intros e He. apply Hx. right. now apply in_map.
  - intros s Hs.
    rewrite (jacobi2_relax (DefaultJacobiOp2.with_bstride k s)),
      (jacobi2_relax k) by assumption.
    now apply relax_bslot.
Qed.

(** *** Sweeps of a diagonal extractor *)

(** A sweep, in any order, of a kernel that stores into [dg + r] the first
    diagonal value [fd m r] of row [r], when the rows do not change with the
    cells of [diag]. *)
Lemma extract_sweep (f : mem -> nat -> mem) (fd : mem -> nat -> option Scalar)
      (dg n : nat) (m : mem) :
  (forall m' r, f m' r = match fd m' r with
                         | Some v => store m' (dg + r) v
                         | None => m'
                         end) ->
  (forall m' r, r < n -> (forall a, ~ cells dg n a -> m' a = m a) ->
                fd m' r = fd m r) ->
  forall order m',
    (forall r, In r order -> r < n) ->
    (forall a, ~ cells dg n a -> m' a = m a) ->
    (forall a, ~ cells dg n a -> sweep_total f order m' a = m a)
    /\ (forall r v, fd m r = Some v ->
                    (In r order -> sweep_total f order m' (dg + r) = v)
                    /\ (~ In r order ->
                        sweep_total f order m' (dg + r) = m' (dg + r))).
Proof.
  intros Hf Hfd order.
  induction order as [|r0 order IH]; intros m' Hlt Hm'.
  - simpl. split; [assumption|]. intros r v _. split; [intros []|reflexivity].
  - simpl.
    assert (Hr0 : r0 < n) by (apply Hlt; now left).
    assert (H1 : forall a, a <> dg + r0 -> f m' r0 a = m' a).
    { intros a Ha. rewrite Hf. destruct (fd m' r0); [|reflexivity].
      now apply store_neq. }
    assert (Hm1 : forall a, ~ cells dg n a -> f m' r0 a = m a).
    { intros a Ha. rewrite H1; [now apply Hm'|].
      intros ->. apply Ha. unfold cells. lia. }
    destruct (IH (f m' r0)) as [Hfr Hv];
      [intros r Hr; apply Hlt; now right | assumption |].
    split; [assumption|].
    intros r v Hrv. destruct (Hv r v Hrv) as [Hin Hout].
    split.
    + intros [->|Hr]; [|now apply Hin].
      destruct (in_dec Nat.eq_dec r order) as [Hr|Hr]; [now apply Hin|].
      rewrite (Hout Hr), Hf, (Hfd m' r Hr0 Hm'), Hrv. apply store_eq.
    + intros Hr. rewrite Hout by (intros Hr'; apply Hr; now right).
      apply H1. intros E. apply Hr. left. lia.
Qed.

Lemma extract1_row_entries_ext (k : ExtractDiagonalOp1.t) (m1 m2 : mem)
      (r : nat) :
  (forall a, In a (ExtractDiagonalOp1.value_cells k r) -> m2 a = m1 a) ->
  ExtractDiagonalOp1.row_entries k m2 r = ExtractDiagonalOp1.row_entries k m1 r.
Proof.
  intros H. unfold ExtractDiagonalOp1.row_entries. apply map_ext_in.
  intros c Hc. f_equal. apply H.
  unfold ExtractDiagonalOp1.value_cells.
  apply (in_map (fun c => ExtractDiagonalOp1.vals k + c)). exact Hc.
Qed.

Lemma extract2_row_entries_ext (k : ExtractDiagonalOp2.t) (m1 m2 : mem)
      (r : nat) :
  (forall a, In a (ExtractDiagonalOp2.value_cells k r) -> m2 a = m1 a) ->
  ExtractDiagonalOp2.row_entries k m2 r = ExtractDiagonalOp2.row_entries k m1 r.
Proof.
  intros H. unfold ExtractDiagonalOp2.row_entries. apply map_ext_in.
  intros c Hc. f_equal. apply H.
  unfold ExtractDiagonalOp2.value_cells.
  apply (in_map (fun j => ExtractDiagonalOp2.vals_beg k r + j)). exact Hc.
Qed.

(** After a sweep over every row, in any order, [diag[r]] holds the first
    diagonal value of row [r], for each row that has one. *)
Lemma extract1_sweep (k : ExtractDiagonalOp1.t) (m : mem) (n : nat)
      (order : list nat) :
  ExtractDiagonalOp1.diag_apart k n ->
  (forall r, In r order <-> r < n) ->
  forall r v,
    r < n ->
    first_diagonal r (ExtractDiagonalOp1.row_entries k m r) = Some v ->
    sweep_total (ExtractDiagonalOp1.execute k) order m
                (ExtractDiagonalOp1.diag k + r) = v.
Proof.
  intros Hapart Horder r v Hr Hv.
  destruct (extract_sweep (ExtractDiagonalOp1.execute k)
              (fun m' r' =>
                 first_diagonal r' (ExtractDiagonalOp1.row_entries k m' r'))
              (ExtractDiagonalOp1.diag k) n m) with (order := order) (m' := m)
    as [_ H].
  - intros m' r'. apply extract1_execute.
  - intros m' r' Hr' Hm'. f_equal. apply extract1_row_entries_ext.
    intros a Ha. apply Hm'. intros Hc. now apply (Hapart a r').
  - intros r'. apply Horder.
  - reflexivity.
  - destruct (H r v Hv) as [Hin _]. apply Hin. now apply Horder.
Qed.

Lemma extract2_sweep (k : ExtractDiagonalOp2.t) (m : mem) (n : nat)
      (order : list nat) :
  ExtractDiagonalOp2.diag_apart k n ->
  (forall r, In r order <-> r < n) ->
  forall r v,
    r < n ->
    first_diagonal r (ExtractDiagonalOp2.row_entries k m r) = Some v ->
    sweep_total (ExtractDiagonalOp2.execute k) order m
                (ExtractDiagonalOp2.diag k + r) = v.
Proof.
  intros Hapart Horder r v Hr Hv.
  destruct (extract_sweep (ExtractDiagonalOp2.execute k)
              (fun m' r' =>
                 first_diagonal r' (ExtractDiagonalOp2.row_entries k m' r'))
              (ExtractDiagonalOp2.diag k) n m) with (order := order) (m' := m)
    as [_ H].
  - intros m' r'. apply extract2_execute.
  - intros m' r' Hr' Hm'. f_equal. apply extract2_row_entries_ext.
    intros a Ha. apply Hm'. intros Hc. now apply (Hapart a r').
  - intros r'. apply Horder.
  - reflexivity.
  - destruct (H r v Hv) as [Hin _]. apply Hin. now apply Horder.
Qed.

Lemma first_diagonal_some (r : nat) (es : list (nat * Scalar)) :
  In r (map fst es) -> exists v, first_diagonal r es = Some v.
Proof.
  intros H. unfold first_diagonal, on_diagonal.
  induction es as [|e es IH]; [contradiction|]. simpl.
  destruct (Nat.eqb_spec (fst e) r) as [E|Hne].
  - now exists (snd e).
  - apply IH. destruct H as [H|H]; [contradiction | assumption].
Qed.

Lemma read_array_ext (m1 m2 : mem) (p1 p2 n : nat) :
  (forall r, r < n -> m1 (p1 + r) = m2 (p2 + r)) ->
  read_array m1 p1 n = read_array m2 p2 n.
Proof.
  intros H. unfold read_array. apply map_ext_in.
  intros r Hr. apply H. apply in_seq in Hr. lia.
Qed.

(** C4. Take a matrix given in both storages, with the same sequence of
    entries in every row and an entry on the diagonal in every row, and
    [diag] arrays that do not overlap the matrix values.  Running the
    extractor of the first storage over all rows, and the extractor of the
    second storage over all rows, each in any order, leaves the same
    contents in the [numRows] cells of the two [diag] arrays. *)
Theorem extract_diagonal_formats_agree
        (k1 : ExtractDiagonalOp1.t) (k2 : ExtractDiagonalOp2.t)
        (m1 m2 : mem) (order1 order2 : list nat) :
  ExtractDiagonalOp2.numRows k2 = ExtractDiagonalOp1.numRows k1 ->
  (forall r, r < ExtractDiagonalOp1.numRows k1 ->
             ExtractDiagonalOp1.row_entries k1 m1 r
             = ExtractDiagonalOp2.row_entries k2 m2 r) ->
  ExtractDiagonalOp1.has_diagonal k1 m1 (ExtractDiagonalOp1.numRows k1) ->
  ExtractDiagonalOp1.diag_apart k1 (ExtractDiagonalOp1.numRows k1) ->
  ExtractDiagonalOp2.diag_apart k2 (ExtractDiagonalOp2.numRows k2) ->
  (forall r, In r order1 <-> r < ExtractDiagonalOp1.numRows k1) ->
  (forall r, In r order2 <-> r < ExtractDiagonalOp2.numRows k2) ->
  read_array (sweep_total (ExtractDiagonalOp1.execute k1) order1 m1)
             (ExtractDiagonalOp1.diag k1) (ExtractDiagonalOp1.numRows k1)
  = read_array (sweep_total (ExtractDiagonalOp2.execute k2) order2 m2)
               (ExtractDiagonalOp2.diag k2) (ExtractDiagonalOp2.numRows k2).
Proof.
  intros Hn Hrows Hdiag Ha1 Ha2 Ho1 Ho2. rewrite Hn in *.
  apply read_array_ext. intros r Hr.
  destruct (first_diagonal_some r _ (Hdiag r Hr)) as [v Hv].
  rewrite (extract1_sweep k1 m1 _ order1 Ha1 Ho1 r v Hr Hv).
  rewrite (Hrows r Hr) in Hv.
  now rewrite (extract2_sweep k2 m2 _ order2 Ha2 Ho2 r v Hr Hv).
Qed.

(** *** Gauss-Seidel on a lower-triangular system *)

Lemma off_diagonal_in (r : nat) (es : list (nat * Scalar)) (e : nat * Scalar) :
  In e (off_diagonal r es) -> In e es /\ fst e <> r.
Proof.
  unfold off_diagonal. rewrite filter_In. intros [H E]. split; [assumption|].
  apply Nat.eqb_neq. now destruct (Nat.eqb (fst e) r).
Qed.

(** The sum of a row with the one diagonal entry [(r, d)], over a column. *)
Lemma row_dot_diagonal (r : nat) (d : Scalar) (es : list (nat * Scalar))
      (m : mem) (col : nat) :
  on_diagonal r es = [(r, d)] ->
  row_dot es m col
  = (d * m (col + r)%nat + row_dot (off_diagonal r es) m col)%S.
Proof.
  intros H. rewrite (row_dot_split r), H. unfold row_dot at 1. simpl. ring.
Qed.

(** Rows in increasing order, each updated with damping factor one: after
    the first [j] rows, these rows hold against the column at [xp]. *)
Lemma triangular_sweep (f : mem -> nat -> option mem)
      (rows : mem -> nat -> list (nat * Scalar)) (xp bp dp n : nat) (m : mem) :
  (forall m' r, r < n ->
                f m' r = relax (rows m' r) sone m' (bp + r) (dp + r) xp
                               (xp + r) (xp + r)) ->
  (forall m' r, r < n -> (forall a, ~ cells xp n a -> m' a = m a) ->
                rows m' r = rows m r) ->
  (forall a, cells xp n a -> ~ cells bp n a /\ ~ cells dp n a) ->
  (forall r e, r < n -> In e (rows m r) -> fst e <= r) ->
  (forall r, r < n -> on_diagonal r (rows m r) = [(r, m (dp + r))]
                      /\ m (dp + r) <> szero) ->
  forall j, j <= n ->
    exists m',
      sweep f (range 0 j) m = Some m'
      /\ (forall a, ~ cells xp j a -> m' a = m a)
      /\ (forall r, r < j -> row_dot (rows m r) m' xp = m (bp + r)).
Proof.
  intros Hf Hrows Hapart Hlow Hdiag.
  induction j as [|j IH]; intros Hj.
  - exists m. repeat split. intros r Hr. lia.
  - destruct IH as (mj & Hs & Hfr & Hsol); [lia|].
    assert (Hout : forall a, ~ cells xp n a -> mj a = m a).
    { intros a Ha. apply Hfr. unfold cells in *. lia. }
    assert (Hb : mj (bp + j) = m (bp + j)).
    { apply Hout. intros Hc. destruct (Hapart _ Hc) as [H _]. apply H.
      unfold cells. lia. }
    assert (Hd : mj (dp + j) = m (dp + j)).
    { apply Hout. intros Hc. destruct (Hapart _ Hc) as [_ H]. apply H.
      unfold cells. lia. }
    destruct (Hdiag j) as [Hone Hnz]; [lia|].
    eexists. split; [|split].
    + rewrite range_snoc, sweep_app, Hs. simpl.
      rewrite Hf, (Hrows mj j) by (assumption || lia).
      rewrite relax_defined by now rewrite Hd.
      reflexivity.
    + intros a Ha. rewrite store_neq by (unfold cells in Ha; lia).
      apply Hfr. unfold cells in *. lia.
    + intros r Hr.
      destruct (Nat.eq_dec r j) as [->|Hne].
      * rewrite (row_dot_diagonal j (m (dp + j)) _ _ _ Hone).
        rewrite store_eq.
        rewrite (row_dot_ext (off_diagonal j (rows m j)) _ mj xp xp).
        -- rewrite (row_dot_diagonal j (m (dp + j)) _ mj _ Hone).
           rewrite Hb, Hd. field. assumption.
        -- intros e He. apply off_diagonal_in in He. destruct He as [He Hc].
           assert (fst e <= j) by (apply Hlow; [lia | assumption]).
           apply store_neq. lia.
      * rewrite <- (Hsol r) by lia. apply row_dot_ext.
        intros e He.
        assert (fst e <= r) by (apply Hlow; [lia | assumption]).
        apply store_neq. lia.
Qed.

(** A lower-triangular system with a nonzero diagonal has one solution. *)
Lemma triangular_unique (rows : nat -> list (nat * Scalar))
      (rhs : nat -> Scalar) (d : nat -> Scalar) (n : nat) (m1 m2 : mem)
      (col1 col2 : nat) :
  (forall r e, r < n -> In e (rows r) -> fst e <= r) ->
  (forall r, r < n -> on_diagonal r (rows r) = [(r, d r)] /\ d r <> szero) ->
  (forall r, r < n -> row_dot (rows r) m1 col1 = rhs r) ->
  (forall r, r < n -> row_dot (rows r) m2 col2 = rhs r) ->
  forall r, r < n -> m1 (col1 + r) = m2 (col2 + r).
Proof.
  intros Hlow Hdiag H1 H2 r.
  induction r as [r IH] using (well_founded_induction lt_wf). intros Hr.
  destruct (Hdiag r Hr) as [Hone Hnz].
  pose proof (H1 r Hr) as E1. pose proof (H2 r Hr) as E2.
  rewrite (row_dot_diagonal r (d r) _ m1 col1 Hone) in E1.
  rewrite (row_dot_diagonal r (d r) _ m2 col2 Hone) in E2.
  rewrite (row_dot_ext (off_diagonal r (rows r)) m1 m2 col1 col2) in E1.
  - assert (E : (d r * m1 (col1 + r)%nat)%S = (d r * m2 (col2 + r)%nat)%S).
    { transitivity (rhs r - row_dot (off_diagonal r (rows r)) m2 col2)%S.
      - rewrite <- E1. ring.
      - rewrite <- E2. ring. }
    transitivity ((d r * m1 (col1 + r)%nat) / d r)%S.
    + field. assumption.
    + rewrite E. field. assumption.
  - intros e He. apply off_diagonal_in in He. destruct He as [He Hc].
    assert (fst e <= r) by now apply Hlow.
    apply IH; lia.
Qed.

Lemma gs1_row_entries_ext (k : DefaultFineGrainHybridGaussSeidelOp1.t Scalar)
      (m1 m2 : mem) (r : nat) :
  (forall a, In a (DefaultFineGrainHybridGaussSeidelOp1.value_cells k r) ->
             m2 a = m1 a) ->
  DefaultFineGrainHybridGaussSeidelOp1.row_entries k m2 r
  = DefaultFineGrainHybridGaussSeidelOp1.row_entries k m1 r.
Proof.
  intros H. unfold DefaultFineGrainHybridGaussSeidelOp1.row_entries.
  apply map_ext_in. intros c Hc. f_equal. apply H.
  unfold DefaultFineGrainHybridGaussSeidelOp1.value_cells.
  apply (in_map (fun c => DefaultFineGrainHybridGaussSeidelOp1.vals k + c)).
  exact Hc.
Qed.

Lemma gs2_row_entries_ext (k : DefaultFineGrainHybridGaussSeidelOp2.t Scalar)
      (m1 m2 : mem) (r : nat) :
  (forall a, In a (DefaultFineGrainHybridGaussSeidelOp2.value_cells k r) ->
             m2 a = m1 a) ->
  DefaultFineGrainHybridGaussSeidelOp2.row_entries k m2 r
  = DefaultFineGrainHybridGaussSeidelOp2.row_entries k m1 r.
Proof.
  intros H. unfold DefaultFineGrainHybridGaussSeidelOp2.row_entries.
  apply map_ext_in. intros c Hc. f_equal. apply H.
  unfold DefaultFineGrainHybridGaussSeidelOp2.value_cells.
  apply (in_map
           (fun j => DefaultFineGrainHybridGaussSeidelOp2.vals_beg k r + j)).
  exact Hc.
Qed.

(** On the first right-hand side, flat index [r] is row [r]. *)
Lemma gs1_first_column (k : DefaultFineGrainHybridGaussSeidelOp1.t Scalar)
      (m : mem) (r : nat) :
  r < DefaultFineGrainHybridGaussSeidelOp1.numRows k ->
  DefaultFineGrainHybridGaussSeidelOp1.execute k m r
  = relax (DefaultFineGrainHybridGaussSeidelOp1.row_entries k m r)
          (DefaultFineGrainHybridGaussSeidelOp1.damping_factor k) m
          (DefaultFineGrainHybridGaussSeidelOp1.b k + r)
          (DefaultFineGrainHybridGaussSeidelOp1.diag k + r)
          (DefaultFineGrainHybridGaussSeidelOp1.x k)
          (DefaultFineGrainHybridGaussSeidelOp1.x k + r)
          (DefaultFineGrainHybridGaussSeidelOp1.x k + r).
Proof.
  intros Hr. rewrite gs1_relax by lia.
  unfold DefaultFineGrainHybridGaussSeidelOp1.b_slot,
    DefaultFineGrainHybridGaussSeidelOp1.diag_slot,
    DefaultFineGrainHybridGaussSeidelOp1.x_slot,
    DefaultFineGrainHybridGaussSeidelOp1.x_column,
    DefaultFineGrainHybridGaussSeidelOp1.row_of,
    DefaultFineGrainHybridGaussSeidelOp1.rhs_of.
  rewrite Nat.mod_small, Nat.div_small by assumption.
  simpl. rewrite !Nat.add_0_r. reflexivity.
Qed.

Lemma gs2_first_column (k : DefaultFineGrainHybridGaussSeidelOp2.t Scalar)
      (m : mem) (r : nat) :
  r < DefaultFineGrainHybridGaussSeidelOp2.numRows k ->
  DefaultFineGrainHybridGaussSeidelOp2.execute k m r
  = relax (DefaultFineGrainHybridGaussSeidelOp2.row_entries k m r)
          (DefaultFineGrainHybridGaussSeidelOp2.damping_factor k) m
          (DefaultFineGrainHybridGaussSeidelOp2.b k + r)
          (DefaultFineGrainHybridGaussSeidelOp2.diag k + r)
          (DefaultFineGrainHybridGaussSeidelOp2.x k)
          (DefaultFineGrainHybridGaussSeidelOp2.x k + r)
          (DefaultFineGrainHybridGaussSeidelOp2.x k + r).
Proof.
  intros Hr. rewrite gs2_relax by lia.
  unfold DefaultFineGrainHybridGaussSeidelOp2.b_slot,
    DefaultFineGrainHybridGaussSeidelOp2.diag_slot,
    DefaultFineGrainHybridGaussSeidelOp2.x_slot,
    DefaultFineGrainHybridGaussSeidelOp2.x_column,
    DefaultFineGrainHybridGaussSeidelOp2.row_of,
    DefaultFineGrainHybridGaussSeidelOp2.rhs_of.
  rewrite Nat.mod_small, Nat.div_small by assumption.
  simpl. rewrite !Nat.add_0_r. reflexivity.
Qed.

(** One sweep in increasing row order solves the system, and the system has
    no other solution. *)
Lemma triangular_solve (f : mem -> nat -> option mem)
      (rows : mem -> nat -> list (nat * Scalar)) (xp bp dp n : nat) (m : mem) :
  (forall m' r, r < n ->
                f m' r = relax (rows m' r) sone m' (bp + r) (dp + r) xp
                               (xp + r) (xp + r)) ->
  (forall m' r, r < n -> (forall a, ~ cells xp n a -> m' a = m a) ->
                rows m' r = rows m r) ->
  (forall a, cells xp n a -> ~ cells bp n a /\ ~ cells dp n a) ->
  (forall r e, r < n -> In e (rows m r) -> fst e <= r) ->
  (forall r, r < n -> on_diagonal r (rows m r) = [(r, m (dp + r))]
                      /\ m (dp + r) <> szero) ->
  exists m',
    sweep f (range 0 n) m = Some m'
    /\ (forall a, ~ cells xp n a -> m' a = m a)
    /\ (forall r, r < n -> row_dot (rows m' r) m' xp = m' (bp + r))
    /\ (forall (y : mem) (col : nat),
           (forall r, r < n -> row_dot (rows m' r) y col = m' (bp + r)) ->
           forall r, r < n -> y (col + r) = m' (xp + r)).
Proof.
  intros Hf Hrows Hapart Hlow Hdiag.
  destruct (triangular_sweep f rows xp bp dp n m Hf Hrows Hapart Hlow Hdiag n)
    as (m' & Hs & Hfr & Hsol); [lia|].
  assert (Hb : forall r, r < n -> m' (bp + r) = m (bp + r)).
  { intros r Hr. apply Hfr. intros Hc. destruct (Hapart _ Hc) as [H _].
    apply H. unfold cells. lia. }
  assert (Hsol' : forall r, r < n -> row_dot (rows m' r) m' xp = m' (bp + r)).
  { intros r Hr. rewrite (Hrows m' r Hr Hfr), (Hb r Hr). now apply Hsol. }
  exists m'. repeat split; try assumption.
  intros y col Hy.
  apply (triangular_unique (rows m') (fun r => m' (bp + r))
           (fun r => m (dp + r)) n y m' col xp); try assumption.
  - intros r e Hr. rewrite (Hrows m' r Hr Hfr). now apply Hlow.
  - intros r Hr. rewrite (Hrows m' r Hr Hfr). now apply Hdiag.
Qed.

(** C5. Take a matrix, in either storage, whose entries are on or below the
    diagonal, with exactly one diagonal entry in every row, not zero and held
    by [diag], and an [x] whose cells are no cells of [b], [diag] or the
    matrix values.  Running the Gauss-Seidel update with damping factor one
    once per row, in increasing row order, on the first right-hand side,
    leaves in [x] the solution of the triangular system [A x = b], whatever
    [x] held before: every row sum against [x] is the entry of [b], any column
    with that property equals [x], and no cell outside [x] has changed. *)
Theorem gauss_seidel_triangular_solve (m : mem) :
  (forall k : DefaultFineGrainHybridGaussSeidelOp1.t Scalar,
      let n := DefaultFineGrainHybridGaussSeidelOp1.numRows k in
      DefaultFineGrainHybridGaussSeidelOp1.damping_factor k = sone ->
      DefaultFineGrainHybridGaussSeidelOp1.lower_triangular k m n ->
      DefaultFineGrainHybridGaussSeidelOp1.diagonal_held k m n ->
      DefaultFineGrainHybridGaussSeidelOp1.x_apart k n ->
      exists m',
        sweep (DefaultFineGrainHybridGaussSeidelOp1.execute k) (range 0 n) m
        = Some m'
        /\ (forall a,
               ~ cells (DefaultFineGrainHybridGaussSeidelOp1.x k) n a ->
               m' a = m a)
        /\ DefaultFineGrainHybridGaussSeidelOp1.solves k m' n
             (DefaultFineGrainHybridGaussSeidelOp1.x k)
        /\ (forall (y : mem) (col : nat),
               (forall r, r < n ->
                  row_dot (DefaultFineGrainHybridGaussSeidelOp1.row_entries
                             k m' r) y col
                  = m' (DefaultFineGrainHybridGaussSeidelOp1.b k + r)) ->
               forall r, r < n ->
                 y (col + r)
                 = m' (DefaultFineGrainHybridGaussSeidelOp1.x k + r)))
  /\ (forall k : DefaultFineGrainHybridGaussSeidelOp2.t Scalar,
      let n := DefaultFineGrainHybridGaussSeidelOp2.numRows k in
      DefaultFineGrainHybridGaussSeidelOp2.damping_factor k = sone ->
      DefaultFineGrainHybridGaussSeidelOp2.lower_triangular k m n ->
      DefaultFineGrainHybridGaussSeidelOp2.diagonal_held k m n ->
      DefaultFineGrainHybridGaussSeidelOp2.x_apart k n ->
      exists m',
        sweep (DefaultFineGrainHybridGaussSeidelOp2.execute k) (range 0 n) m
        = Some m'
        /\ (forall a,
               ~ cells (DefaultFineGrainHybridGaussSeidelOp2.x k) n a ->
               m' a = m a)
        /\ DefaultFineGrainHybridGaussSeidelOp2.solves k m' n
             (DefaultFineGrainHybridGaussSeidelOp2.x k)
        /\ (forall (y : mem) (col : nat),
               (forall r, r < n ->
                  row_dot (DefaultFineGrainHybridGaussSeidelOp2.row_entries
                             k m' r) y col
                  = m' (DefaultFineGrainHybridGaussSeidelOp2.b k + r)) ->
               forall r, r < n ->
                 y (col + r)
                 = m' (DefaultFineGrainHybridGaussSeidelOp2.x k + r))).
Proof.
  split; intros k n Hw Hlow Hdiag Hapart.
  - apply (triangular_solve (DefaultFineGrainHybridGaussSeidelOp1.execute k)
             (DefaultFineGrainHybridGaussSeidelOp1.row_entries k)
             (DefaultFineGrainHybridGaussSeidelOp1.x k)
             (DefaultFineGrainHybridGaussSeidelOp1.b k)
             (DefaultFineGrainHybridGaussSeidelOp1.diag k) n m).
    + intros m' r Hr. rewrite <- Hw. now apply gs1_first_column.
    + intros m' r Hr Hm'. apply gs1_row_entries_ext. intros a Ha.
      apply Hm'. intros Hc. destruct (Hapart a Hc) as (_ & _ & H).
      now apply (H r).
    + intros a Hc. destruct (Hapart a Hc) as (H1 & H2 & _). now split.
    + exact Hlow.
    + exact Hdiag.
  - apply (triangular_solve (DefaultFineGrainHybridGaussSeidelOp2.execute k)
             (DefaultFineGrainHybridGaussSeidelOp2.row_entries k)
             (DefaultFineGrainHybridGaussSeidelOp2.x k)
             (DefaultFineGrainHybridGaussSeidelOp2.b k)
             (DefaultFineGrainHybridGaussSeidelOp2.diag k) n m).
    + intros m' r Hr. rewrite <- Hw. now apply gs2_first_column.
    + intros m' r Hr Hm'. apply gs2_row_entries_ext. intros a Ha.
      apply Hm'. intros Hc. destruct (Hapart a Hc) as (_ & _ & H).
      now apply (H r).
    + intros a Hc. destruct (Hapart a Hc) as (H1 & H2 & _). now split.
    + exact Hlow.
    + exact Hdiag.
Qed.

End Laws.

(** ** The concrete systems *)

Lemma Qc_entries_this (l l' : list (nat * Qc)) :
  map (fun e => (fst e, this (snd e))) l
  = map (fun e => (fst e, this (snd e))) l' ->
  l = l'.
Proof.
  revert l'. induction l as [|[c q] l IH]; intros [|[c' q'] l'] H;
    try discriminate.
  - reflexivity.
  - simpl in H. injection H as Hc Hq Hl. f_equal.
    + f_equal; [assumption|]. apply Qc_is_canon. rewrite Hq. reflexivity.
    + now apply IH.
Qed.

Lemma Qc_option_list_this (o o' : option (list Qc)) :
  option_map (map this) o = option_map (map this) o' -> o = o'.
Proof.
  destruct o as [l|], o' as [l'|]; simpl; intros H; try discriminate.
  - injection H as H. f_equal. now apply Qc_list_this.
  - reflexivity.
Qed.

Lemma Qc_this_neq (p q : Qc) : this p <> this q -> p <> q.
Proof. intros H E. apply H. now rewrite E. Qed.

(** C6. The 3x3 matrix with rows [(0,2),(1,5)], [(0,1),(1,3),(2,1)] and
    [(1,1),(2,4)], [b = [1,1,1]], [x0 = [0,0,0]] and damping factor one: the
    diagonal extractor of either storage, run on the three rows, leaves
    [diag = [2,3,4]], and one Jacobi sweep of either storage over the three
    flat indices then leaves [x = [1/2, 1/3, 1/4]]. *)
Theorem scenario_3x3 :
  map (ExtractDiagonalOp1.row_entries Example3x3.extract1 Example3x3.mem0)
      [0; 1; 2]
  = [[(0, Example3x3.qc 2 1); (1, Example3x3.qc 5 1)];
     [(0, Example3x3.qc 1 1); (1, Example3x3.qc 3 1); (2, Example3x3.qc 1 1)];
     [(1, Example3x3.qc 1 1); (2, Example3x3.qc 4 1)]]
  /\ map (ExtractDiagonalOp2.row_entries Example3x3.extract2 Example3x3.mem0)
         [0; 1; 2]
     = map (ExtractDiagonalOp1.row_entries Example3x3.extract1 Example3x3.mem0)
           [0; 1; 2]
  /\ read_array Example3x3.mem1 20 3
     = [Example3x3.qc 1 1; Example3x3.qc 1 1; Example3x3.qc 1 1]
  /\ read_array Example3x3.mem1 30 3
     = [Example3x3.qc 0 1; Example3x3.qc 0 1; Example3x3.qc 0 1]
  /\ read_array
       (sweep_total (ExtractDiagonalOp1.execute Example3x3.extract1)
                    (range 0 3) Example3x3.mem0) 10 3
     = [Example3x3.qc 2 1; Example3x3.qc 3 1; Example3x3.qc 4 1]
  /\ read_array
       (sweep_total (ExtractDiagonalOp2.execute Example3x3.extract2)
                    (range 0 3) Example3x3.mem0) 10 3
     = [Example3x3.qc 2 1; Example3x3.qc 3 1; Example3x3.qc 4 1]
  /\ option_map (fun m => read_array m 40 3)
       (sweep (DefaultJacobiOp1.execute
                 (Example3x3.jacobi1 (Example3x3.qc 1 1)))
              (range 0 3) Example3x3.mem1)
     = Some [Example3x3.qc 1 2; Example3x3.qc 1 3; Example3x3.qc 1 4]
  /\ option_map (fun m => read_array m 40 3)
       (sweep (DefaultJacobiOp2.execute
                 (Example3x3.jacobi2 (Example3x3.qc 1 1)))
              (range 0 3) Example3x3.mem1)
     = Some [Example3x3.qc 1 2; Example3x3.qc 1 3; Example3x3.qc 1 4].
Proof.
  split; [|split; [|split; [|split; [|split; [|split; [|split]]]]]].
  - simpl map. repeat f_equal; apply Qc_entries_this; vm_compute; reflexivity.
  - vm_compute. reflexivity.
  - apply Qc_list_this. vm_compute. reflexivity.
  - apply Qc_list_this. vm_compute. reflexivity.
  - apply Qc_list_this. vm_compute. reflexivity.
  - apply Qc_list_this. vm_compute. reflexivity.
  - apply Qc_option_list_this. vm_compute. reflexivity.
  - apply Qc_option_list_this. vm_compute. reflexivity.
Qed.

(** C1, as stated, fails. On the 3x3 system with [x = [9,8,7]] and damping
    factor one, [diag[0] = 2] is not zero, and the Gauss-Seidel update of
    flat index 0 stores [9 + (1 - (2*9 + 5*8)) / 2 = -39/2] into [x[0]]: the
    diagonal entry is part of the sum.  With the sum over the entries off the
    diagonal the value would be [9 + (1 - 5*8) / 2 = -21/2]. *)
Lemma gauss_seidel_sum_has_diagonal_entry :
  Example3x3.mem1
    (DefaultFineGrainHybridGaussSeidelOp1.diag_slot
       (Example3x3.gs1 (Example3x3.qc 1 1)) 0) <> szero
  /\ option_map (fun m => m 40)
       (DefaultFineGrainHybridGaussSeidelOp1.execute
          (Example3x3.gs1 (Example3x3.qc 1 1)) Example3x3.mem1 0)
     = Some (Example3x3.qc (-39) 2)
  /\ DefaultFineGrainHybridGaussSeidelOp1.update_value_off_diagonal
       (Example3x3.gs1 (Example3x3.qc 1 1)) Example3x3.mem1 0
     = Example3x3.qc (-21) 2
  /\ DefaultFineGrainHybridGaussSeidelOp1.execute
       (Example3x3.gs1 (Example3x3.qc 1 1)) Example3x3.mem1 0
     <> Some (store Example3x3.mem1
                (DefaultFineGrainHybridGaussSeidelOp1.x_slot
                   (Example3x3.gs1 (Example3x3.qc 1 1)) 0)
                (DefaultFineGrainHybridGaussSeidelOp1.update_value_off_diagonal
                   (Example3x3.gs1 (Example3x3.qc 1 1)) Example3x3.mem1 0)).
Proof.
  split; [|split; [|split]].
  - apply Qc_this_neq. vm_compute. discriminate.
  - match goal with
    | |- ?o = Some ?q =>
        assert (H : option_map this o = Some (this q))
          by (vm_compute; reflexivity);
        destruct o as [p|]; [|discriminate]
    end.
    simpl in H. injection H as H. f_equal. apply Qc_is_canon.
    rewrite H. reflexivity.
  - apply Qc_is_canon. vm_compute. reflexivity.
  - intros E.
    apply (f_equal (option_map (fun m : Mem Qc => this (m 40)))) in E.
    vm_compute in E. discriminate.
Qed.

(** C7, as stated, fails. With damping factor zero and [diag[0] = 0] the
    Jacobi update of flat index 0 has no defined result, so it does not
    store [x0[0]] into [x[0]]. *)
Lemma zero_diagonal_blocks_zero_damping :
  DefaultJacobiOp1.damping_factor jacobi_zero_diag = szero
  /\ Example3x3.mem0 (DefaultJacobiOp1.diag_slot jacobi_zero_diag 0) = szero
  /\ DefaultJacobiOp1.execute jacobi_zero_diag Example3x3.mem0 0 = None
  /\ ~ (exists m',
           DefaultJacobiOp1.execute jacobi_zero_diag Example3x3.mem0 0
           = Some m'
           /\ m' (DefaultJacobiOp1.x_slot jacobi_zero_diag 0)
              = Example3x3.mem0 (DefaultJacobiOp1.x0_slot jacobi_zero_diag 0)).
Proof.
  assert (H : DefaultJacobiOp1.execute jacobi_zero_diag Example3x3.mem0 0
              = None) by (vm_compute; reflexivity).
  split; [|split; [|split]].
  - reflexivity.
  - apply Qc_is_canon. vm_compute. reflexivity.
  - exact H.
  - intros (m' & E & _). rewrite H in E. discriminate.
Qed.

(** ** The properties at the concrete systems *)

Lemma diag_3x3_nonzero (r : nat) :
  r < 3 -> Example3x3.mem1 (10 + r) <> szero.
Proof.
  intros Hr. destruct r as [|[|[|r]]]; try lia;
    apply Qc_this_neq; vm_compute; discriminate.
Qed.

(** C1 as amended, on the 3x3 system, flat index 0. *)
Lemma gauss_seidel_update_witness :
  DefaultFineGrainHybridGaussSeidelOp1.execute
    (Example3x3.gs1 (Example3x3.qc 1 1)) Example3x3.mem1 0
  = Some (store Example3x3.mem1
            (DefaultFineGrainHybridGaussSeidelOp1.x_slot
               (Example3x3.gs1 (Example3x3.qc 1 1)) 0)
            (DefaultFineGrainHybridGaussSeidelOp1.update_value
               (Example3x3.gs1 (Example3x3.qc 1 1)) Example3x3.mem1 0)).
Proof.
  apply (proj1 (gauss_seidel_update Example3x3.mem1 0)).
  - simpl. discriminate.
  - apply (diag_3x3_nonzero 0). lia.
Defined.

(** C2 on the 3x3 system, flat index 1, second storage. *)
Lemma jacobi_update_witness :
  DefaultJacobiOp2.execute
    (Example3x3.jacobi2 (Example3x3.qc 1 1)) Example3x3.mem1 1
  = Some (store Example3x3.mem1
            (DefaultJacobiOp2.x_slot
               (Example3x3.jacobi2 (Example3x3.qc 1 1)) 1)
            (DefaultJacobiOp2.update_value
               (Example3x3.jacobi2 (Example3x3.qc 1 1)) Example3x3.mem1 1)).
Proof.
  apply (proj2 (jacobi_update Example3x3.mem1 1)).
  - simpl. discriminate.
  - apply (diag_3x3_nonzero 1). lia.
Defined.

(** C3 on row 1 of the 3x3 system, whose second entry is the diagonal
    one. *)
Lemma extract_diagonal_row_witness :
  In 1 (map fst (ExtractDiagonalOp1.row_entries
                   Example3x3.extract1 Example3x3.mem0 1))
  /\ exists before c after,
      range (ExtractDiagonalOp1.offsets Example3x3.extract1 1)
            (ExtractDiagonalOp1.offsets Example3x3.extract1 (1 + 1))
      = before ++ c :: after
      /\ (forall c', In c' before ->
                     ExtractDiagonalOp1.inds Example3x3.extract1 c' <> 1)
      /\ ExtractDiagonalOp1.inds Example3x3.extract1 c = 1
      /\ first_diagonal 1 (ExtractDiagonalOp1.row_entries
                             Example3x3.extract1 Example3x3.mem0 1)
         = Some (Example3x3.mem0
                   (ExtractDiagonalOp1.vals Example3x3.extract1 + c))
      /\ fst (ExtractDiagonalOp1.execute_log
                Example3x3.extract1 Example3x3.mem0 1) = before ++ [c]
      /\ ExtractDiagonalOp1.execute Example3x3.extract1 Example3x3.mem0 1
         = store Example3x3.mem0
                 (ExtractDiagonalOp1.diag Example3x3.extract1 + 1)
                 (Example3x3.mem0
                    (ExtractDiagonalOp1.vals Example3x3.extract1 + c)).
Proof.
  assert (H : In 1 (map fst (ExtractDiagonalOp1.row_entries
                               Example3x3.extract1 Example3x3.mem0 1))).
  { simpl. right. left. reflexivity. }
  split; [exact H|].
  exact (proj1 (proj1 (extract_diagonal_row Example3x3.mem0 1)
                  Example3x3.extract1) H).
Defined.

(** C4 on the 3x3 system, the rows taken in two different orders. *)
Lemma extract_diagonal_formats_agree_witness :
  read_array
    (sweep_total (ExtractDiagonalOp1.execute Example3x3.extract1)
                 (range 0 3) Example3x3.mem0)
    (ExtractDiagonalOp1.diag Example3x3.extract1)
    (ExtractDiagonalOp1.numRows Example3x3.extract1)
  = read_array
      (sweep_total (ExtractDiagonalOp2.execute Example3x3.extract2)
                   [2; 0; 1] Example3x3.mem0)
      (ExtractDiagonalOp2.diag Example3x3.extract2)
      (ExtractDiagonalOp2.numRows Example3x3.extract2).
Proof.
  apply extract_diagonal_formats_agree.
  - reflexivity.
  - intros r Hr. simpl in Hr.
    destruct r as [|[|[|r]]]; [reflexivity | reflexivity | reflexivity | lia].
  - intros r Hr. simpl in Hr.
    destruct r as [|[|[|r]]]; simpl; try lia; auto.
  - intros a r [H1 H2] Hr Hin. simpl in H1, H2, Hr.
    destruct r as [|[|[|r]]]; vm_compute in Hin; lia.
  - intros a r [H1 H2] Hr Hin. simpl in H1, H2, Hr.
    destruct r as [|[|[|r]]]; vm_compute in Hin; lia.
  - intros r. simpl. lia.
  - intros r. simpl. lia.
Defined.

(** C5 on the lower-triangular system. *)
Lemma gauss_seidel_triangular_solve_witness :
  exists m',
    sweep (DefaultFineGrainHybridGaussSeidelOp1.execute ExampleLower.gs1)
          (range 0 3) ExampleLower.mem0
    = Some m'
    /\ (forall a, ~ cells 40 3 a -> m' a = ExampleLower.mem0 a)
    /\ DefaultFineGrainHybridGaussSeidelOp1.solves ExampleLower.gs1 m' 3 40
    /\ (forall (y : Mem Qc) (col : nat),
           (forall r, r < 3 ->
              row_dot (DefaultFineGrainHybridGaussSeidelOp1.row_entries
                         ExampleLower.gs1 m' r) y col
              = m' (20 + r)) ->
           forall r, r < 3 -> y (col + r) = m' (40 + r)).
Proof.
  apply (proj1 (gauss_seidel_triangular_solve ExampleLower.mem0)
           ExampleLower.gs1).
  - reflexivity.
  - intros r e Hr Hin. simpl in Hr.
    destruct r as [|[|[|r]]]; try lia; vm_compute in Hin;
      repeat (destruct Hin as [<-|Hin]; [simpl; lia|]); contradiction.
  - intros r Hr. simpl in Hr.
    destruct r as [|[|[|r]]]; try lia;
      (split; [vm_compute; reflexivity
              | apply Qc_this_neq; vm_compute; discriminate]).
  - intros a [H1 H2]. simpl in H1, H2. unfold cells. simpl.
    split; [lia|]. split; [lia|].
    intros r Hr Hin.
    destruct r as [|[|[|r]]]; vm_compute in Hin; lia.
Defined.

(** C7 as amended, on the 3x3 system: two sweeps with damping factor
    zero. *)
Lemma jacobi_zero_damping_witness :
  exists m',
    sweeps (DefaultJacobiOp1.execute (Example3x3.jacobi1 (Example3x3.qc 0 1)))
           (range 0 3) 2 Example3x3.mem1
    = Some m'
    /\ (forall i, In i (range 0 3) ->
          m' (DefaultJacobiOp1.x_slot
                (Example3x3.jacobi1 (Example3x3.qc 0 1)) i)
          = m' (DefaultJacobiOp1.x0_slot
                  (Example3x3.jacobi1 (Example3x3.qc 0 1)) i))
    /\ (forall i, In i (range 0 3) ->
          m' (DefaultJacobiOp1.x0_slot
                (Example3x3.jacobi1 (Example3x3.qc 0 1)) i)
          = Example3x3.mem1
              (DefaultJacobiOp1.x0_slot
                 (Example3x3.jacobi1 (Example3x3.qc 0 1)) i)).
Proof.
  apply (proj1 (proj2 (proj2 (jacobi_zero_damping Example3x3.mem1)))
           (Example3x3.jacobi1 (Example3x3.qc 0 1)) (range 0 3) 1).
  - simpl. discriminate.
  - reflexivity.
  - intros i Hi. simpl in Hi.
    destruct Hi as [<-|[<-|[<-|[]]]];
      apply Qc_this_neq; vm_compute; discriminate.
  - intros i j Hi Hj. simpl in Hi, Hj.
    destruct Hi as [<-|[<-|[<-|[]]]]; destruct Hj as [<-|[<-|[<-|[]]]];
      vm_compute; split; intros E; discriminate E.
Defined.

(** C9 on the 3x3 system: the Jacobi update of flat
    index 0 changes the cell 40 only, and the flat indices 0 and 1 have
    different cells. *)
Lemma update_writes_one_slot_witness :
  (forall m' : Mem Qc,
      DefaultJacobiOp1.execute (Example3x3.jacobi1 (Example3x3.qc 1 1))
                               Example3x3.mem1 0 = Some m' ->
      (exists v, m' = store Example3x3.mem1 (40 + 0 / 3 * 3 + 0 mod 3) v)
      /\ (forall a, a <> 40 + 0 / 3 * 3 + 0 mod 3 -> m' a = Example3x3.mem1 a))
  /\ DefaultJacobiOp1.x_slot (Example3x3.jacobi1 (Example3x3.qc 1 1)) 0
     <> DefaultJacobiOp1.x_slot (Example3x3.jacobi1 (Example3x3.qc 1 1)) 1.
Proof.
  split.
  - exact (proj1 (update_writes_one_slot Example3x3.mem1 0)
             (Example3x3.jacobi1 (Example3x3.qc 1 1))).
  - apply (proj1 (proj2 (proj2 (proj2 (proj2
             (update_writes_one_slot Example3x3.mem1 0)))))
             (Example3x3.jacobi1 (Example3x3.qc 1 1)) 1).
    + simpl. discriminate.
    + discriminate.
    + simpl. lia.
Defined.

(** C10 on the 3x3 system, flat index 2. *)
Lemma jacobi_x0_has_xstride_witness :
  DefaultJacobiOp1.execute (Example3x3.jacobi1 (Example3x3.qc 1 1))
                           Example3x3.mem1 2
  = Some (store Example3x3.mem1 (40 + 2 / 3 * 3 + 2 mod 3)
            (Example3x3.mem1 (30 + 2 / 3 * 3 + 2 mod 3)%nat
             + Example3x3.qc 1 1
               * (Example3x3.mem1 (20 + 2 / 3 * 3 + 2 mod 3)%nat
                  - ssum (map (fun e => snd e
                                        * Example3x3.mem1
                                            (30 + 2 / 3 * 3 + fst e)%nat)
                              (DefaultJacobiOp1.row_entries
                                 (Example3x3.jacobi1 (Example3x3.qc 1 1))
                                 Example3x3.mem1 (2 mod 3))))
               / Example3x3.mem1 (10 + 2 mod 3)%nat)%S).
Proof.
  apply (proj1 (jacobi_x0_has_xstride Example3x3.mem1 2)
           (Example3x3.jacobi1 (Example3x3.qc 1 1))).
  - simpl. discriminate.
  - apply (diag_3x3_nonzero 2). lia.
Defined.

(** ** Further properties of the kernels *)

Section MoreLaws.
Context {Scalar : Type} {O : ScalarOps Scalar} {F : ScalarField Scalar}.
Local Abbreviation mem := (Mem Scalar).

Add Field scalar_fld' : scalar_field.

(** *** When an update has a result *)




(** *** What a Gauss-Seidel update writes, and its columns *)

(** X2. One Gauss-Seidel update of flat index [i], in either storage, is one
    store into [x] at offset [(i / numRows) * xstride + i mod numRows]; every
    other cell of the memory keeps its contents. *)
Theorem gauss_seidel_writes_one_slot (m : mem) (i : nat) :
  (forall (k : DefaultFineGrainHybridGaussSeidelOp1.t Scalar) (m' : mem),
      DefaultFineGrainHybridGaussSeidelOp1.execute k m i = Some m' ->
      (exists v,
          m' = store m (DefaultFineGrainHybridGaussSeidelOp1.x_slot k i) v)
      /\ (forall a,
             a <> DefaultFineGrainHybridGaussSeidelOp1.x k
                  + i / DefaultFineGrainHybridGaussSeidelOp1.numRows k
                    * DefaultFineGrainHybridGaussSeidelOp1.xstride k
                  + i mod DefaultFineGrainHybridGaussSeidelOp1.numRows k ->
             m' a = m a))
  /\ (forall (k : DefaultFineGrainHybridGaussSeidelOp2.t Scalar) (m' : mem),
      DefaultFineGrainHybridGaussSeidelOp2.execute k m i = Some m' ->
      (exists v,
          m' = store m (DefaultFineGrainHybridGaussSeidelOp2.x_slot k i) v)
      /\ (forall a,
             a <> DefaultFineGrainHybridGaussSeidelOp2.x k
                  + i / DefaultFineGrainHybridGaussSeidelOp2.numRows k
                    * DefaultFineGrainHybridGaussSeidelOp2.xstride k
                  + i mod DefaultFineGrainHybridGaussSeidelOp2.numRows k ->
             m' a = m a)).
Proof.
  split; intros k m' H.
  - destruct (Nat.eq_dec (DefaultFineGrainHybridGaussSeidelOp1.numRows k) 0)
      as [E|Hn].
    + unfold DefaultFineGrainHybridGaussSeidelOp1.execute in H.
      rewrite E in H. discriminate.
    + rewrite gs1_relax in H by assumption.
      split; [|now apply (relax_frame _ _ _ _ _ _ _ _ _ H)].
      apply relax_some in H. destruct H as [_ ->]. now eexists.
  - destruct (Nat.eq_dec (DefaultFineGrainHybridGaussSeidelOp2.numRows k) 0)
      as [E|Hn].
    + unfold DefaultFineGrainHybridGaussSeidelOp2.execute in H.
      rewrite E in H. discriminate.
    + rewrite gs2_relax in H by assumption.
      split; [|now apply (relax_frame _ _ _ _ _ _ _ _ _ H)].
      apply relax_some in H. destruct H as [_ ->]. now eexists.
Qed.

Lemma gs1_column (k : DefaultFineGrainHybridGaussSeidelOp1.t Scalar)
      (m : mem) (j r : nat) :
  r < DefaultFineGrainHybridGaussSeidelOp1.numRows k ->
  DefaultFineGrainHybridGaussSeidelOp1.execute k m
    (j * DefaultFineGrainHybridGaussSeidelOp1.numRows k + r)
  = DefaultFineGrainHybridGaussSeidelOp1.execute
      (DefaultFineGrainHybridGaussSeidelOp1.single_rhs k j) m r.
Proof.
  intros Hr. unfold DefaultFineGrainHybridGaussSeidelOp1.execute. simpl.
  destruct (Nat.eqb_spec (DefaultFineGrainHybridGaussSeidelOp1.numRows k) 0)
    as [E|Hn]; [reflexivity|].
  rewrite !rhs_quotient by assumption.
  rewrite flat_index_row, flat_index_rhs by assumption.
  rewrite (Nat.mod_small r), (Nat.div_small r) by assumption.
  rewrite !Nat.add_0_r. reflexivity.
Qed.

Lemma gs2_column (k : DefaultFineGrainHybridGaussSeidelOp2.t Scalar)
      (m : mem) (j r : nat) :
  r < DefaultFineGrainHybridGaussSeidelOp2.numRows k ->
  DefaultFineGrainHybridGaussSeidelOp2.execute k m
    (j * DefaultFineGrainHybridGaussSeidelOp2.numRows k + r)
  = DefaultFineGrainHybridGaussSeidelOp2.execute
      (DefaultFineGrainHybridGaussSeidelOp2.single_rhs k j) m r.
Proof.
  intros Hr. unfold DefaultFineGrainHybridGaussSeidelOp2.execute. simpl.
  destruct (Nat.eqb_spec (DefaultFineGrainHybridGaussSeidelOp2.numRows k) 0)
    as [E|Hn]; [reflexivity|].
  rewrite !rhs_quotient by assumption.
  rewrite flat_index_row, flat_index_rhs by assumption.
  rewrite (Nat.mod_small r), (Nat.div_small r) by assumption.
  rewrite !Nat.add_0_r. reflexivity.
Qed.

(** X3. For either storage, one Gauss-Seidel sweep over the flat range
    [0 <= i < numRows * numRHS], in increasing order, is the [numRHS] sweeps
    over [0 <= r < numRows] of the single-right-hand-side kernels whose [x]
    and [b] start at column [j], for [j = 0, ..., numRHS - 1]: both leave the
    same memory, or neither has a result. *)
Theorem gauss_seidel_multivector (m : mem) (numRHS : nat) :
  (forall k : DefaultFineGrainHybridGaussSeidelOp1.t Scalar,
      sweep (DefaultFineGrainHybridGaussSeidelOp1.execute k)
            (range 0 (DefaultFineGrainHybridGaussSeidelOp1.numRows k * numRHS))
            m
      = sweep_columns
          (fun j => DefaultFineGrainHybridGaussSeidelOp1.execute
                      (DefaultFineGrainHybridGaussSeidelOp1.single_rhs k j))
          (range 0 (DefaultFineGrainHybridGaussSeidelOp1.numRows k))
          (range 0 numRHS) m)
  /\ (forall k : DefaultFineGrainHybridGaussSeidelOp2.t Scalar,
      sweep (DefaultFineGrainHybridGaussSeidelOp2.execute k)
            (range 0 (DefaultFineGrainHybridGaussSeidelOp2.numRows k * numRHS))
            m
      = sweep_columns
          (fun j => DefaultFineGrainHybridGaussSeidelOp2.execute
                      (DefaultFineGrainHybridGaussSeidelOp2.single_rhs k j))
          (range 0 (DefaultFineGrainHybridGaussSeidelOp2.numRows k))
          (range 0 numRHS) m).
Proof.
  split; intros k; apply sweep_by_columns; intros m' j r Hr.
  - now apply gs1_column.
  - now apply gs2_column.
Qed.

(** *** The two storages, and Jacobi in place *)

(** X4. The kernels of the two storages agree: for a Jacobi, or a
    Gauss-Seidel, kernel of each storage with the same vectors, strides,
    damping factor and number of rows, and a memory in which the row of the
    flat index [i] has the same sequence of entries in both storages, the two
    updates of [i] leave the same memory, or neither has a result. *)
Theorem relaxation_formats_agree (m : mem) (i : nat) :
  (forall (k1 : DefaultJacobiOp1.t Scalar) (k2 : DefaultJacobiOp2.t Scalar),
      DefaultJacobiOp2.same_vectors k1 k2 ->
      DefaultJacobiOp1.row_entries k1 m (i mod DefaultJacobiOp1.numRows k1)
      = DefaultJacobiOp2.row_entries k2 m (i mod DefaultJacobiOp1.numRows k1) ->
      DefaultJacobiOp1.execute k1 m i = DefaultJacobiOp2.execute k2 m i)
  /\ (forall (k1 : DefaultFineGrainHybridGaussSeidelOp1.t Scalar)
             (k2 : DefaultFineGrainHybridGaussSeidelOp2.t Scalar),
      DefaultFineGrainHybridGaussSeidelOp2.same_vectors k1 k2 ->
      DefaultFineGrainHybridGaussSeidelOp1.row_entries k1 m
        (i mod DefaultFineGrainHybridGaussSeidelOp1.numRows k1)
      = DefaultFineGrainHybridGaussSeidelOp2.row_entries k2 m
          (i mod DefaultFineGrainHybridGaussSeidelOp1.numRows k1) ->
      DefaultFineGrainHybridGaussSeidelOp1.execute k1 m i
      = DefaultFineGrainHybridGaussSeidelOp2.execute k2 m i).
Proof.
  split; intros k1 k2 (Hn & Hd & Hx & H) Hrows.
  - destruct H as (Hx0 & Hb & Hw & Hxs & Hbs).
    destruct (Nat.eq_dec (DefaultJacobiOp1.numRows k1) 0) as [E|Hn1].
    + unfold DefaultJacobiOp1.execute, DefaultJacobiOp2.execute.
      now rewrite Hn, E.
    + rewrite jacobi1_relax, jacobi2_relax by congruence.
      unfold DefaultJacobiOp1.b_slot, DefaultJacobiOp1.diag_slot,
        DefaultJacobiOp1.x0_column, DefaultJacobiOp1.x_slot,
        DefaultJacobiOp1.row_of, DefaultJacobiOp1.rhs_of,
        DefaultJacobiOp2.b_slot, DefaultJacobiOp2.diag_slot,
        DefaultJacobiOp2.x0_column, DefaultJacobiOp2.x_slot,
        DefaultJacobiOp2.row_of, DefaultJacobiOp2.rhs_of.
      now rewrite Hn, Hd, Hx, Hx0, Hb, Hw, Hxs, Hbs, Hrows.
  - destruct H as (Hb & Hw & Hxs & Hbs).
    destruct (Nat.eq_dec (DefaultFineGrainHybridGaussSeidelOp1.numRows k1) 0)
      as [E|Hn1].
    + unfold DefaultFineGrainHybridGaussSeidelOp1.execute,
        DefaultFineGrainHybridGaussSeidelOp2.execute.
      now rewrite Hn, E.
    + rewrite gs1_relax, gs2_relax by congruence.
      unfold DefaultFineGrainHybridGaussSeidelOp1.b_slot,
        DefaultFineGrainHybridGaussSeidelOp1.diag_slot,
        DefaultFineGrainHybridGaussSeidelOp1.x_slot,
        DefaultFineGrainHybridGaussSeidelOp1.x_column,
        DefaultFineGrainHybridGaussSeidelOp1.row_of,
        DefaultFineGrainHybridGaussSeidelOp1.rhs_of,
        DefaultFineGrainHybridGaussSeidelOp2.b_slot,
        DefaultFineGrainHybridGaussSeidelOp2.diag_slot,
        DefaultFineGrainHybridGaussSeidelOp2.x_slot,
        DefaultFineGrainHybridGaussSeidelOp2.x_column,
        DefaultFineGrainHybridGaussSeidelOp2.row_of,
        DefaultFineGrainHybridGaussSeidelOp2.rhs_of.
      now rewrite Hn, Hd, Hx, Hb, Hw, Hxs, Hbs, Hrows.
Qed.

(** X5. A Jacobi kernel whose previous iterate [x0] is its output [x] (the
    sweep run in place) is the Gauss-Seidel kernel of the same storage on
    the same matrix, [diag], [x] and [b]: every update of the one is the
    update of the other. *)
Theorem jacobi_in_place_is_gauss_seidel (m : mem) (i : nat) :
  (forall k : DefaultJacobiOp1.t Scalar,
      DefaultJacobiOp1.x0 k = DefaultJacobiOp1.x k ->
      DefaultJacobiOp1.execute k m i
      = DefaultFineGrainHybridGaussSeidelOp1.execute
          (DefaultFineGrainHybridGaussSeidelOp1.of_jacobi k) m i)
  /\ (forall k : DefaultJacobiOp2.t Scalar,
      DefaultJacobiOp2.x0 k = DefaultJacobiOp2.x k ->
      DefaultJacobiOp2.execute k m i
      = DefaultFineGrainHybridGaussSeidelOp2.execute
          (DefaultFineGrainHybridGaussSeidelOp2.of_jacobi k) m i).
Proof.
  split; intros k H.
  - unfold DefaultJacobiOp1.execute,
      DefaultFineGrainHybridGaussSeidelOp1.execute. simpl.
    rewrite H. reflexivity.
  - unfold DefaultJacobiOp2.execute,
      DefaultFineGrainHybridGaussSeidelOp2.execute. simpl.
    rewrite H. reflexivity.
Qed.

(** *** The updates in their textbook form *)

Lemma relax_classical (es : list (nat * Scalar)) (omega : Scalar) (m : mem)
      (bslot dslot col r wslot : nat) :
  on_diagonal r es = [(r, m dslot)] ->
  m dslot <> szero ->
  relax es omega m bslot dslot col (col + r) wslot
  = Some (store m wslot
            ((sone - omega) * m (col + r)%nat
             + omega * (m bslot - row_dot (off_diagonal r es) m col)
               / m dslot)%S).
Proof.
  intros Hone Hd. rewrite relax_defined by assumption.
  rewrite (row_dot_diagonal r (m dslot) es m col Hone).
  do 2 f_equal. field. assumption.
Qed.

(** X6. For a matrix in either storage whose row [r] has exactly one
    diagonal entry, not zero and held by [diag[r]], the Jacobi update stores
    [(1 - omega) * x0[r,rhs]
     + omega * (b[r,rhs] - sum of v * x0[c,rhs] over the entries with c <> r)
       / diag[r]]
    into [x[r,rhs]]: the damped Jacobi step in its textbook form. *)
Theorem jacobi_classical_form (m : mem) (i : nat) :
  (forall k : DefaultJacobiOp1.t Scalar,
      DefaultJacobiOp1.numRows k <> 0 ->
      on_diagonal (DefaultJacobiOp1.row_of k i)
                  (DefaultJacobiOp1.row_entries k m
                     (DefaultJacobiOp1.row_of k i))
      = [(DefaultJacobiOp1.row_of k i, m (DefaultJacobiOp1.diag_slot k i))] ->
      m (DefaultJacobiOp1.diag_slot k i) <> szero ->
      DefaultJacobiOp1.execute k m i
      = Some (store m (DefaultJacobiOp1.x_slot k i)
                (DefaultJacobiOp1.classical_value k m i)))
  /\ (forall k : DefaultJacobiOp2.t Scalar,
      DefaultJacobiOp2.numRows k <> 0 ->
      on_diagonal (DefaultJacobiOp2.row_of k i)
                  (DefaultJacobiOp2.row_entries k m
                     (DefaultJacobiOp2.row_of k i))
      = [(DefaultJacobiOp2.row_of k i, m (DefaultJacobiOp2.diag_slot k i))] ->
      m (DefaultJacobiOp2.diag_slot k i) <> szero ->
      DefaultJacobiOp2.execute k m i
      = Some (store m (DefaultJacobiOp2.x_slot k i)
                (DefaultJacobiOp2.classical_value k m i))).
Proof.
  split; intros k Hn Hone Hd.
  - rewrite jacobi1_relax by assumption.
    now rewrite (relax_classical _ _ _ _ _ _ _ _ Hone Hd).
  - rewrite jacobi2_relax by assumption.
    now rewrite (relax_classical _ _ _ _ _ _ _ _ Hone Hd).
Qed.

(** X7. For a matrix in either storage whose row [r] has exactly one
    diagonal entry, not zero and held by [diag[r]], the Gauss-Seidel update
    replaces [x[r,rhs]] by
    [(1 - omega) * x[r,rhs]
     + omega * (b[r,rhs] - sum of v * x[c,rhs] over the entries with c <> r)
       / diag[r]]:
    the sum the code takes over the whole row and adds to [x[r,rhs]] is the
    successive over-relaxation step whose sum leaves the diagonal out. *)
Theorem gauss_seidel_classical_form (m : mem) (i : nat) :
  (forall k : DefaultFineGrainHybridGaussSeidelOp1.t Scalar,
      DefaultFineGrainHybridGaussSeidelOp1.numRows k <> 0 ->
      on_diagonal (DefaultFineGrainHybridGaussSeidelOp1.row_of k i)
                  (DefaultFineGrainHybridGaussSeidelOp1.row_entries k m
                     (DefaultFineGrainHybridGaussSeidelOp1.row_of k i))
      = [(DefaultFineGrainHybridGaussSeidelOp1.row_of k i,
          m (DefaultFineGrainHybridGaussSeidelOp1.diag_slot k i))] ->
      m (DefaultFineGrainHybridGaussSeidelOp1.diag_slot k i) <> szero ->
      DefaultFineGrainHybridGaussSeidelOp1.execute k m i
      = Some (store m (DefaultFineGrainHybridGaussSeidelOp1.x_slot k i)
                (DefaultFineGrainHybridGaussSeidelOp1.classical_value k m i)))
  /\ (forall k : DefaultFineGrainHybridGaussSeidelOp2.t Scalar,
      DefaultFineGrainHybridGaussSeidelOp2.numRows k <> 0 ->
      on_diagonal (DefaultFineGrainHybridGaussSeidelOp2.row_of k i)
                  (DefaultFineGrainHybridGaussSeidelOp2.row_entries k m
                     (DefaultFineGrainHybridGaussSeidelOp2.row_of k i))
      = [(DefaultFineGrainHybridGaussSeidelOp2.row_of k i,
          m (DefaultFineGrainHybridGaussSeidelOp2.diag_slot k i))] ->
      m (DefaultFineGrainHybridGaussSeidelOp2.diag_slot k i) <> szero ->
      DefaultFineGrainHybridGaussSeidelOp2.execute k m i
      = Some (store m (DefaultFineGrainHybridGaussSeidelOp2.x_slot k i)
                (DefaultFineGrainHybridGaussSeidelOp2.classical_value k m i))).
Proof.
  split; intros k Hn Hone Hd.
  - rewrite gs1_relax by assumption.
    unfold DefaultFineGrainHybridGaussSeidelOp1.x_slot at 1 2.
    now rewrite (relax_classical _ _ _ _ _ _ _ _ Hone Hd).
  - rewrite gs2_relax by assumption.
    unfold DefaultFineGrainHybridGaussSeidelOp2.x_slot at 1 2.
    now rewrite (relax_classical _ _ _ _ _ _ _ _ Hone Hd).
Qed.

(** *** Solved rows *)

Lemma relax_solved (es : list (nat * Scalar)) (omega : Scalar) (m : mem)
      (bslot dslot col rslot wslot : nat) :
  m dslot <> szero ->
  row_dot es m col = m bslot ->
  relax es omega m bslot dslot col rslot wslot
  = Some (store m wslot (m rslot)).
Proof.
  intros Hd Hsol. rewrite relax_defined, Hsol by assumption.
  do 2 f_equal. field. assumption.
Qed.

(** X8. A solved row is a fixed point of the Jacobi update.  For a matrix in
    either storage, any damping factor and [diag[r] <> 0]: if the sum of
    [v * x0[c,rhs]] over the entries of row [r] is [b[r,rhs]], the update
    stores [x0[r,rhs]] itself into [x[r,rhs]]. *)
Theorem jacobi_solved_row (m : mem) (i : nat) :
  (forall k : DefaultJacobiOp1.t Scalar,
      DefaultJacobiOp1.numRows k <> 0 ->
      m (DefaultJacobiOp1.diag_slot k i) <> szero ->
      row_dot (DefaultJacobiOp1.row_entries k m (DefaultJacobiOp1.row_of k i))
              m (DefaultJacobiOp1.x0_column k i)
      = m (DefaultJacobiOp1.b_slot k i) ->
      DefaultJacobiOp1.execute k m i
      = Some (store m (DefaultJacobiOp1.x_slot k i)
                (m (DefaultJacobiOp1.x0_slot k i))))
  /\ (forall k : DefaultJacobiOp2.t Scalar,
      DefaultJacobiOp2.numRows k <> 0 ->
      m (DefaultJacobiOp2.diag_slot k i) <> szero ->
      row_dot (DefaultJacobiOp2.row_entries k m (DefaultJacobiOp2.row_of k i))
              m (DefaultJacobiOp2.x0_column k i)
      = m (DefaultJacobiOp2.b_slot k i) ->
      DefaultJacobiOp2.execute k m i
      = Some (store m (DefaultJacobiOp2.x_slot k i)
                (m (DefaultJacobiOp2.x0_slot k i)))).
Proof.
  split; intros k Hn Hd Hsol.
  - rewrite jacobi1_relax by assumption. now apply relax_solved.
  - rewrite jacobi2_relax by assumption. now apply relax_solved.
Qed.

(** X9. On a row that holds its diagonal entry only, the Jacobi update with
    damping factor one solves the row at once: whatever [x0] holds, it
    stores [b[r,rhs] / diag[r]] into [x[r,rhs]]. *)
Theorem jacobi_diagonal_row (m : mem) (i : nat) :
  (forall k : DefaultJacobiOp1.t Scalar,
      DefaultJacobiOp1.numRows k <> 0 ->
      DefaultJacobiOp1.damping_factor k = sone ->
      DefaultJacobiOp1.row_entries k m (DefaultJacobiOp1.row_of k i)
      = [(DefaultJacobiOp1.row_of k i, m (DefaultJacobiOp1.diag_slot k i))] ->
      m (DefaultJacobiOp1.diag_slot k i) <> szero ->
      DefaultJacobiOp1.execute k m i
      = Some (store m (DefaultJacobiOp1.x_slot k i)
                (m (DefaultJacobiOp1.b_slot k i)
                 / m (DefaultJacobiOp1.diag_slot k i))%S))
  /\ (forall k : DefaultJacobiOp2.t Scalar,
      DefaultJacobiOp2.numRows k <> 0 ->
      DefaultJacobiOp2.damping_factor k = sone ->
      DefaultJacobiOp2.row_entries k m (DefaultJacobiOp2.row_of k i)
      = [(DefaultJacobiOp2.row_of k i, m (DefaultJacobiOp2.diag_slot k i))] ->
      m (DefaultJacobiOp2.diag_slot k i) <> szero ->
      DefaultJacobiOp2.execute k m i
      = Some (store m (DefaultJacobiOp2.x_slot k i)
                (m (DefaultJacobiOp2.b_slot k i)
                 / m (DefaultJacobiOp2.diag_slot k i))%S)).
Proof.
  split; intros k Hn Hw Hrow Hd.
  - rewrite jacobi1_relax, Hw, Hrow, relax_defined by assumption.
    do 2 f_equal. unfold row_dot. simpl. field. assumption.
  - rewrite jacobi2_relax, Hw, Hrow, relax_defined by assumption.
    do 2 f_equal. unfold row_dot. simpl. field. assumption.
Qed.

(** A sweep of a kernel each of whose updates leaves every cell as it is. *)
Lemma fixed_sweep (f : mem -> nat -> option mem) (idx : list nat) (m : mem) :
  (forall m' i, In i idx -> (forall a, m' a = m a) ->
                exists m'', f m' i = Some m'' /\ forall a, m'' a = m a) ->
  forall m0, (forall a, m0 a = m a) ->
             exists m', sweep f idx m0 = Some m' /\ forall a, m' a = m a.
Proof.
  induction idx as [|i idx IH]; intros Hf m0 H0.
  - exists m0. now split.
  - destruct (Hf m0 i) as (m1 & E & H1); [now left | assumption |].
    destruct (IH) with (m0 := m1) as (m' & Hs & Hm'); [|assumption|].
    + intros m2 j Hj. apply Hf. now right.
    + exists m'. simpl. rewrite E. now split.
Qed.

Lemma fixed_sweeps (f : mem -> nat -> option mem) (idx : list nat) (m : mem) :
  (forall m' i, In i idx -> (forall a, m' a = m a) ->
                exists m'', f m' i = Some m'' /\ forall a, m'' a = m a) ->
  forall n m0, (forall a, m0 a = m a) ->
               exists m', sweeps f idx n m0 = Some m' /\ forall a, m' a = m a.
Proof.
  intros Hf n. induction n as [|n IH]; intros m0 H0.
  - exists m0. now split.
  - destruct (fixed_sweep f idx m Hf m0 H0) as (m1 & E & H1).
    destruct (IH m1 H1) as (m' & Hs & Hm').
    exists m'. simpl. rewrite E. now split.
Qed.

(** An update on a solved row, in a memory equal cell by cell to [m]. *)
Lemma relax_solved_pointwise (es es' : list (nat * Scalar)) (omega : Scalar)
      (m m' : mem) (bslot dslot col slot : nat) :
  (forall a, m' a = m a) ->
  es' = es ->
  m dslot <> szero ->
  row_dot es m col = m bslot ->
  exists m'',
    relax es' omega m' bslot dslot col slot slot = Some m''
    /\ forall a, m'' a = m a.
Proof.
  intros Hm' -> Hd Hsol.
  exists (store m' slot (m' slot)). split.
  - apply relax_solved.
    + now rewrite Hm'.
    + rewrite Hm', <- Hsol. apply row_dot_ext. intros e _. apply Hm'.
  - intros a. unfold store. destruct (Nat.eqb_spec a slot) as [->|_]; apply Hm'.
Qed.

Lemma gs1_solved_update (k : DefaultFineGrainHybridGaussSeidelOp1.t Scalar)
      (m m' : mem) (i : nat) :
  DefaultFineGrainHybridGaussSeidelOp1.numRows k <> 0 ->
  m (DefaultFineGrainHybridGaussSeidelOp1.diag_slot k i) <> szero ->
  row_dot (DefaultFineGrainHybridGaussSeidelOp1.row_entries k m
             (DefaultFineGrainHybridGaussSeidelOp1.row_of k i))
          m (DefaultFineGrainHybridGaussSeidelOp1.x_column k i)
  = m (DefaultFineGrainHybridGaussSeidelOp1.b_slot k i) ->
  (forall a, m' a = m a) ->
  exists m'',
    DefaultFineGrainHybridGaussSeidelOp1.execute k m' i = Some m''
    /\ forall a, m'' a = m a.
Proof.
  intros Hn Hd Hsol Hm'. rewrite gs1_relax by assumption.
  apply (relax_solved_pointwise
           (DefaultFineGrainHybridGaussSeidelOp1.row_entries k m
              (DefaultFineGrainHybridGaussSeidelOp1.row_of k i)));
    try assumption.
  apply gs1_row_entries_ext. intros a _. apply Hm'.
Qed.

Lemma gs2_solved_update (k : DefaultFineGrainHybridGaussSeidelOp2.t Scalar)
      (m m' : mem) (i : nat) :
  DefaultFineGrainHybridGaussSeidelOp2.numRows k <> 0 ->
  m (DefaultFineGrainHybridGaussSeidelOp2.diag_slot k i) <> szero ->
  row_dot (DefaultFineGrainHybridGaussSeidelOp2.row_entries k m
             (DefaultFineGrainHybridGaussSeidelOp2.row_of k i))
          m (DefaultFineGrainHybridGaussSeidelOp2.x_column k i)
  = m (DefaultFineGrainHybridGaussSeidelOp2.b_slot k i) ->
  (forall a, m' a = m a) ->
  exists m'',
    DefaultFineGrainHybridGaussSeidelOp2.execute k m' i = Some m''
    /\ forall a, m'' a = m a.
Proof.
  intros Hn Hd Hsol Hm'. rewrite gs2_relax by assumption.
  apply (relax_solved_pointwise
           (DefaultFineGrainHybridGaussSeidelOp2.row_entries k m
              (DefaultFineGrainHybridGaussSeidelOp2.row_of k i)));
    try assumption.
  apply gs2_row_entries_ext. intros a _. apply Hm'.
Qed.

(** X10. A solved system is a fixed point of Gauss-Seidel.  For a matrix in
    either storage, any damping factor, and flat indices [idx], taken in any
    order and any number of times, whose rows have a nonzero [diag[r]] and
    are solved by [x] (the sum of [v * x[c,rhs]] over the row is
    [b[r,rhs]]): any number of sweeps over [idx] has a result and leaves
    every cell of the memory with the contents it had. *)
Theorem gauss_seidel_solved_system (m : mem) (idx : list nat) (n : nat) :
  (forall k : DefaultFineGrainHybridGaussSeidelOp1.t Scalar,
      DefaultFineGrainHybridGaussSeidelOp1.numRows k <> 0 ->
      (forall i, In i idx ->
         m (DefaultFineGrainHybridGaussSeidelOp1.diag_slot k i) <> szero
         /\ row_dot (DefaultFineGrainHybridGaussSeidelOp1.row_entries k m
                       (DefaultFineGrainHybridGaussSeidelOp1.row_of k i))
                    m (DefaultFineGrainHybridGaussSeidelOp1.x_column k i)
            = m (DefaultFineGrainHybridGaussSeidelOp1.b_slot k i)) ->
      exists m',
        sweeps (DefaultFineGrainHybridGaussSeidelOp1.execute k) idx n m
        = Some m'
        /\ forall a, m' a = m a)
  /\ (forall k : DefaultFineGrainHybridGaussSeidelOp2.t Scalar,
      DefaultFineGrainHybridGaussSeidelOp2.numRows k <> 0 ->
      (forall i, In i idx ->
         m (DefaultFineGrainHybridGaussSeidelOp2.diag_slot k i) <> szero
         /\ row_dot (DefaultFineGrainHybridGaussSeidelOp2.row_entries k m
                       (DefaultFineGrainHybridGaussSeidelOp2.row_of k i))
                    m (DefaultFineGrainHybridGaussSeidelOp2.x_column k i)
            = m (DefaultFineGrainHybridGaussSeidelOp2.b_slot k i)) ->
      exists m',
        sweeps (DefaultFineGrainHybridGaussSeidelOp2.execute k) idx n m
        = Some m'
        /\ forall a, m' a = m a).
Proof.
  split; intros k Hn Hsol.
  - apply (fixed_sweeps (DefaultFineGrainHybridGaussSeidelOp1.execute k)
             idx m); [|reflexivity].
    intros m' i Hi Hm'. destruct (Hsol i Hi) as [Hd Hrow].
    now apply gs1_solved_update.
  - apply (fixed_sweeps (DefaultFineGrainHybridGaussSeidelOp2.execute k)
             idx m); [|reflexivity].
    intros m' i Hi Hm'. destruct (Hsol i Hi) as [Hd Hrow].
    now apply gs2_solved_update.
Qed.

(** *** A Jacobi sweep in any order *)

(** A sweep of a kernel that stores the value [val i], fixed beforehand, into
    the cell [dst i], as long as the cells outside the [dst] of [all] are
    those of [m]. *)
Lemma write_sweep (f : mem -> nat -> option mem) (dst : nat -> nat)
      (val : nat -> Scalar) (all : list nat) (m : mem) :
  (forall m' i, In i all ->
                (forall a, (forall j, In j all -> a <> dst j) -> m' a = m a) ->
                f m' i = Some (store m' (dst i) (val i))) ->
  (forall i j, In i all -> In j all -> dst i = dst j -> val i = val j) ->
  forall idx m0,
    incl idx all ->
    (forall a, (forall j, In j all -> a <> dst j) -> m0 a = m a) ->
    exists m',
      sweep f idx m0 = Some m'
      /\ (forall i, In i idx -> m' (dst i) = val i)
      /\ (forall a, (forall i, In i idx -> a <> dst i) -> m' a = m0 a).
Proof.
  intros Hf Hval. induction idx as [|i idx IH]; intros m0 Hincl H0.
  - exists m0. repeat split. intros i [].
  - assert (Hi : In i all) by (apply Hincl; now left).
    simpl. rewrite (Hf m0 i Hi H0). simpl.
    set (m1 := store m0 (dst i) (val i)).
    destruct (IH m1) as (m' & Hs & Hv & Hfr).
    + intros j Hj. apply Hincl. now right.
    + intros a Ha. unfold m1. rewrite store_neq by now apply Ha.
      now apply H0.
    + exists m'. split; [assumption|]. split.
      * intros j [<-|Hj]; [|now apply Hv].
        destruct (in_dec Nat.eq_dec (dst i) (map dst idx)) as [Hin|Hin].
        -- apply in_map_iff in Hin. destruct Hin as (j & Ej & Hj).
           rewrite <- Ej, (Hv j Hj). apply Hval; try assumption.
           apply Hincl. now right.
        -- rewrite Hfr; [unfold m1; apply store_eq|].
           intros j Hj E. apply Hin. rewrite E. now apply in_map.
      * intros a Ha. rewrite Hfr by (intros j Hj; apply Ha; now right).
        unfold m1. apply store_neq. apply Ha. now left.
Qed.

Lemma jacobi1_update_value_ext (k : DefaultJacobiOp1.t Scalar) (m m' : mem)
      (i : nat) :
  (forall a, In a (DefaultJacobiOp1.read_cells k m i) -> m' a = m a) ->
  m' (DefaultJacobiOp1.diag_slot k i) = m (DefaultJacobiOp1.diag_slot k i)
  /\ DefaultJacobiOp1.update_value k m' i = DefaultJacobiOp1.update_value k m i.
Proof.
  intros H. unfold DefaultJacobiOp1.read_cells in H.
  assert (Hd : m' (DefaultJacobiOp1.diag_slot k i)
               = m (DefaultJacobiOp1.diag_slot k i))
    by (apply H; simpl; auto).
  assert (Hb : m' (DefaultJacobiOp1.b_slot k i)
               = m (DefaultJacobiOp1.b_slot k i))
    by (apply H; simpl; auto).
  assert (Hx : m' (DefaultJacobiOp1.x0_slot k i)
               = m (DefaultJacobiOp1.x0_slot k i))
    by (apply H; simpl; auto).
  assert (Hr : DefaultJacobiOp1.row_entries k m' (DefaultJacobiOp1.row_of k i)
               = DefaultJacobiOp1.row_entries k m
                   (DefaultJacobiOp1.row_of k i)).
  { apply jacobi1_row_entries_ext. intros a Ha. apply H.
    do 3 right. apply in_or_app. now left. }
  split; [assumption|].
  unfold DefaultJacobiOp1.update_value, DefaultJacobiOp1.residual.
  fold (DefaultJacobiOp1.x0_slot k i). rewrite Hd, Hb, Hx, Hr.
  rewrite (row_dot_ext _ m' m (DefaultJacobiOp1.x0_column k i)
             (DefaultJacobiOp1.x0_column k i)); [reflexivity|].
  intros e He. apply H. do 3 right. apply in_or_app. right.
  apply (in_map (fun e => DefaultJacobiOp1.x0_column k i + fst e)). exact He.
Qed.

Lemma jacobi2_update_value_ext (k : DefaultJacobiOp2.t Scalar) (m m' : mem)
      (i : nat) :
  (forall a, In a (DefaultJacobiOp2.read_cells k m i) -> m' a = m a) ->
  m' (DefaultJacobiOp2.diag_slot k i) = m (DefaultJacobiOp2.diag_slot k i)
  /\ DefaultJacobiOp2.update_value k m' i = DefaultJacobiOp2.update_value k m i.
Proof.
  intros H. unfold DefaultJacobiOp2.read_cells in H.
  assert (Hd : m' (DefaultJacobiOp2.diag_slot k i)
               = m (DefaultJacobiOp2.diag_slot k i))
    by (apply H; simpl; auto).
  assert (Hb : m' (DefaultJacobiOp2.b_slot k i)
               = m (DefaultJacobiOp2.b_slot k i))
    by (apply H; simpl; auto).
  assert (Hx : m' (DefaultJacobiOp2.x0_slot k i)
               = m (DefaultJacobiOp2.x0_slot k i))
    by (apply H; simpl; auto).
  assert (Hr : DefaultJacobiOp2.row_entries k m' (DefaultJacobiOp2.row_of k i)
               = DefaultJacobiOp2.row_entries k m
                   (DefaultJacobiOp2.row_of k i)).
  { apply jacobi2_row_entries_ext. intros a Ha. apply H.
    do 3 right. apply in_or_app. now left. }
  split; [assumption|].
  unfold DefaultJacobiOp2.update_value, DefaultJacobiOp2.residual.
  fold (DefaultJacobiOp2.x0_slot k i). rewrite Hd, Hb, Hx, Hr.
  rewrite (row_dot_ext _ m' m (DefaultJacobiOp2.x0_column k i)
             (DefaultJacobiOp2.x0_column k i)); [reflexivity|].
  intros e He. apply H. do 3 right. apply in_or_app. right.
  apply (in_map (fun e => DefaultJacobiOp2.x0_column k i + fst e)). exact He.
Qed.

(** X11. A Jacobi sweep computes every update from the memory it started
    with, whatever the order.  For a matrix in either storage and flat
    indices [idx] with distinct cells of [x], nonzero [diag[r]], and no cell
    of [x] among the cells read for [idx] ([diag], [b], [x0] and the matrix
    values): a sweep over the indices of [idx] in any order, each taken once
    or more, has a result, in which [x[r,rhs]] holds the update value
    computed from the initial memory, for every index of [idx], and every
    other cell is unchanged. *)
Theorem jacobi_sweep_any_order (m : mem) (idx order : list nat) :
  (forall k : DefaultJacobiOp1.t Scalar,
      DefaultJacobiOp1.numRows k <> 0 ->
      (forall i, In i idx -> m (DefaultJacobiOp1.diag_slot k i) <> szero) ->
      DefaultJacobiOp1.sweep_apart k m idx ->
      (forall i j, In i idx -> In j idx ->
                   DefaultJacobiOp1.x_slot k i = DefaultJacobiOp1.x_slot k j ->
                   i = j) ->
      (forall i, In i order <-> In i idx) ->
      exists m',
        sweep (DefaultJacobiOp1.execute k) order m = Some m'
        /\ (forall i, In i idx ->
                      m' (DefaultJacobiOp1.x_slot k i)
                      = DefaultJacobiOp1.update_value k m i)
        /\ (forall a,
               (forall i, In i idx -> a <> DefaultJacobiOp1.x_slot k i) ->
               m' a = m a))
  /\ (forall k : DefaultJacobiOp2.t Scalar,
      DefaultJacobiOp2.numRows k <> 0 ->
      (forall i, In i idx -> m (DefaultJacobiOp2.diag_slot k i) <> szero) ->
      DefaultJacobiOp2.sweep_apart k m idx ->
      (forall i j, In i idx -> In j idx ->
                   DefaultJacobiOp2.x_slot k i = DefaultJacobiOp2.x_slot k j ->
                   i = j) ->
      (forall i, In i order <-> In i idx) ->
      exists m',
        sweep (DefaultJacobiOp2.execute k) order m = Some m'
        /\ (forall i, In i idx ->
                      m' (DefaultJacobiOp2.x_slot k i)
                      = DefaultJacobiOp2.update_value k m i)
        /\ (forall a,
               (forall i, In i idx -> a <> DefaultJacobiOp2.x_slot k i) ->
               m' a = m a)).
Proof.
  split; intros k Hn Hd Hapart Hinj Horder.
  - destruct (write_sweep (DefaultJacobiOp1.execute k)
                (DefaultJacobiOp1.x_slot k)
                (DefaultJacobiOp1.update_value k m) idx m)
      with (idx := order) (m0 := m) as (m' & Hs & Hv & Hfr).
    + intros m' i Hi Hm'.
      destruct (jacobi1_update_value_ext k m m' i) as [Ed Ev].
      { intros a Ha. apply Hm'. intros j Hj ->. now apply (Hapart j i). }
      rewrite jacobi1_relax, relax_defined by (rewrite ?Ed; auto).
      now rewrite <- Ev.
    + intros i j Hi Hj E. now rewrite (Hinj i j Hi Hj E).
    + intros i Hi. now apply Horder.
    + reflexivity.
    + exists m'. split; [assumption|]. split.
      * intros i Hi. apply Hv. now apply Horder.
      * intros a Ha. apply Hfr. intros i Hi. apply Ha. now apply Horder.
  - destruct (write_sweep (DefaultJacobiOp2.execute k)
                (DefaultJacobiOp2.x_slot k)
                (DefaultJacobiOp2.update_value k m) idx m)
      with (idx := order) (m0 := m) as (m' & Hs & Hv & Hfr).
    + intros m' i Hi Hm'.
      destruct (jacobi2_update_value_ext k m m' i) as [Ed Ev].
      { intros a Ha. apply Hm'. intros j Hj ->. now apply (Hapart j i). }
      rewrite jacobi2_relax, relax_defined by (rewrite ?Ed; auto).
      now rewrite <- Ev.
    + intros i j Hi Hj E. now rewrite (Hinj i j Hi Hj E).
    + intros i Hi. now apply Horder.
    + reflexivity.
    + exists m'. split; [assumption|]. split.
      * intros i Hi. apply Hv. now apply Horder.
      * intros a Ha. apply Hfr. intros i Hi. apply Ha. now apply Horder.
Qed.

(** *** Sweeps of a diagonal extractor *)

(** A row without a diagonal entry keeps its cell of [diag] through a sweep,
    under the assumptions of [extract_sweep]. *)
Lemma extract_sweep_no_diagonal (f : mem -> nat -> mem)
      (fd : mem -> nat -> option Scalar) (dg n : nat) (m : mem) :
  (forall m' r, f m' r = match fd m' r with
                         | Some v => store m' (dg + r) v
                         | None => m'
                         end) ->
  (forall m' r, r < n -> (forall a, ~ cells dg n a -> m' a = m a) ->
                fd m' r = fd m r) ->
  forall order m' r,
    (forall r', In r' order -> r' < n) ->
    (forall a, ~ cells dg n a -> m' a = m a) ->
    fd m r = None ->
    sweep_total f order m' (dg + r) = m' (dg + r).
Proof.
  intros Hf Hfd order.
  induction order as [|r0 order IH]; intros m' r Hlt Hm' Hr; [reflexivity|].
  simpl.
  assert (Hr0 : r0 < n) by (apply Hlt; now left).
  assert (H1 : forall a, a <> dg + r0 -> f m' r0 a = m' a).
  { intros a Ha. rewrite Hf. destruct (fd m' r0); [|reflexivity].
    now apply store_neq. }
  rewrite IH; try assumption.
  - destruct (Nat.eq_dec r0 r) as [->|Hne].
    + now rewrite Hf, (Hfd m' r Hr0 Hm'), Hr.
    + apply H1. lia.
  - intros r' Hr'. apply Hlt. now right.
  - intros a Ha. rewrite H1; [now apply Hm'|].
    intros ->. apply Ha. unfold cells. lia.
Qed.

(** A sweep over all rows, and any sweep after it. *)
Lemma extract_sweep_full (f : mem -> nat -> mem)
      (fd : mem -> nat -> option Scalar) (dg n : nat) (m : mem)
      (order : list nat) :
  (forall m' r, f m' r = match fd m' r with
                         | Some v => store m' (dg + r) v
                         | None => m'
                         end) ->
  (forall m' r, r < n -> (forall a, ~ cells dg n a -> m' a = m a) ->
                fd m' r = fd m r) ->
  (forall r, In r order <-> r < n) ->
  (forall a, ~ cells dg n a -> sweep_total f order m a = m a)
  /\ (forall r, r < n ->
                sweep_total f order m (dg + r)
                = match fd m r with
                  | Some v => v
                  | None => m (dg + r)
                  end)
  /\ (forall again,
         (forall r, In r again -> r < n) ->
         forall a,
           sweep_total f again (sweep_total f order m) a
           = sweep_total f order m a).
Proof.
  intros Hf Hfd Horder.
  assert (Hlt : forall r, In r order -> r < n) by (intros r; apply Horder).
  destruct (extract_sweep f fd dg n m Hf Hfd order m Hlt) as [Hfr Hv];
    [reflexivity|].
  assert (Hcell : forall r, r < n ->
                            sweep_total f order m (dg + r)
                            = match fd m r with
                              | Some v => v
                              | None => m (dg + r)
                              end).
  { intros r Hr. destruct (fd m r) as [v|] eqn:E.
    - destruct (Hv r v E) as [Hin _]. apply Hin. now apply Horder.
    - now apply (extract_sweep_no_diagonal f fd dg n m Hf Hfd). }
  split; [assumption|]. split; [assumption|].
  intros again Hagain a.
  destruct (extract_sweep f fd dg n m Hf Hfd again
              (sweep_total f order m) Hagain Hfr) as [Hfr2 Hv2].
  destruct (le_lt_dec dg a) as [Hle|Hgt].
  - destruct (le_lt_dec (dg + n) a) as [Hge|Hlt2].
    + rewrite Hfr2, Hfr; unfold cells; try lia. reflexivity.
    + replace a with (dg + (a - dg)) by lia.
      assert (Hr : a - dg < n) by lia.
      destruct (fd m (a - dg)) as [v|] eqn:E.
      * destruct (Hv2 (a - dg) v E) as [Hin Hout].
        destruct (in_dec Nat.eq_dec (a - dg) again) as [Hi|Hi].
        -- rewrite (Hin Hi), (Hcell _ Hr), E. reflexivity.
        -- now apply Hout.
      * now apply (extract_sweep_no_diagonal f fd dg n m Hf Hfd).
  - rewrite Hfr2, Hfr; unfold cells; try lia. reflexivity.
Qed.

(** X12. A sweep of a diagonal extractor, of either storage, over all rows
    in any order, with [diag] not overlapping the matrix values: [diag[r]]
    then holds the value of the first diagonal entry of row [r] for every
    row that has one and its previous contents for every row that has none,
    no cell outside [diag] has changed, and any further sweep over rows
    changes nothing. *)
Theorem extract_sweep_result (m : mem) (order : list nat) :
  (forall k : ExtractDiagonalOp1.t,
      ExtractDiagonalOp1.diag_apart k (ExtractDiagonalOp1.numRows k) ->
      (forall r, In r order <-> r < ExtractDiagonalOp1.numRows k) ->
      (forall a,
          ~ cells (ExtractDiagonalOp1.diag k)
                  (ExtractDiagonalOp1.numRows k) a ->
          sweep_total (ExtractDiagonalOp1.execute k) order m a = m a)
      /\ (forall r, r < ExtractDiagonalOp1.numRows k ->
            sweep_total (ExtractDiagonalOp1.execute k) order m
                        (ExtractDiagonalOp1.diag k + r)
            = match first_diagonal r (ExtractDiagonalOp1.row_entries k m r)
              with
              | Some v => v
              | None => m (ExtractDiagonalOp1.diag k + r)
              end)
      /\ (forall again,
             (forall r, In r again -> r < ExtractDiagonalOp1.numRows k) ->
             forall a,
               sweep_total (ExtractDiagonalOp1.execute k) again
                 (sweep_total (ExtractDiagonalOp1.execute k) order m) a
               = sweep_total (ExtractDiagonalOp1.execute k) order m a))
  /\ (forall k : ExtractDiagonalOp2.t,
      ExtractDiagonalOp2.diag_apart k (ExtractDiagonalOp2.numRows k) ->
      (forall r, In r order <-> r < ExtractDiagonalOp2.numRows k) ->
      (forall a,
          ~ cells (ExtractDiagonalOp2.diag k)
                  (ExtractDiagonalOp2.numRows k) a ->
          sweep_total (ExtractDiagonalOp2.execute k) order m a = m a)
      /\ (forall r, r < ExtractDiagonalOp2.numRows k ->
            sweep_total (ExtractDiagonalOp2.execute k) order m
                        (ExtractDiagonalOp2.diag k + r)
            = match first_diagonal r (ExtractDiagonalOp2.row_entries k m r)
              with
              | Some v => v
              | None => m (ExtractDiagonalOp2.diag k + r)
              end)
      /\ (forall again,
             (forall r, In r again -> r < ExtractDiagonalOp2.numRows k) ->
             forall a,
               sweep_total (ExtractDiagonalOp2.execute k) again
                 (sweep_total (ExtractDiagonalOp2.execute k) order m) a
               = sweep_total (ExtractDiagonalOp2.execute k) order m a)).
Proof.
  split; intros k Hapart Horder.
  - apply (extract_sweep_full (ExtractDiagonalOp1.execute k)
             (fun m' r =>
                first_diagonal r (ExtractDiagonalOp1.row_entries k m' r))).
    + intros m' r. apply extract1_execute.
    + intros m' r Hr Hm'. f_equal. apply extract1_row_entries_ext.
      intros a Ha. apply Hm'. intros Hc. now apply (Hapart a r).
    + exact Horder.
  - apply (extract_sweep_full (ExtractDiagonalOp2.execute k)
             (fun m' r =>
                first_diagonal r (ExtractDiagonalOp2.row_entries k m' r))).
    + intros m' r. apply extract2_execute.
    + intros m' r Hr Hm'. f_equal. apply extract2_row_entries_ext.
      intros a Ha. apply Hm'. intros Hc. now apply (Hapart a r).
    + exact Horder.
Qed.

(** *** Gauss-Seidel in other orders, and again *)

(** Rows taken in an order in which each row has entries only in its own
    column and in the columns of rows taken before it, each updated with
    damping factor one: after the sweep these rows hold against the column at
    [xp]. *)
Lemma ordered_sweep (f : mem -> nat -> option mem)
      (rows : mem -> nat -> list (nat * Scalar)) (xp bp dp n : nat) (m : mem) :
  (forall m' r, r < n ->
                f m' r = relax (rows m' r) sone m' (bp + r) (dp + r) xp
                               (xp + r) (xp + r)) ->
  (forall m' r, r < n -> (forall a, ~ cells xp n a -> m' a = m a) ->
                rows m' r = rows m r) ->
  (forall a, cells xp n a -> ~ cells bp n a /\ ~ cells dp n a) ->
  (forall r, r < n -> on_diagonal r (rows m r) = [(r, m (dp + r))]
                      /\ m (dp + r) <> szero) ->
  forall order,
    (forall r, In r order -> r < n) ->
    NoDup order ->
    (forall p j q, order = p ++ j :: q ->
                   forall e, In e (rows m j) -> fst e = j \/ In (fst e) p) ->
    exists m',
      sweep f order m = Some m'
      /\ (forall a, (forall r, In r order -> a <> xp + r) -> m' a = m a)
      /\ (forall r, In r order -> row_dot (rows m r) m' xp = m (bp + r)).
Proof.
  intros Hf Hrows Hapart Hdiag order.
  induction order as [|j p IH] using rev_ind; intros Hlt Hnd Hdep.
  - exists m. repeat split; intros r [].
  - assert (Hj : j < n) by (apply Hlt; apply in_or_app; right; now left).
    assert (Hjp : ~ In j p).
    { apply NoDup_remove_2 in Hnd. now rewrite app_nil_r in Hnd. }
    assert (Hnew : forall r e, In r p -> In e (rows m r) -> fst e <> j).
    { intros r e Hr He E. apply in_split in Hr.
      destruct Hr as (p1 & q1 & ->).
      destruct (Hdep p1 r (q1 ++ [j])) with (e := e) as [E'|E'];
        [now rewrite <- app_assoc | assumption | |].
      - apply Hjp. rewrite <- E, E'. apply in_or_app. right. now left.
      - apply Hjp. rewrite <- E. apply in_or_app. now left. }
    destruct IH as (mj & Hs & Hfr & Hsol).
    + intros r Hr. apply Hlt. apply in_or_app. now left.
    + apply NoDup_remove_1 in Hnd. now rewrite app_nil_r in Hnd.
    + intros p1 j1 q1 E. apply (Hdep p1 j1 (q1 ++ [j])).
      rewrite E, <- app_assoc. reflexivity.
    + assert (Hout : forall a, ~ cells xp n a -> mj a = m a).
      { intros a Ha. apply Hfr. intros r Hr ->. apply Ha.
        assert (r < n) by (apply Hlt; apply in_or_app; now left).
        unfold cells. lia. }
      assert (Hb : mj (bp + j) = m (bp + j)).
      { apply Hout. intros Hc. destruct (Hapart _ Hc) as [H _]. apply H.
        unfold cells. lia. }
      assert (Hd : mj (dp + j) = m (dp + j)).
      { apply Hout. intros Hc. destruct (Hapart _ Hc) as [_ H]. apply H.
        unfold cells. lia. }
      destruct (Hdiag j Hj) as [Hone Hnz].
      eexists. split; [|split].
      * rewrite sweep_app, Hs. simpl.
        rewrite Hf, (Hrows mj j) by assumption.
        rewrite relax_defined by now rewrite Hd.
        reflexivity.
      * intros a Ha. rewrite store_neq.
        -- apply Hfr. intros r Hr. apply Ha. apply in_or_app. now left.
        -- apply Ha. apply in_or_app. right. now left.
      * intros r Hr. apply in_app_or in Hr. destruct Hr as [Hr|[<-|[]]].
        -- rewrite <- (Hsol r Hr). apply row_dot_ext.
           intros e He. apply store_neq.
           specialize (Hnew r e Hr He). lia.
        -- rewrite (row_dot_diagonal j (m (dp + j)) _ _ _ Hone).
           rewrite store_eq.
           rewrite (row_dot_ext (off_diagonal j (rows m j)) _ mj xp xp).
           ++ rewrite (row_dot_diagonal j (m (dp + j)) _ mj _ Hone).
              rewrite Hb, Hd. field. assumption.
           ++ intros e He. apply off_diagonal_in in He.
              destruct He as [He Hc]. apply store_neq. lia.
Qed.

Lemma seq_before (s n j : nat) (l1 l2 : list nat) :
  seq s n = l1 ++ j :: l2 -> forall c, In c l1 -> c < j.
Proof.
  revert s n. induction l1 as [|a l1 IH]; intros s n E c Hc; [contradiction|].
  destruct n as [|n]; [discriminate|]. simpl in E. injection E as <- E.
  destruct Hc as [<-|Hc].
  - assert (Hj : In j (seq (S s) n))
      by (rewrite E; apply in_or_app; right; now left).
    apply in_seq in Hj. lia.
  - now apply (IH (S s) n).
Qed.

(** In the decreasing order of the rows, every larger row comes first. *)
Lemma rev_range_before (n j : nat) (p q : list nat) :
  rev (range 0 n) = p ++ j :: q -> forall c, j < c < n -> In c p.
Proof.
  intros E c Hc.
  assert (Hin : In c (p ++ j :: q)).
  { rewrite <- E, <- in_rev. apply in_range. lia. }
  apply in_app_or in Hin. destruct Hin as [Hin|[->|Hin]]; [assumption|lia|].
  exfalso.
  assert (E' : range 0 n = rev q ++ j :: rev p).
  { rewrite <- (rev_involutive (range 0 n)), E, rev_app_distr. simpl.
    now rewrite <- app_assoc. }
  unfold range in E'.
  assert (c < j) by (apply (seq_before _ _ _ _ _ E'); now apply -> in_rev).
  lia.
Qed.

(** The solve of an upper-triangular system by one sweep in decreasing row
    order. *)
Lemma backward_solve (f : mem -> nat -> option mem)
      (rows : mem -> nat -> list (nat * Scalar)) (xp bp dp n : nat) (m : mem) :
  (forall m' r, r < n ->
                f m' r = relax (rows m' r) sone m' (bp + r) (dp + r) xp
                               (xp + r) (xp + r)) ->
  (forall m' r, r < n -> (forall a, ~ cells xp n a -> m' a = m a) ->
                rows m' r = rows m r) ->
  (forall a, cells xp n a -> ~ cells bp n a /\ ~ cells dp n a) ->
  (forall r e, r < n -> In e (rows m r) -> r <= fst e < n) ->
  (forall r, r < n -> on_diagonal r (rows m r) = [(r, m (dp + r))]
                      /\ m (dp + r) <> szero) ->
  exists m',
    sweep f (rev (range 0 n)) m = Some m'
    /\ (forall a, ~ cells xp n a -> m' a = m a)
    /\ (forall r, r < n -> row_dot (rows m' r) m' xp = m' (bp + r)).
Proof.
  intros Hf Hrows Hapart Hup Hdiag.
  assert (Hlt : forall r, In r (rev (range 0 n)) -> r < n).
  { intros r Hr. apply in_rev, in_range in Hr. lia. }
  destruct (ordered_sweep f rows xp bp dp n m Hf Hrows Hapart Hdiag
              (rev (range 0 n))) as (m' & Hs & Hfr & Hsol).
  - exact Hlt.
  - apply NoDup_rev. apply seq_NoDup.
  - intros p j q E e He.
    assert (Hj : j < n).
    { apply Hlt. rewrite E. apply in_or_app. right. now left. }
    destruct (Hup j e Hj He) as [H1 H2].
    destruct (Nat.eq_dec (fst e) j) as [Ej|Hne]; [now left|].
    right. apply (rev_range_before n j p q E). lia.
  - assert (Hout : forall a, ~ cells xp n a -> m' a = m a).
    { intros a Ha. apply Hfr. intros r Hr ->. apply Ha.
      specialize (Hlt r Hr). unfold cells. lia. }
    exists m'. split; [assumption|]. split; [assumption|].
    intros r Hr. rewrite (Hrows m' r Hr Hout).
    rewrite (Hout (bp + r)).
    + apply Hsol. apply -> in_rev. apply in_range. lia.
    + intros Hc. destruct (Hapart _ Hc) as [H _]. apply H.
      unfold cells. lia.
Qed.

(** X13. Backward substitution.  Take a matrix, in either storage, whose
    entries are on or above the diagonal, with exactly one diagonal entry in
    every row, not zero and held by [diag], and an [x] whose cells are no
    cells of [b], [diag] or the matrix values.  Running the Gauss-Seidel
    update with damping factor one once per row in decreasing row order, on
    the first right-hand side, leaves [x] solving [A x = b], whatever [x]
    held before, and changes no cell outside [x]. *)
Theorem gauss_seidel_backward_solve (m : mem) :
  (forall k : DefaultFineGrainHybridGaussSeidelOp1.t Scalar,
      let n := DefaultFineGrainHybridGaussSeidelOp1.numRows k in
      DefaultFineGrainHybridGaussSeidelOp1.damping_factor k = sone ->
      DefaultFineGrainHybridGaussSeidelOp1.upper_triangular k m n ->
      DefaultFineGrainHybridGaussSeidelOp1.diagonal_held k m n ->
      DefaultFineGrainHybridGaussSeidelOp1.x_apart k n ->
      exists m',
        sweep (DefaultFineGrainHybridGaussSeidelOp1.execute k)
              (rev (range 0 n)) m
        = Some m'
        /\ (forall a,
               ~ cells (DefaultFineGrainHybridGaussSeidelOp1.x k) n a ->
               m' a = m a)
        /\ DefaultFineGrainHybridGaussSeidelOp1.solves k m' n
             (DefaultFineGrainHybridGaussSeidelOp1.x k))
  /\ (forall k : DefaultFineGrainHybridGaussSeidelOp2.t Scalar,
      let n := DefaultFineGrainHybridGaussSeidelOp2.numRows k in
      DefaultFineGrainHybridGaussSeidelOp2.damping_factor k = sone ->
      DefaultFineGrainHybridGaussSeidelOp2.upper_triangular k m n ->
      DefaultFineGrainHybridGaussSeidelOp2.diagonal_held k m n ->
      DefaultFineGrainHybridGaussSeidelOp2.x_apart k n ->
      exists m',
        sweep (DefaultFineGrainHybridGaussSeidelOp2.execute k)
              (rev (range 0 n)) m
        = Some m'
        /\ (forall a,
               ~ cells (DefaultFineGrainHybridGaussSeidelOp2.x k) n a ->
               m' a = m a)
        /\ DefaultFineGrainHybridGaussSeidelOp2.solves k m' n
             (DefaultFineGrainHybridGaussSeidelOp2.x k)).
Proof.
  split; intros k n Hw Hup Hdiag Hapart.
  - apply (backward_solve (DefaultFineGrainHybridGaussSeidelOp1.execute k)
             (DefaultFineGrainHybridGaussSeidelOp1.row_entries k)
             (DefaultFineGrainHybridGaussSeidelOp1.x k)
             (DefaultFineGrainHybridGaussSeidelOp1.b k)
             (DefaultFineGrainHybridGaussSeidelOp1.diag k) n m).
    + intros m' r Hr. rewrite <- Hw. now apply gs1_first_column.
    + intros m' r Hr Hm'. apply gs1_row_entries_ext. intros a Ha.
      apply Hm'. intros Hc. destruct (Hapart a Hc) as (_ & _ & H).
      now apply (H r).
    + intros a Hc. destruct (Hapart a Hc) as (H1 & H2 & _). now split.
    + exact Hup.
    + exact Hdiag.
  - apply (backward_solve (DefaultFineGrainHybridGaussSeidelOp2.execute k)
             (DefaultFineGrainHybridGaussSeidelOp2.row_entries k)
             (DefaultFineGrainHybridGaussSeidelOp2.x k)
             (DefaultFineGrainHybridGaussSeidelOp2.b k)
             (DefaultFineGrainHybridGaussSeidelOp2.diag k) n m).
    + intros m' r Hr. rewrite <- Hw. now apply gs2_first_column.
    + intros m' r Hr Hm'. apply gs2_row_entries_ext. intros a Ha.
      apply Hm'. intros Hc. destruct (Hapart a Hc) as (_ & _ & H).
      now apply (H r).
    + intros a Hc. destruct (Hapart a Hc) as (H1 & H2 & _). now split.
    + exact Hup.
    + exact Hdiag.
Qed.

(** After the forward solve, any number of further sweeps. *)
Lemma solved_stays (f : mem -> nat -> option mem)
      (rows : mem -> nat -> list (nat * Scalar)) (xp bp dp n : nat) (m : mem)
      (again : nat) :
  (forall m' r, r < n ->
                f m' r = relax (rows m' r) sone m' (bp + r) (dp + r) xp
                               (xp + r) (xp + r)) ->
  (forall m' r, r < n -> (forall a, ~ cells xp n a -> m' a = m a) ->
                rows m' r = rows m r) ->
  (forall a, cells xp n a -> ~ cells bp n a /\ ~ cells dp n a) ->
  (forall r e, r < n -> In e (rows m r) -> fst e <= r) ->
  (forall r, r < n -> on_diagonal r (rows m r) = [(r, m (dp + r))]
                      /\ m (dp + r) <> szero) ->
  exists m1 m2,
    sweep f (range 0 n) m = Some m1
    /\ sweeps f (range 0 n) again m1 = Some m2
    /\ forall a, m2 a = m1 a.
Proof.
  intros Hf Hrows Hapart Hlow Hdiag.
  destruct (triangular_solve f rows xp bp dp n m Hf Hrows Hapart Hlow Hdiag)
    as (m1 & Hs & Hfr & Hsol & _).
  destruct (fixed_sweeps f (range 0 n) m1) with (n := again) (m0 := m1)
    as (m2 & Hs2 & H2); [|reflexivity|].
  - intros m' r Hr Hm'. apply in_range in Hr.
    assert (Hrn : r < n) by lia.
    rewrite (Hf m' r Hrn).
    apply (relax_solved_pointwise (rows m1 r)).
    + exact Hm'.
    + rewrite (Hrows m1 r Hrn Hfr). apply Hrows; [assumption|].
      intros a Ha. rewrite Hm'. now apply Hfr.
    + rewrite Hfr.
      * now apply Hdiag.
      * intros Hc. destruct (Hapart _ Hc) as [_ H]. apply H.
        unfold cells. lia.
    + now apply Hsol.
  - exists m1, m2. now repeat split.
Qed.

(** X14. Once solved, a triangular system stays solved.  Under the
    assumptions of the forward solve (entries on or below the diagonal,
    exactly one diagonal entry per row, not zero and held by [diag], [x]
    apart from [b], [diag] and the matrix values, damping factor one), the
    first sweep in increasing row order has a result, and any number of
    further such sweeps has a result too and leaves every cell of the memory
    as the first sweep left it. *)
Theorem gauss_seidel_triangular_stable (m : mem) (again : nat) :
  (forall k : DefaultFineGrainHybridGaussSeidelOp1.t Scalar,
      let n := DefaultFineGrainHybridGaussSeidelOp1.numRows k in
      DefaultFineGrainHybridGaussSeidelOp1.damping_factor k = sone ->
      DefaultFineGrainHybridGaussSeidelOp1.lower_triangular k m n ->
      DefaultFineGrainHybridGaussSeidelOp1.diagonal_held k m n ->
      DefaultFineGrainHybridGaussSeidelOp1.x_apart k n ->
      exists m1 m2,
        sweep (DefaultFineGrainHybridGaussSeidelOp1.execute k) (range 0 n) m
        = Some m1
        /\ sweeps (DefaultFineGrainHybridGaussSeidelOp1.execute k)
                  (range 0 n) again m1
           = Some m2
        /\ forall a, m2 a = m1 a)
  /\ (forall k : DefaultFineGrainHybridGaussSeidelOp2.t Scalar,
      let n := DefaultFineGrainHybridGaussSeidelOp2.numRows k in
      DefaultFineGrainHybridGaussSeidelOp2.damping_factor k = sone ->
      DefaultFineGrainHybridGaussSeidelOp2.lower_triangular k m n ->
      DefaultFineGrainHybridGaussSeidelOp2.diagonal_held k m n ->
      DefaultFineGrainHybridGaussSeidelOp2.x_apart k n ->
      exists m1 m2,
        sweep (DefaultFineGrainHybridGaussSeidelOp2.execute k) (range 0 n) m
        = Some m1
        /\ sweeps (DefaultFineGrainHybridGaussSeidelOp2.execute k)
                  (range 0 n) again m1
           = Some m2
        /\ forall a, m2 a = m1 a).
Proof.
  split; intros k n Hw Hlow Hdiag Hapart.
  - apply (solved_stays (DefaultFineGrainHybridGaussSeidelOp1.execute k)
             (DefaultFineGrainHybridGaussSeidelOp1.row_entries k)
             (DefaultFineGrainHybridGaussSeidelOp1.x k)
             (DefaultFineGrainHybridGaussSeidelOp1.b k)
             (DefaultFineGrainHybridGaussSeidelOp1.diag k) n m).
    + intros m' r Hr. rewrite <- Hw. now apply gs1_first_column.
    + intros m' r Hr Hm'. apply gs1_row_entries_ext. intros a Ha.
      apply Hm'. intros Hc. destruct (Hapart a Hc) as (_ & _ & H).
      now apply (H r).
    + intros a Hc. destruct (Hapart a Hc) as (H1 & H2 & _). now split.
    + exact Hlow.
    + exact Hdiag.
  - apply (solved_stays (DefaultFineGrainHybridGaussSeidelOp2.execute k)
             (DefaultFineGrainHybridGaussSeidelOp2.row_entries k)
             (DefaultFineGrainHybridGaussSeidelOp2.x k)
             (DefaultFineGrainHybridGaussSeidelOp2.b k)
             (DefaultFineGrainHybridGaussSeidelOp2.diag k) n m).
    + intros m' r Hr. rewrite <- Hw. now apply gs2_first_column.
    + intros m' r Hr Hm'. apply gs2_row_entries_ext. intros a Ha.
      apply Hm'. intros Hc. destruct (Hapart a Hc) as (_ & _ & H).
      now apply (H r).
    + intros a Hc. destruct (Hapart a Hc) as (H1 & H2 & _). now split.
    + exact Hlow.
    + exact Hdiag.
Qed.

(** *** From the extractor to the solve *)

(** The forward solve on a diagonal that an extractor sweep has filled. *)
Lemma extract_then_solve (fe : mem -> nat -> mem) (f : mem -> nat -> option mem)
      (rows : mem -> nat -> list (nat * Scalar)) (xp bp dp n : nat) (m : mem)
      (order : list nat) :
  (forall m' r, fe m' r = match first_diagonal r (rows m' r) with
                          | Some v => store m' (dp + r) v
                          | None => m'
                          end) ->
  (forall m' r, r < n ->
                f m' r = relax (rows m' r) sone m' (bp + r) (dp + r) xp
                               (xp + r) (xp + r)) ->
  (forall m' r, r < n ->
                (forall a, ~ cells xp n a -> ~ cells dp n a -> m' a = m a) ->
                rows m' r = rows m r) ->
  (forall a, cells xp n a -> ~ cells bp n a /\ ~ cells dp n a) ->
  (forall r e, r < n -> In e (rows m r) -> fst e <= r) ->
  (forall r, r < n -> exists d, on_diagonal r (rows m r) = [(r, d)]
                                /\ d <> szero) ->
  (forall r, In r order <-> r < n) ->
  (forall r, r < n ->
             on_diagonal r (rows (sweep_total fe order m) r)
             = [(r, sweep_total fe order m (dp + r))]
             /\ sweep_total fe order m (dp + r) <> szero)
  /\ exists m2,
      sweep f (range 0 n) (sweep_total fe order m) = Some m2
      /\ (forall a, ~ cells xp n a -> ~ cells dp n a -> m2 a = m a)
      /\ (forall r, r < n -> row_dot (rows m2 r) m2 xp = m2 (bp + r)).
Proof.
  intros Hfe Hf Hrows Hapart Hlow Hone Horder.
  set (m1 := sweep_total fe order m).
  destruct (extract_sweep_full fe (fun m' r => first_diagonal r (rows m' r))
              dp n m order Hfe) as (Hfr1 & Hcell & _).
  { intros m' r Hr Hm'. f_equal. apply Hrows; [assumption|].
    intros a _ Ha. now apply Hm'. }
  { exact Horder. }
  fold m1 in Hfr1, Hcell.
  assert (Hrows1 : forall r, r < n -> rows m1 r = rows m r).
  { intros r Hr. apply Hrows; [assumption|]. intros a _ Ha. now apply Hfr1. }
  assert (Hheld : forall r, r < n ->
                            on_diagonal r (rows m1 r) = [(r, m1 (dp + r))]
                            /\ m1 (dp + r) <> szero).
  { intros r Hr. destruct (Hone r Hr) as (d & Hd & Hnz).
    rewrite (Hrows1 r Hr), (Hcell r Hr).
    unfold first_diagonal. rewrite Hd. simpl. now split. }
  split; [assumption|].
  destruct (triangular_solve f rows xp bp dp n m1)
    as (m2 & Hs & Hfr2 & Hsol & _).
  - exact Hf.
  - intros m' r Hr Hm'. rewrite (Hrows1 r Hr). apply Hrows; [assumption|].
    intros a Ha1 Ha2. rewrite Hm' by assumption. now apply Hfr1.
  - exact Hapart.
  - intros r e Hr. rewrite (Hrows1 r Hr). now apply Hlow.
  - exact Hheld.
  - exists m2. split; [assumption|]. split; [|assumption].
    intros a Ha1 Ha2. rewrite Hfr2 by assumption. now apply Hfr1.
Qed.

(** X15. From the extractor to the solve.  Take a matrix, in either storage,
    whose entries are on or below the diagonal, with exactly one diagonal
    entry in every row, not zero, a [diag] that does not overlap the matrix
    values, and an [x] whose cells are no cells of [b], [diag] or the matrix
    values.  A sweep of the diagonal extractor over all rows, in any order
    and whatever [diag] held before, leaves in [diag] the diagonal entries;
    the Gauss-Seidel sweep with damping factor one in increasing row order
    that follows has a result, leaves [x] solving [A x = b], and no cell but
    those of [x] and [diag] differs from the initial memory. *)
Theorem extract_then_gauss_seidel_solve (m : mem) (order : list nat) :
  (forall k : DefaultFineGrainHybridGaussSeidelOp1.t Scalar,
      let n := DefaultFineGrainHybridGaussSeidelOp1.numRows k in
      let ke := DefaultFineGrainHybridGaussSeidelOp1.extractor k in
      DefaultFineGrainHybridGaussSeidelOp1.damping_factor k = sone ->
      DefaultFineGrainHybridGaussSeidelOp1.lower_triangular k m n ->
      DefaultFineGrainHybridGaussSeidelOp1.one_diagonal k m n ->
      DefaultFineGrainHybridGaussSeidelOp1.x_apart k n ->
      ExtractDiagonalOp1.diag_apart ke n ->
      (forall r, In r order <-> r < n) ->
      DefaultFineGrainHybridGaussSeidelOp1.diagonal_held k
        (sweep_total (ExtractDiagonalOp1.execute ke) order m) n
      /\ exists m2,
          sweep (DefaultFineGrainHybridGaussSeidelOp1.execute k) (range 0 n)
                (sweep_total (ExtractDiagonalOp1.execute ke) order m)
          = Some m2
          /\ (forall a,
                 ~ cells (DefaultFineGrainHybridGaussSeidelOp1.x k) n a ->
                 ~ cells (DefaultFineGrainHybridGaussSeidelOp1.diag k) n a ->
                 m2 a = m a)
          /\ DefaultFineGrainHybridGaussSeidelOp1.solves k m2 n
               (DefaultFineGrainHybridGaussSeidelOp1.x k))
  /\ (forall k : DefaultFineGrainHybridGaussSeidelOp2.t Scalar,
      let n := DefaultFineGrainHybridGaussSeidelOp2.numRows k in
      let ke := DefaultFineGrainHybridGaussSeidelOp2.extractor k in
      DefaultFineGrainHybridGaussSeidelOp2.damping_factor k = sone ->
      DefaultFineGrainHybridGaussSeidelOp2.lower_triangular k m n ->
      DefaultFineGrainHybridGaussSeidelOp2.one_diagonal k m n ->
      DefaultFineGrainHybridGaussSeidelOp2.x_apart k n ->
      ExtractDiagonalOp2.diag_apart ke n ->
      (forall r, In r order <-> r < n) ->
      DefaultFineGrainHybridGaussSeidelOp2.diagonal_held k
        (sweep_total (ExtractDiagonalOp2.execute ke) order m) n
      /\ exists m2,
          sweep (DefaultFineGrainHybridGaussSeidelOp2.execute k) (range 0 n)
                (sweep_total (ExtractDiagonalOp2.execute ke) order m)
          = Some m2
          /\ (forall a,
                 ~ cells (DefaultFineGrainHybridGaussSeidelOp2.x k) n a ->
                 ~ cells (DefaultFineGrainHybridGaussSeidelOp2.diag k) n a ->
                 m2 a = m a)
          /\ DefaultFineGrainHybridGaussSeidelOp2.solves k m2 n
               (DefaultFineGrainHybridGaussSeidelOp2.x k)).
Proof.
  split; intros k n ke Hw Hlow Hone Hapart Hdapart Horder.
  - apply (extract_then_solve (ExtractDiagonalOp1.execute ke)
             (DefaultFineGrainHybridGaussSeidelOp1.execute k)
             (DefaultFineGrainHybridGaussSeidelOp1.row_entries k)
             (DefaultFineGrainHybridGaussSeidelOp1.x k)
             (DefaultFineGrainHybridGaussSeidelOp1.b k)
             (DefaultFineGrainHybridGaussSeidelOp1.diag k) n m order).
    + intros m' r. exact (extract1_execute ke m' r).
    + intros m' r Hr. rewrite <- Hw. now apply gs1_first_column.
    + intros m' r Hr Hm'. apply gs1_row_entries_ext. intros a Ha.
      apply Hm'.
      * intros Hc. destruct (Hapart a Hc) as (_ & _ & H). now apply (H r).
      * intros Hc. now apply (Hdapart a r).
    + intros a Hc. destruct (Hapart a Hc) as (H1 & H2 & _). now split.
    + exact Hlow.
    + exact Hone.
    + exact Horder.
  - apply (extract_then_solve (ExtractDiagonalOp2.execute ke)
             (DefaultFineGrainHybridGaussSeidelOp2.execute k)
             (DefaultFineGrainHybridGaussSeidelOp2.row_entries k)
             (DefaultFineGrainHybridGaussSeidelOp2.x k)
             (DefaultFineGrainHybridGaussSeidelOp2.b k)
             (DefaultFineGrainHybridGaussSeidelOp2.diag k) n m order).
    + intros m' r. exact (extract2_execute ke m' r).
    + intros m' r Hr. rewrite <- Hw. now apply gs2_first_column.
    + intros m' r Hr Hm'. apply gs2_row_entries_ext. intros a Ha.
      apply Hm'.
      * intros Hc. destruct (Hapart a Hc) as (_ & _ & H). now apply (H r).
      * intros Hc. now apply (Hdapart a r).
    + intros a Hc. destruct (Hapart a Hc) as (H1 & H2 & _). now split.
    + exact Hlow.
    + exact Hone.
    + exact Horder.
Qed.

(** *** A Jacobi sweep run again *)

(** A second sweep of a kernel that stores values fixed by cells no sweep
    writes. *)
Lemma repeat_sweep (f : mem -> nat -> option mem) (dst : nat -> nat)
      (val : nat -> Scalar) (idx : list nat) (m : mem) (again : nat) :
  (forall m' i, In i idx ->
                (forall a, (forall j, In j idx -> a <> dst j) -> m' a = m a) ->
                f m' i = Some (store m' (dst i) (val i))) ->
  (forall i j, In i idx -> In j idx -> dst i = dst j -> val i = val j) ->
  exists m1 m2,
    sweep f idx m = Some m1
    /\ sweeps f idx again m1 = Some m2
    /\ forall a, m2 a = m1 a.
Proof.
  intros Hf Hval.
  destruct (write_sweep f dst val idx m Hf Hval idx m) as (m1 & Hs & Hv & Hfr).
  { intros i Hi. exact Hi. }
  { reflexivity. }
  destruct (fixed_sweeps f idx m1) with (n := again) (m0 := m1)
    as (m2 & Hs2 & H2); [|reflexivity|].
  - intros m' i Hi Hm'. rewrite (Hf m' i Hi).
    + eexists. split; [reflexivity|]. intros a. unfold store.
      destruct (Nat.eqb_spec a (dst i)) as [->|_];
        [symmetry; now apply Hv | apply Hm'].
    + intros a Ha. rewrite Hm'. now apply Hfr.
  - exists m1, m2. now repeat split.
Qed.

(** X16. A Jacobi sweep never writes what it reads, so running it again
    changes nothing.  Under the assumptions of the sweep in any order (no
    cell of [x] for [idx] among the cells read for [idx], distinct cells of
    [x], nonzero [diag[r]]), the first sweep over [idx] has a result, and
    any number of further sweeps over [idx] has a result too and leaves
    every cell of the memory as the first sweep left it. *)
Theorem jacobi_sweep_again (m : mem) (idx : list nat) (again : nat) :
  (forall k : DefaultJacobiOp1.t Scalar,
      DefaultJacobiOp1.numRows k <> 0 ->
      (forall i, In i idx -> m (DefaultJacobiOp1.diag_slot k i) <> szero) ->
      DefaultJacobiOp1.sweep_apart k m idx ->
      (forall i j, In i idx -> In j idx ->
                   DefaultJacobiOp1.x_slot k i = DefaultJacobiOp1.x_slot k j ->
                   i = j) ->
      exists m1 m2,
        sweep (DefaultJacobiOp1.execute k) idx m = Some m1
        /\ sweeps (DefaultJacobiOp1.execute k) idx again m1 = Some m2
        /\ forall a, m2 a = m1 a)
  /\ (forall k : DefaultJacobiOp2.t Scalar,
      DefaultJacobiOp2.numRows k <> 0 ->
      (forall i, In i idx -> m (DefaultJacobiOp2.diag_slot k i) <> szero) ->
      DefaultJacobiOp2.sweep_apart k m idx ->
      (forall i j, In i idx -> In j idx ->
                   DefaultJacobiOp2.x_slot k i = DefaultJacobiOp2.x_slot k j ->
                   i = j) ->
      exists m1 m2,
        sweep (DefaultJacobiOp2.execute k) idx m = Some m1
        /\ sweeps (DefaultJacobiOp2.execute k) idx again m1 = Some m2
        /\ forall a, m2 a = m1 a).
Proof.
  split; intros k Hn Hd Hapart Hinj.
  - apply (repeat_sweep (DefaultJacobiOp1.execute k)
             (DefaultJacobiOp1.x_slot k)
             (DefaultJacobiOp1.update_value k m) idx m again).
    + intros m' i Hi Hm'.
      destruct (jacobi1_update_value_ext k m m' i) as [Ed Ev].
      { intros a Ha. apply Hm'. intros j Hj ->. now apply (Hapart j i). }
      rewrite jacobi1_relax, relax_defined by (rewrite ?Ed; auto).
      now rewrite <- Ev.
    + intros i j Hi Hj E. now rewrite (Hinj i j Hi Hj E).
  - apply (repeat_sweep (DefaultJacobiOp2.execute k)
             (DefaultJacobiOp2.x_slot k)
             (DefaultJacobiOp2.update_value k m) idx m again).
    + intros m' i Hi Hm'.
      destruct (jacobi2_update_value_ext k m m' i) as [Ed Ev].
      { intros a Ha. apply Hm'. intros j Hj ->. now apply (Hapart j i). }
      rewrite jacobi2_relax, relax_defined by (rewrite ?Ed; auto).
      now rewrite <- Ev.
    + intros i j Hi Hj E. now rewrite (Hinj i j Hi Hj E).
Qed.

End MoreLaws.

(** ** The further properties at the concrete systems *)


(** X2 on the 3x3 system, flat index 0. *)
Lemma gauss_seidel_writes_one_slot_witness :
  (exists v,
      store Example3x3.mem1 40
            (DefaultFineGrainHybridGaussSeidelOp1.update_value
               (Example3x3.gs1 (Example3x3.qc 1 1)) Example3x3.mem1 0)
      = store Example3x3.mem1
              (DefaultFineGrainHybridGaussSeidelOp1.x_slot
                 (Example3x3.gs1 (Example3x3.qc 1 1)) 0) v)
  /\ (forall a,
         a <> 40 + 0 / 3 * 3 + 0 mod 3 ->
         store Example3x3.mem1 40
               (DefaultFineGrainHybridGaussSeidelOp1.update_value
                  (Example3x3.gs1 (Example3x3.qc 1 1)) Example3x3.mem1 0) a
         = Example3x3.mem1 a).
Proof.
  apply (proj1 (gauss_seidel_writes_one_slot Example3x3.mem1 0)
           (Example3x3.gs1 (Example3x3.qc 1 1))).
  rewrite gs1_relax by (simpl; discriminate).
  rewrite relax_defined by (apply (diag_3x3_nonzero 0); lia).
  reflexivity.
Defined.

(** X4 on the 3x3 system, flat index 1, for the Jacobi kernels. *)
Lemma relaxation_formats_agree_witness :
  DefaultJacobiOp1.execute (Example3x3.jacobi1 (Example3x3.qc 1 2))
                           Example3x3.mem1 1
  = DefaultJacobiOp2.execute (Example3x3.jacobi2 (Example3x3.qc 1 2))
                             Example3x3.mem1 1.
Proof.
  apply (proj1 (relaxation_formats_agree Example3x3.mem1 1)).
  - repeat split.
  - vm_compute. reflexivity.
Defined.

(** X5 on the 3x3 system run in place, flat index 0. *)
Lemma jacobi_in_place_is_gauss_seidel_witness :
  DefaultJacobiOp1.execute ExampleMore.jacobi_in_place Example3x3.mem1 0
  = DefaultFineGrainHybridGaussSeidelOp1.execute
      (DefaultFineGrainHybridGaussSeidelOp1.of_jacobi
         ExampleMore.jacobi_in_place) Example3x3.mem1 0.
Proof.
  apply (proj1 (jacobi_in_place_is_gauss_seidel Example3x3.mem1 0)).
  reflexivity.
Defined.

(** X6 on the 3x3 system, damping factor 1/2, flat index 1. *)
Lemma jacobi_classical_form_witness :
  DefaultJacobiOp1.execute (Example3x3.jacobi1 (Example3x3.qc 1 2))
                           Example3x3.mem1 1
  = Some (store Example3x3.mem1
            (DefaultJacobiOp1.x_slot
               (Example3x3.jacobi1 (Example3x3.qc 1 2)) 1)
            (DefaultJacobiOp1.classical_value
               (Example3x3.jacobi1 (Example3x3.qc 1 2)) Example3x3.mem1 1)).
Proof.
  apply (proj1 (jacobi_classical_form Example3x3.mem1 1)).
  - simpl. discriminate.
  - vm_compute. reflexivity.
  - apply (diag_3x3_nonzero 1). lia.
Defined.

(** X7 on the 3x3 system, damping factor 1/2, flat index 2, second
    storage. *)
Lemma gauss_seidel_classical_form_witness :
  DefaultFineGrainHybridGaussSeidelOp2.execute
    (Example3x3.gs2 (Example3x3.qc 1 2)) Example3x3.mem1 2
  = Some (store Example3x3.mem1
            (DefaultFineGrainHybridGaussSeidelOp2.x_slot
               (Example3x3.gs2 (Example3x3.qc 1 2)) 2)
            (DefaultFineGrainHybridGaussSeidelOp2.classical_value
               (Example3x3.gs2 (Example3x3.qc 1 2)) Example3x3.mem1 2)).
Proof.
  apply (proj2 (gauss_seidel_classical_form Example3x3.mem1 2)).
  - simpl. discriminate.
  - vm_compute. reflexivity.
  - apply (diag_3x3_nonzero 2). lia.
Defined.

(** X8 on the solved lower-triangular system, flat index 1. *)
Lemma jacobi_solved_row_witness :
  DefaultJacobiOp1.execute ExampleMore.lower_jacobi ExampleMore.lower_solved 1
  = Some (store ExampleMore.lower_solved
            (DefaultJacobiOp1.x_slot ExampleMore.lower_jacobi 1)
            (ExampleMore.lower_solved
               (DefaultJacobiOp1.x0_slot ExampleMore.lower_jacobi 1))).
Proof.
  apply (proj1 (jacobi_solved_row ExampleMore.lower_solved 1)).
  - simpl. discriminate.
  - apply Qc_this_neq. vm_compute. discriminate.
  - apply Qc_is_canon. vm_compute. reflexivity.
Defined.

(** X9 on the diagonal system, flat index 1. *)
Lemma jacobi_diagonal_row_witness :
  DefaultJacobiOp2.execute ExampleMore.diagonal_jacobi
                           ExampleMore.diagonal_mem 1
  = Some (store ExampleMore.diagonal_mem
            (DefaultJacobiOp2.x_slot ExampleMore.diagonal_jacobi 1)
            (ExampleMore.diagonal_mem
               (DefaultJacobiOp2.b_slot ExampleMore.diagonal_jacobi 1)
             / ExampleMore.diagonal_mem
                 (DefaultJacobiOp2.diag_slot ExampleMore.diagonal_jacobi 1))%S).
Proof.
  apply (proj2 (jacobi_diagonal_row ExampleMore.diagonal_mem 1)).
  - simpl. discriminate.
  - reflexivity.
  - vm_compute. reflexivity.
  - apply Qc_this_neq. vm_compute. discriminate.
Defined.

(** X10 on the solved lower-triangular system: two sweeps over the rows in
    the order 2, 0, 1, 0. *)
Lemma gauss_seidel_solved_system_witness :
  exists m',
    sweeps (DefaultFineGrainHybridGaussSeidelOp1.execute ExampleLower.gs1)
           [2; 0; 1; 0] 2 ExampleMore.lower_solved
    = Some m'
    /\ forall a, m' a = ExampleMore.lower_solved a.
Proof.
  apply (proj1 (gauss_seidel_solved_system ExampleMore.lower_solved
                  [2; 0; 1; 0] 2)).
  - simpl. discriminate.
  - intros i Hi. simpl in Hi.
    destruct Hi as [<-|[<-|[<-|[<-|[]]]]];
      (split; [apply Qc_this_neq; vm_compute; discriminate
              | apply Qc_is_canon; vm_compute; reflexivity]).
Defined.

(** X11 on the 3x3 system: the three flat indices in the order 2, 0, 1. *)
Lemma jacobi_sweep_any_order_witness :
  exists m',
    sweep (DefaultJacobiOp1.execute (Example3x3.jacobi1 (Example3x3.qc 1 1)))
          [2; 0; 1] Example3x3.mem1
    = Some m'
    /\ (forall i, In i (range 0 3) ->
          m' (DefaultJacobiOp1.x_slot
                (Example3x3.jacobi1 (Example3x3.qc 1 1)) i)
          = DefaultJacobiOp1.update_value
              (Example3x3.jacobi1 (Example3x3.qc 1 1)) Example3x3.mem1 i)
    /\ (forall a,
           (forall i, In i (range 0 3) ->
                      a <> DefaultJacobiOp1.x_slot
                             (Example3x3.jacobi1 (Example3x3.qc 1 1)) i) ->
           m' a = Example3x3.mem1 a).
Proof.
  apply (proj1 (jacobi_sweep_any_order Example3x3.mem1 (range 0 3) [2; 0; 1])).
  - simpl. discriminate.
  - intros i Hi. simpl in Hi.
    destruct Hi as [<-|[<-|[<-|[]]]];
      apply Qc_this_neq; vm_compute; discriminate.
  - intros i j Hi Hj Hin. simpl in Hi, Hj.
    destruct Hi as [<-|[<-|[<-|[]]]]; destruct Hj as [<-|[<-|[<-|[]]]];
      vm_compute in Hin; lia.
  - intros i j Hi Hj. simpl in Hi, Hj.
    destruct Hi as [<-|[<-|[<-|[]]]]; destruct Hj as [<-|[<-|[<-|[]]]];
      vm_compute; lia.
  - intros i. simpl. lia.
Defined.

(** X12 on the 3x3 system: the rows in the order 2, 0, 1. *)
Lemma extract_sweep_result_witness :
  (forall a,
      ~ cells 10 3 a ->
      sweep_total (ExtractDiagonalOp1.execute Example3x3.extract1)
                  [2; 0; 1] Example3x3.mem0 a
      = Example3x3.mem0 a)
  /\ (forall r, r < 3 ->
        sweep_total (ExtractDiagonalOp1.execute Example3x3.extract1)
                    [2; 0; 1] Example3x3.mem0 (10 + r)
        = match first_diagonal r (ExtractDiagonalOp1.row_entries
                                    Example3x3.extract1 Example3x3.mem0 r)
          with
          | Some v => v
          | None => Example3x3.mem0 (10 + r)
          end)
  /\ (forall again,
         (forall r, In r again -> r < 3) ->
         forall a,
           sweep_total (ExtractDiagonalOp1.execute Example3x3.extract1) again
             (sweep_total (ExtractDiagonalOp1.execute Example3x3.extract1)
                          [2; 0; 1] Example3x3.mem0) a
           = sweep_total (ExtractDiagonalOp1.execute Example3x3.extract1)
                         [2; 0; 1] Example3x3.mem0 a).
Proof.
  apply (proj1 (extract_sweep_result Example3x3.mem0 [2; 0; 1])
           Example3x3.extract1).
  - intros a r [H1 H2] Hr Hin. simpl in H1, H2, Hr.
    destruct r as [|[|[|r]]]; vm_compute in Hin; lia.
  - intros r. simpl. lia.
Defined.

(** X13 on the upper-triangular system. *)
Lemma gauss_seidel_backward_solve_witness :
  exists m',
    sweep (DefaultFineGrainHybridGaussSeidelOp1.execute ExampleMore.upper_gs)
          (rev (range 0 2)) ExampleMore.upper_mem
    = Some m'
    /\ (forall a, ~ cells 40 2 a -> m' a = ExampleMore.upper_mem a)
    /\ DefaultFineGrainHybridGaussSeidelOp1.solves ExampleMore.upper_gs m' 2 40.
Proof.
  apply (proj1 (gauss_seidel_backward_solve ExampleMore.upper_mem)
           ExampleMore.upper_gs).
  - reflexivity.
  - intros r e Hr Hin. simpl in Hr.
    destruct r as [|[|r]]; try lia; vm_compute in Hin;
      repeat (destruct Hin as [<-|Hin]; [simpl; lia|]); contradiction.
  - intros r Hr. simpl in Hr.
    destruct r as [|[|r]]; try lia;
      (split; [vm_compute; reflexivity
              | apply Qc_this_neq; vm_compute; discriminate]).
  - intros a [H1 H2]. simpl in H1, H2. unfold cells. simpl.
    split; [lia|]. split; [lia|].
    intros r Hr Hin.
    destruct r as [|[|r]]; vm_compute in Hin; lia.
Defined.

(** X14 on the lower-triangular system: the solve and two more sweeps. *)
Lemma gauss_seidel_triangular_stable_witness :
  exists m1 m2,
    sweep (DefaultFineGrainHybridGaussSeidelOp1.execute ExampleLower.gs1)
          (range 0 3) ExampleLower.mem0
    = Some m1
    /\ sweeps (DefaultFineGrainHybridGaussSeidelOp1.execute ExampleLower.gs1)
              (range 0 3) 2 m1
       = Some m2
    /\ forall a, m2 a = m1 a.
Proof.
  apply (proj1 (gauss_seidel_triangular_stable ExampleLower.mem0 2)
           ExampleLower.gs1).
  - reflexivity.
  - intros r e Hr Hin. simpl in Hr.
    destruct r as [|[|[|r]]]; try lia; vm_compute in Hin;
      repeat (destruct Hin as [<-|Hin]; [simpl; lia|]); contradiction.
  - intros r Hr. simpl in Hr.
    destruct r as [|[|[|r]]]; try lia;
      (split; [vm_compute; reflexivity
              | apply Qc_this_neq; vm_compute; discriminate]).
  - intros a [H1 H2]. simpl in H1, H2. unfold cells. simpl.
    split; [lia|]. split; [lia|].
    intros r Hr Hin.
    destruct r as [|[|[|r]]]; vm_compute in Hin; lia.
Defined.

(** X15 on the lower-triangular system whose [diag] holds arbitrary values
    at first: the extractor over the rows in the order 2, 0, 1, then the
    solve. *)
Lemma extract_then_gauss_seidel_solve_witness :
  DefaultFineGrainHybridGaussSeidelOp1.diagonal_held ExampleLower.gs1
    (sweep_total
       (ExtractDiagonalOp1.execute
          (DefaultFineGrainHybridGaussSeidelOp1.extractor ExampleLower.gs1))
       [2; 0; 1] ExampleMore.lower_raw) 3
  /\ exists m2,
      sweep (DefaultFineGrainHybridGaussSeidelOp1.execute ExampleLower.gs1)
            (range 0 3)
            (sweep_total
               (ExtractDiagonalOp1.execute
                  (DefaultFineGrainHybridGaussSeidelOp1.extractor
                     ExampleLower.gs1))
               [2; 0; 1] ExampleMore.lower_raw)
      = Some m2
      /\ (forall a, ~ cells 40 3 a -> ~ cells 10 3 a ->
                    m2 a = ExampleMore.lower_raw a)
      /\ DefaultFineGrainHybridGaussSeidelOp1.solves ExampleLower.gs1 m2 3 40.
Proof.
  apply (proj1 (extract_then_gauss_seidel_solve ExampleMore.lower_raw
                  [2; 0; 1]) ExampleLower.gs1).
  - reflexivity.
  - intros r e Hr Hin. simpl in Hr.
    destruct r as [|[|[|r]]]; try lia; vm_compute in Hin;
      repeat (destruct Hin as [<-|Hin]; [simpl; lia|]); contradiction.
  - intros r Hr. simpl in Hr.
    destruct r as [|[|[|r]]]; try lia;
      (eexists; split; [vm_compute; reflexivity
                       | apply Qc_this_neq; vm_compute; discriminate]).
  - intros a [H1 H2]. simpl in H1, H2. unfold cells. simpl.
    split; [lia|]. split; [lia|].
    intros r Hr Hin.
    destruct r as [|[|[|r]]]; vm_compute in Hin; lia.
  - intros a r [H1 H2] Hr Hin. simpl in H1, H2, Hr.
    destruct r as [|[|[|r]]]; vm_compute in Hin; lia.
  - intros r. simpl. lia.
Defined.

(** X16 on the 3x3 system: the sweep and two more. *)
Lemma jacobi_sweep_again_witness :
  exists m1 m2,
    sweep (DefaultJacobiOp2.execute (Example3x3.jacobi2 (Example3x3.qc 1 1)))
          (range 0 3) Example3x3.mem1
    = Some m1
    /\ sweeps (DefaultJacobiOp2.execute
                 (Example3x3.jacobi2 (Example3x3.qc 1 1)))
              (range 0 3) 2 m1
       = Some m2
    /\ forall a, m2 a = m1 a.
Proof.
  apply (proj2 (jacobi_sweep_again Example3x3.mem1 (range 0 3) 2)).
  - simpl. discriminate.
  - intros i Hi. simpl in Hi.
    destruct Hi as [<-|[<-|[<-|[]]]];
      apply Qc_this_neq; vm_compute; discriminate.
  - intros i j Hi Hj Hin. simpl in Hi, Hj.
    destruct Hi as [<-|[<-|[<-|[]]]]; destruct Hj as [<-|[<-|[<-|[]]]];
      vm_compute in Hin; lia.
  - intros i j Hi Hj. simpl in Hi, Hj.
    destruct Hi as [<-|[<-|[<-|[]]]]; destruct Hj as [<-|[<-|[<-|[]]]];
      vm_compute; lia.
Defined.
